(** * Site settings and gallery resolution

    A shallow embedding of the settings store and of the gallery resolver of
    the salon web site ([src/firebase.ts], and the [Specials] and [Gallery]
    components of the public page), with the properties its specification
    states about them.

    Conventions of the embedding.

    - A JavaScript [number] is [NaN], one of the two infinities, an
      integer, kept as a [Z], or a finite number with a fractional part,
      kept as the integer below it and its decimal text.  Sums of
      integers are exact and [String(n)] is the decimal numeral, as they
      are for safe integers, up to 2^53 - 1 ([MAX_SAFE_INTEGER]); a
      statement about the numbers of a range bounds them so.
    - A string is a [string] of eight-bit code units.
    - An array is a [list], without the engine's bound on its length.
    - An exception is [None]. *)

From Stdlib Require Import ZArith Lia List Bool Ascii String.
From stdpp Require Import gmap strings list pretty.

Set Default Proof Using "Type".
Set Warnings "-clear-no-such-hyp".
Local Open Scope Z_scope.

(** ** The fragment of the JavaScript runtime the code relies on *)

Module JS.

(** *** Numbers

    The code rounds a number before it computes with it, so arithmetic
    and order are given on rounded numbers only. *)

(** What [Math.floor] returns: an integer, an infinity or [NaN]. *)
Inductive rounded : Type :=
| NaN
| PosInf
| NegInf
| Int (z : Z).

(** A number: a rounded one, or a finite number with a fractional part,
    known by the integer below it and by its decimal text. *)
Inductive number : Type :=
| Rounded (r : rounded)
| Frac (below : Z) (text : string).

Coercion Rounded : rounded >-> number.

#[global] Instance rounded_eq_dec : EqDecision rounded.
Proof. solve_decision. Defined.

#[global] Instance number_eq_dec : EqDecision number.
Proof. solve_decision. Defined.

(** [Boolean(n)]: zero and [NaN] are falsy. *)
Definition num_truthy (n : number) : bool :=
  match n with
  | Rounded NaN | Rounded (Int 0) => false
  | _ => true
  end.

(** [a || b] on numbers. *)
Definition num_or (a b : number) : number :=
  if num_truthy a then a else b.

Definition Math_floor (n : number) : rounded :=
  match n with
  | Rounded r => r
  | Frac below _ => Int below
  end.

(** [Number(n)] on a value that is a number already. *)
Definition Number (n : number) : number := n.

Definition Math_max (a b : rounded) : rounded :=
  match a, b with
  | NaN, _ | _, NaN => NaN
  | PosInf, _ | _, PosInf => PosInf
  | NegInf, x | x, NegInf => x
  | Int x, Int y => Int (Z.max x y)
  end.

Definition num_neg (a : rounded) : rounded :=
  match a with
  | NaN => NaN
  | PosInf => NegInf
  | NegInf => PosInf
  | Int x => Int (- x)
  end.

(** [a + b]; the sum of two integers is exact, as it is while the
    integers and their sum are safe. *)
Definition num_add (a b : rounded) : rounded :=
  match a, b with
  | NaN, _ | _, NaN => NaN
  | PosInf, NegInf | NegInf, PosInf => NaN
  | PosInf, _ | _, PosInf => PosInf
  | NegInf, _ | _, NegInf => NegInf
  | Int x, Int y => Int (x + y)
  end.

Definition num_sub (a b : rounded) : rounded := num_add a (num_neg b).

(** [a <= b]; every comparison with [NaN] is false. *)
Definition num_leb (a b : rounded) : bool :=
  match a, b with
  | NaN, _ | _, NaN => false
  | NegInf, _ | _, PosInf => true
  | PosInf, _ | _, NegInf => false
  | Int x, Int y => x <=? y
  end.

(** [a >= b]. *)
Definition num_geb (a b : rounded) : bool := num_leb b a.

Definition Number_isFinite (n : number) : bool :=
  match n with
  | Rounded (Int _) | Frac _ _ => true
  | _ => false
  end.

Definition Number_isNaN (n : number) : bool :=
  match n with
  | Rounded NaN => true
  | _ => false
  end.

(** [String(n)], as a template literal interpolates a number; the text of
    an integer is its decimal numeral, as it is of a safe integer. *)
Definition Number_toString (n : number) : string :=
  match n with
  | Rounded NaN => "NaN"
  | Rounded PosInf => "Infinity"
  | Rounded NegInf => "-Infinity"
  | Rounded (Int z) => pretty z
  | Frac _ text => text
  end.

(** *** Strings *)

Local Open Scope string_scope.

(** [Boolean(s)]: only the empty string is falsy. *)
Definition str_truthy (s : string) : bool :=
  match s with
  | "" => false
  | _ => true
  end.

(** [a || b] on strings. *)
Definition str_or (a b : string) : string :=
  if str_truthy a then a else b.

(** White space and line terminators among the code units below 256:
    TAB, LF, VT, FF, CR, SP and NBSP. *)
Definition is_whitespace (c : ascii) : bool :=
  let n := nat_of_ascii c in
  ((9 <=? n)%nat && (n <=? 13)%nat) || (n =? 32)%nat || (n =? 160)%nat.

Fixpoint trimStart (s : string) : string :=
  match s with
  | "" => ""
  | String c r => if is_whitespace c then trimStart r else s
  end.

(** [trimEnd] drops a character when it is white space and nothing but
    white space follows it. *)
Fixpoint trimEnd (s : string) : string :=
  match s with
  | "" => ""
  | String c r =>
      match trimEnd r with
      | "" => if is_whitespace c then "" else String c ""
      | r' => String c r'
      end
  end.

(** [s.trim()]. *)
Definition trim (s : string) : string := trimEnd (trimStart s).

(** [s.startsWith(p)]. *)
Fixpoint startsWith (s p : string) {struct p} : bool :=
  match p, s with
  | "", _ => true
  | String _ _, "" => false
  | String a p', String b s' => Ascii.eqb a b && startsWith s' p'
  end.

(** [s.includes(p)]. *)
Fixpoint includes (s p : string) : bool :=
  startsWith s p ||
  match s with
  | "" => false
  | String _ r => includes r p
  end.

(** [s.split(c)[0]] for a one-character separator: the text before the
    first [c], all of [s] when there is none. *)
Fixpoint split_head (s : string) (c : ascii) : string :=
  match s with
  | "" => ""
  | String a r => if Ascii.eqb a c then "" else String a (split_head r c)
  end.

(** [s.split(c).pop()] for a one-character separator: the text after the
    last [c], all of [s] when there is none. *)
Fixpoint split_last (s : string) (c : ascii) : string :=
  match s with
  | "" => ""
  | String a r =>
      if includes r (String c "") then split_last r c
      else if Ascii.eqb a c then r
      else s
  end.

(** [s.indexOf(c)] for a one-character needle; [-1] when absent. *)
Fixpoint indexOf (s : string) (c : ascii) : Z :=
  match s with
  | "" => (-1)%Z
  | String a r =>
      if Ascii.eqb a c then 0%Z
      else let i := indexOf r c in if (i <? 0)%Z then -1 else (i + 1)%Z
  end.

Fixpoint drop_chars (n : nat) (s : string) : string :=
  match n, s with
  | O, _ => s
  | S _, "" => ""
  | S n', String _ r => drop_chars n' r
  end.

(** [s.slice(i)]: a negative [i] counts from the end. *)
Definition slice_from (s : string) (i : Z) : string :=
  if (i <? 0)%Z
  then drop_chars (Z.to_nat (Z.max 0 (Z.of_nat (String.length s) + i))) s
  else drop_chars (Z.to_nat i) s.

(** [\d]. *)
Definition is_digit (c : ascii) : bool :=
  let n := nat_of_ascii c in (48 <=? n)%nat && (n <=? 57)%nat.

Fixpoint all_digits (s : string) : bool :=
  match s with
  | "" => true
  | String c r => is_digit c && all_digits r
  end.

(** [/^\d+$/.test(s)]. *)
Definition test_digits_only (s : string) : bool :=
  str_truthy s && all_digits s.

(** [s.replace(/^\./, "")]. *)
Definition strip_leading_dot (s : string) : string :=
  match s with
  | String c r => if Ascii.eqb c "." then r else s
  | "" => ""
  end.

End JS.

Export JS.

Local Open Scope string_scope.

(** ** The settings document ([interface SiteSettings]) *)

Inductive GalleryMode : Type := numbered | custom.

(** ["cover" | "contain"], the type of [heroVideoFit] and of [tileFit]. *)
Inductive Fit : Type := cover | contain.

Module Contact.
Record t : Type := {
  addressLines : list string;
  mapUrl : string;
  phoneDisplay : string;
  phoneTel : string;
  whatsappDigits : string;
  email : string;
  hours : string;
}.
End Contact.

Module Socials.
Record t : Type := {
  instagramUrl : string;
  facebookUrl : string;
}.
End Socials.

Module Media.
Record t : Type := {
  heroVideoUrl : string;
  heroPosterUrl : string;
  heroVideoFit : Fit;
  heroVideoPosition : string;
}.
End Media.

Module Promotion.
Record t : Type := {
  id : string;
  title : string;
  description : string;
  badge : string;
  ctaText : string;
  imageUrl : string;
  validUntil : string;
}.
End Promotion.

Module Promotions.
Record t : Type := {
  enabled : bool;
  items : list Promotion.t;
}.
End Promotions.

Module FeaturedNails.
Record t : Type := {
  enabled : bool;
  title : string;
  imageUrls : list string;
}.
End FeaturedNails.

Module FeaturedVideo.
Record t : Type := {
  enabled : bool;
  url : string;
  posterUrl : string;
  title : string;
}.
End FeaturedVideo.

Module Numbered.
Record t : Type := {
  folder : string;
  start : number;
  end_ : number;
  extension : string;
  order : list number;
}.
End Numbered.

Module Gallery.
Record t : Type := {
  assetVersion : number;
  mode : GalleryMode;
  initialCount : number;
  pageSize : number;
  tileFit : Fit;
  featuredNails : FeaturedNails.t;
  featuredVideo : FeaturedVideo.t;
  numbered : Numbered.t;
  customImages : list string;
}.
End Gallery.

Record SiteSettings : Type := {
  contact : Contact.t;
  socials : Socials.t;
  media : Media.t;
  promotions : Promotions.t;
  gallery : Gallery.t;
}.

Definition DEFAULT_SITE_SETTINGS : SiteSettings := {|
  contact := {|
    Contact.addressLines :=
      [ "248 Ben Viljoen St";
        "Pretoria North, Pretoria, 0116";
        "South Africa" ];
    Contact.mapUrl :=
      "https://www.google.com/maps/search/?api=1&query=248+Ben+Viljoen+St,+Pretoria+North,+Pretoria,+0116,+South+Africa";
    Contact.phoneDisplay := "+27 69 288 8445";
    Contact.phoneTel := "+27692888445";
    Contact.whatsappDigits := "27692888445";
    Contact.email := "info@berlybeauty.co.za";
    Contact.hours := "Mon - Sun: 7:00 AM - 7:00 PM";
  |};
  socials := {|
    Socials.instagramUrl :=
      "https://www.instagram.com/salonberlybeauty10?igsh=MW42ZmFjY295NTk1eQ==";
    Socials.facebookUrl := "https://www.facebook.com/share/1HRogBAxNy/";
  |};
  media := {|
    Media.heroVideoUrl := "/gallery/1.mp4";
    Media.heroPosterUrl := "/gallery/1.jpeg";
    Media.heroVideoFit := cover;
    Media.heroVideoPosition := "50% 15%";
  |};
  promotions := {|
    Promotions.enabled := true;
    Promotions.items := [];
  |};
  gallery := {|
    Gallery.assetVersion := Int 1;
    Gallery.mode := numbered;
    Gallery.initialCount := Int 11;
    Gallery.pageSize := Int 12;
    Gallery.tileFit := cover;
    Gallery.featuredNails := {|
      FeaturedNails.enabled := true;
      FeaturedNails.title := "Nails Designs";
      FeaturedNails.imageUrls :=
        [ "/gallery/nails1.jpeg";
          "/gallery/nails2.jpeg";
          "/gallery/nails3.jpeg" ];
    |};
    Gallery.featuredVideo := {|
      FeaturedVideo.enabled := false;
      FeaturedVideo.url := "/gallery/nails.mp4";
      FeaturedVideo.posterUrl := "/gallery/nails.jpeg";
      FeaturedVideo.title := "Nails";
    |};
    Gallery.numbered := {|
      Numbered.folder := "/gallery";
      Numbered.start := Int 1;
      Numbered.end_ := Int 50;
      Numbered.extension := "jpeg";
      Numbered.order := [];
    |};
    Gallery.customImages := [];
  |};
|}.

(** ** Gallery resolution ([buildGalleryImageList]) *)

(** [Array.from(new Set(xs))]: a [Set] keeps its members in the order of
    their first insertion; [seen] is the set built so far. *)
Fixpoint Set_insert_all {A} `{EqDecision A} (seen xs : list A) : list A :=
  match xs with
  | [] => []
  | x :: r =>
      if bool_decide (x ∈ seen) then Set_insert_all seen r
      else x :: Set_insert_all (x :: seen) r
  end.

Definition Set_from {A} `{EqDecision A} (xs : list A) : list A :=
  Set_insert_all [] xs.

(** [set.has(n)], the set given by its members. *)
Definition Set_has {A} `{EqDecision A} (members : list A) (n : A) : bool :=
  bool_decide (n ∈ members).

(** [Number.MAX_SAFE_INTEGER], 2^53 - 1: up to it every integer is a
    number, and sums and differences of integers are exact. *)
Definition MAX_SAFE_INTEGER : Z := 9007199254740991.

(** The greatest length of an array, 2^32 - 1. *)
Definition MAX_ARRAY_LENGTH : Z := 4294967295.

(** [Array.from({ length: len }, (_, i) => f(i))].  [ToLength] takes [NaN]
    and anything below one to length zero; for a length above
    [MAX_ARRAY_LENGTH], infinite or not, the constructor raises
    [RangeError]. *)
Definition Array_from_length (len : rounded) (f : rounded → rounded)
  : option (list rounded) :=
  match len with
  | NaN | NegInf => Some []
  | PosInf => None
  | Int n =>
      if (MAX_ARRAY_LENGTH <? n)%Z then None
      else Some (List.map (λ i, f (Int i)) (seqZ 0 n))
  end.

(** [safeStart] of the numbered range. *)
Definition safeStart (nb : Numbered.t) : rounded :=
  Math_max (Int 1) (Math_floor (num_or (Numbered.start nb) (Int 1))).

(** [safeEnd] of the numbered range. *)
Definition safeEnd (nb : Numbered.t) : rounded :=
  Math_max (safeStart nb)
    (Math_floor (num_or (Numbered.end_ nb) (safeStart nb))).

(** [range]: the numbers from [safeStart] to [safeEnd]. *)
Definition range (nb : Numbered.t) : option (list rounded) :=
  Array_from_length
    (num_add (num_sub (safeEnd nb) (safeStart nb)) (Int 1))
    (λ i, num_add (safeStart nb) i).

(** [manual]: the order is of type [number[]], so [Array.isArray(order)]
    holds and what is left is [order.length > 0]. *)
Definition manual (nb : Numbered.t) : bool :=
  match Numbered.order nb with
  | [] => false
  | _ :: _ => true
  end.

(** [baseOrdered]: the manual order, every entry rounded down, kept when
    finite and in range, without repetitions. *)
Definition baseOrdered (nb : Numbered.t) : list rounded :=
  if manual nb then
    Set_from
      (List.filter
         (λ n : rounded,
            Number_isFinite n && num_geb n (safeStart nb)
            && num_leb n (safeEnd nb))
         (List.map (λ n, Math_floor (Number n)) (Numbered.order nb)))
  else [].

(** [orderedNumbers]: the numbers of the images, in display order. *)
Definition orderedNumbers (nb : Numbered.t) : option (list rounded) :=
  match range nb with
  | None => None
  | Some range =>
      let baseSet := baseOrdered nb in
      Some (if manual nb
            then (baseOrdered nb
                  ++ List.filter (λ n, negb (Set_has baseSet n)) range)%list
            else range)
  end.

(** The template literal [`${folder}/${n}.${ext}?v=${v}`]. *)
Definition numbered_url (folder ext : string) (v : number) (n : rounded)
  : string :=
  folder +:+ "/" +:+ Number_toString n +:+ "." +:+ ext
         +:+ "?v=" +:+ Number_toString v.

(** The settings are of type [SiteSettings], so [assetVersion] is a number
    and the test [typeof assetVersion === "number"] always takes it. *)
Definition buildGalleryImageList (settings : SiteSettings)
  : option (list string) :=
  match Gallery.mode (gallery settings) with
  | custom =>
      Some (List.filter str_truthy (Gallery.customImages (gallery settings)))
  | numbered =>
      let nb := Gallery.numbered (gallery settings) in
      let ext := strip_leading_dot (str_or (Numbered.extension nb) "jpeg") in
      let v := Gallery.assetVersion (gallery settings) in
      match orderedNumbers nb with
      | None => None
      | Some orderedNumbers =>
          Some (List.map (numbered_url (Numbered.folder nb) ext v)
                  orderedNumbers)
      end
  end.

(** ** Featured images ([normalizeFeaturedUrl], [nailsAll]) *)

Definition to_lower (c : ascii) : ascii :=
  let n := nat_of_ascii c in
  if (65 <=? n)%nat && (n <=? 90)%nat then ascii_of_nat (n + 32) else c.

Fixpoint lowercase (s : string) : string :=
  match s with
  | "" => ""
  | String c r => String (to_lower c) (lowercase r)
  end.

(** [/^https?:\/\//i.test(s)]. *)
Definition test_http_url (s : string) : bool :=
  startsWith (lowercase s) "http://" || startsWith (lowercase s) "https://".

(** The pattern [[?&]v=\d+] matches at the first character of [s]. *)
Definition version_here (s : string) : bool :=
  match s with
  | String c (String c1 (String c2 (String d _))) =>
      (Ascii.eqb c "?" || Ascii.eqb c "&")
      && Ascii.eqb c1 "v" && Ascii.eqb c2 "=" && is_digit d
  | _ => false
  end.

(** [/[?&]v=\d+/.test(s)]. *)
Fixpoint test_version (s : string) : bool :=
  version_here s ||
  match s with
  | "" => false
  | String _ r => test_version r
  end.

(** What is left of [s] after the longest run of digits at its start. *)
Fixpoint drop_digits (s : string) : string :=
  match s with
  | "" => ""
  | String c r => if is_digit c then drop_digits r else s
  end.

(** [s.replace(/([?&]v=)\d+/, `$1${v}`)]: the leftmost match is replaced,
    [\d+] takes the longest run of digits, and the replacement is the
    captured group followed by the text of [v] (the pattern has one group,
    so [$1] followed by a digit is still group one and a literal digit). *)
Fixpoint replace_version (s v : string) : string :=
  match s with
  | "" => ""
  | String c r =>
      if version_here s
      then String c ("v=" +:+ v +:+ drop_digits (drop_chars 2 r))
      else String c (replace_version r v)
  end.

Definition normalizeFeaturedUrl (settings : SiteSettings) (input : string)
  : string :=
  let url := trim (str_or input "") in
  if negb (str_truthy url) then "" else
  let nb := Gallery.numbered (gallery settings) in
  let folder := str_or (Numbered.folder nb) "/gallery" in
  let ext := strip_leading_dot (str_or (Numbered.extension nb) "jpeg") in
  let url :=
    if test_digits_only url
    then folder +:+ "/" +:+ url +:+ "." +:+ ext
    else url in
  let url :=
    if negb (test_http_url url) then
      let url := if startsWith url "gallery/" then "/" +:+ url else url in
      let url :=
        if negb (startsWith url "/") then
          if negb (includes url "/") then "/gallery/" +:+ url
          else "/" +:+ url
        else url in
      let pathOnly := split_head url "?" in
      let last := str_or (split_last pathOnly "/") "" in
      if str_truthy last && negb (includes last ".") then
        pathOnly +:+ "." +:+ ext
          +:+ (if includes url "?" then slice_from url (indexOf url "?")
               else "")
      else url
    else url in
  let v := Gallery.assetVersion (gallery settings) in
  let isInternal :=
    startsWith url "/gallery/" || startsWith url (folder +:+ "/") in
  if isInternal then
    if test_version url then replace_version url (Number_toString v)
    else url +:+ (if includes url "?" then "&v=" +:+ Number_toString v
                  else "?v=" +:+ Number_toString v)
  else url.

(** [nailsAll]: every entry normalized, the empty ones dropped, without
    repetitions. *)
Definition nailsAll (settings : SiteSettings) : list string :=
  Set_from
    (List.filter str_truthy
       (List.map (normalizeFeaturedUrl settings)
          (FeaturedNails.imageUrls (Gallery.featuredNails (gallery settings))))).

(** ** The specials on display ([Specials]) *)

(** [new Date(s).getTime()].  What a text means as a date is the engine's
    business: [time_value s] is the time the engine reads in [s], in
    milliseconds, and [None] when it reads no date, where [getTime] is
    [NaN]. *)
Definition Date_getTime (time_value : string → option Z) (s : string)
  : rounded :=
  match time_value s with
  | Some ms => Int ms
  | None => NaN
  end.

(** The callback of the filter, [now] being [Date.now()].  A promotion is
    an object, so [!x] is false. *)
Definition displayable (time_value : string → option Z) (now : Z)
    (x : Promotion.t) : bool :=
  if negb (str_truthy (trim (Promotion.title x))) then false
  else if negb (str_truthy (Promotion.validUntil x)) then true
  else
    let t := Date_getTime time_value (Promotion.validUntil x) in
    if Number_isNaN t then true else num_geb t (Int now).

(** [items] of the component; [xs.slice(0, 12)] is [take 12 xs], and
    [items || []] is [items], an array. *)
Definition Specials_items (time_value : string → option Z) (now : Z)
    (settings : SiteSettings) : list Promotion.t :=
  if negb (Promotions.enabled (promotions settings)) then []
  else
    take 12
      (List.filter (displayable time_value now)
         (Promotions.items (promotions settings))).

(** ** The settings store ([mergeSettings], [loadFromLocalStorage])

    The store handles documents whose shape is not known: what comes out of
    [JSON.parse] or of the remote collection.  They are embedded as values
    of the dynamic language.

    Objects and arrays are mutable and shared by reference.  None of the
    functions below writes to an object, they only allocate; so an object is
    written here as the address it was allocated at together with its
    contents.  Two values that carry the same address are the same object:
    a later write through one of them is seen through the other
    ([update] below). *)

Definition addr : Type := nat.

#[local] Unset Elimination Schemes.

Inductive value : Type :=
| VUndefined
| VNull
| VBool (b : bool)
| VNum (n : number)
| VStr (s : string)
| VArr (a : addr) (items : list value)
| VObj (a : addr) (props : list (string * value)).

(** A document as data, without object identity: the tree a JSON text
    denotes.  (A text denotes finite numbers only.) *)
Inductive json : Type :=
| JNull
| JBool (b : bool)
| JNum (n : number)
| JStr (s : string)
| JArr (items : list json)
| JObj (members : list (string * json)).

#[local] Set Elimination Schemes.

(** Induction on documents and on values, with the induction hypothesis
    for every element of an array and every property of an object. *)

Section json_induction.

Variable P : json → Prop.
Hypothesis Hnull : P JNull.
Hypothesis Hbool : ∀ b, P (JBool b).
Hypothesis Hnum : ∀ n, P (JNum n).
Hypothesis Hstr : ∀ s, P (JStr s).
Hypothesis Harr : ∀ js, Forall P js → P (JArr js).
Hypothesis Hobj : ∀ ms, Forall (λ m, P (snd m)) ms → P (JObj ms).

Fixpoint json_ind (j : json) : P j :=
  match j with
  | JNull => Hnull
  | JBool b => Hbool b
  | JNum n => Hnum n
  | JStr s => Hstr s
  | JArr js =>
      Harr js
        ((fix all js : Forall P js :=
            match js with
            | [] => List.Forall_nil P
            | j :: r => List.Forall_cons P j r (json_ind j) (all r)
            end) js)
  | JObj ms =>
      Hobj ms
        ((fix all ms : Forall (λ m, P (snd m)) ms :=
            match ms with
            | [] => List.Forall_nil _
            | m :: r => List.Forall_cons _ m r (json_ind (snd m)) (all r)
            end) ms)
  end.

End json_induction.

Section value_induction.

Variable P : value → Prop.
Hypothesis Hundefined : P VUndefined.
Hypothesis Hnull : P VNull.
Hypothesis Hbool : ∀ b, P (VBool b).
Hypothesis Hnum : ∀ n, P (VNum n).
Hypothesis Hstr : ∀ s, P (VStr s).
Hypothesis Harr : ∀ a xs, Forall P xs → P (VArr a xs).
Hypothesis Hobj : ∀ a ps, Forall (λ kv, P (snd kv)) ps → P (VObj a ps).

Fixpoint value_ind (v : value) : P v :=
  match v with
  | VUndefined => Hundefined
  | VNull => Hnull
  | VBool b => Hbool b
  | VNum n => Hnum n
  | VStr s => Hstr s
  | VArr a xs =>
      Harr a xs
        ((fix all xs : Forall P xs :=
            match xs with
            | [] => List.Forall_nil P
            | x :: r => List.Forall_cons P x r (value_ind x) (all r)
            end) xs)
  | VObj a ps =>
      Hobj a ps
        ((fix all ps : Forall (λ kv, P (snd kv)) ps :=
            match ps with
            | [] => List.Forall_nil _
            | kv :: r => List.Forall_cons _ kv r (value_ind (snd kv)) (all r)
            end) ps)
  end.

End value_induction.

(** *** Properties of objects

    The own properties of an object, in insertion order, without repeated
    keys.  (The engine lists the keys that are array indices before the
    others; no key of the settings is one.) *)

Definition props : Type := list (string * value).

Fixpoint get_prop (ps : props) (k : string) : value :=
  match ps with
  | [] => VUndefined
  | (k', v) :: r => if String.eqb k' k then v else get_prop r k
  end.

Fixpoint has_prop (ps : props) (k : string) : bool :=
  match ps with
  | [] => false
  | (k', _) :: r => String.eqb k' k || has_prop r k
  end.

(** Defining [k]: an existing key keeps its place, a new one goes last. *)
Fixpoint set_prop (k : string) (v : value) (ps : props) : props :=
  match ps with
  | [] => [(k, v)]
  | (k', v') :: r =>
      if String.eqb k' k then (k, v) :: r else (k', v') :: set_prop k v r
  end.

(** Copying the properties [source] onto [target], as a spread does. *)
Definition assign (target source : props) : props :=
  fold_left (λ acc kv, set_prop (fst kv) (snd kv) acc) source target.

Fixpoint indexed {A} (f : A → value) (i : nat) (xs : list A) : props :=
  match xs with
  | [] => []
  | x :: r => (pretty i, f x) :: indexed f (S i) r
  end.

Fixpoint chars (s : string) : list string :=
  match s with
  | "" => []
  | String c r => String c "" :: chars r
  end.

(** The own enumerable properties a spread [...v] copies: those of an
    object, the elements of an array and the characters of a string under
    their indices, none for the other values. *)
Definition own_props (v : value) : props :=
  match v with
  | VObj _ ps => ps
  | VArr _ xs => indexed id 0%nat xs
  | VStr s => indexed VStr 0%nat (chars s)
  | _ => []
  end.

(** [v.k] for a [v] that is neither [null] nor [undefined].  The keys read
    by the store are names of settings, which no prototype defines. *)
Definition prop (v : value) (k : string) : value :=
  match v with
  | VObj _ ps => get_prop ps k
  | VArr _ xs =>
      if String.eqb k "length" then VNum (Int (Z.of_nat (List.length xs)))
      else get_prop (own_props v) k
  | VStr s =>
      if String.eqb k "length" then VNum (Int (Z.of_nat (String.length s)))
      else get_prop (own_props v) k
  | _ => VUndefined
  end.

Definition nullish (v : value) : bool :=
  match v with
  | VUndefined | VNull => true
  | _ => false
  end.

(** [v?.k]. *)
Definition opt_prop (v : value) (k : string) : value :=
  if nullish v then VUndefined else prop v k.

(** [v ?? d]. *)
Definition coalesce (v d : value) : value :=
  if nullish v then d else v.

(** [...(v ?? {})]: the empty object of the right-hand side is spread on
    the spot and never stored. *)
Definition spread_or_empty (v : value) : props :=
  if nullish v then [] else own_props v.

(** [Boolean(v)]. *)
Definition truthy (v : value) : bool :=
  match v with
  | VUndefined | VNull => false
  | VBool b => b
  | VNum n => num_truthy n
  | VStr s => str_truthy s
  | VArr _ _ | VObj _ _ => true
  end.

Definition Array_isArray (v : value) : bool :=
  match v with
  | VArr _ _ => true
  | _ => false
  end.

(** [typeof v === "number"]. *)
Definition typeof_number (v : value) : bool :=
  match v with
  | VNum _ => true
  | _ => false
  end.

(** *** Allocation

    A computation that allocates takes the next free address and returns
    the one after its last allocation; [None] is an exception. *)

Definition M (A : Type) : Type := addr → option A * addr.

Definition ret {A} (x : A) : M A := λ n, (Some x, n).

Definition throw {A} : M A := λ n, (None, n).

Definition bind {A B} (m : M A) (k : A → M B) : M B :=
  λ n, match m n with
       | (Some x, n') => k x n'
       | (None, n') => (None, n')
       end.

(** [try { m } catch { handler }]. *)
Definition try_catch {A} (m handler : M A) : M A :=
  λ n, match m n with
       | (Some x, n') => (Some x, n')
       | (None, n') => handler n'
       end.

Notation "'let*' x ':=' m 'in' k" := (bind m (λ x, k))
  (at level 10, x name, m at level 100, k at level 200, only parsing).

(** An object literal [{ ... }] whose properties are [ps]. *)
Definition new_object (ps : props) : M value := λ n, (Some (VObj n ps), S n).

(** *** JSON *)

(** Running an allocating function over a list, left to right. *)
Definition thread {A B} (f : A → addr → B * addr)
  : list A → addr → list B * addr :=
  fix go xs n :=
    match xs with
    | [] => ([], n)
    | x :: r =>
        let (y, n1) := f x n in
        let (ys, n2) := go r n1 in
        (y :: ys, n2)
    end.

(** The object graph [JSON.parse] builds for a text that denotes [j]: every
    object and array is new.  Of a repeated key the last value holds. *)
Fixpoint JSON_build (j : json) (n : addr) : value * addr :=
  match j with
  | JNull => (VNull, n)
  | JBool b => (VBool b, n)
  | JNum x => (VNum x, n)
  | JStr s => (VStr s, n)
  | JArr js =>
      let (vs, n') := thread JSON_build js (S n) in
      (VArr n vs, n')
  | JObj ms =>
      let (ps, n') :=
        thread (λ m k, let (v, k') := JSON_build (snd m) k in
                       ((fst m, v), k'))
          ms (S n) in
      (VObj n (assign [] ps), n')
  end.

(** [JSON.parse(text)], given what the text denotes: [parse text] is
    [None] for a text that is not JSON, where [JSON.parse] raises
    [SyntaxError]. *)
Definition JSON_parse (parse : string → option json) (text : string)
  : M value :=
  match parse text with
  | None => throw
  | Some j => λ n, let (v, n') := JSON_build j n in (Some v, n')
  end.

(** What [JSON.stringify(v)] writes, as data; [None] when it writes nothing
    and returns [undefined].  A number that is not finite is written
    [null], an [undefined] element of an array too, and an [undefined]
    property is left out. *)
Fixpoint JSON_data (v : value) : option json :=
  match v with
  | VUndefined => None
  | VNull => Some JNull
  | VBool b => Some (JBool b)
  | VNum n => Some (if Number_isFinite n then JNum n else JNull)
  | VStr s => Some (JStr s)
  | VArr _ xs =>
      Some (JArr (List.map (λ x, default JNull (JSON_data x)) xs))
  | VObj _ ps =>
      let fix members (ps : props) : list (string * json) :=
        match ps with
        | [] => []
        | (k, x) :: r =>
            match JSON_data x with
            | Some j => (k, j) :: members r
            | None => members r
            end
        end in
      Some (JObj (members ps))
  end.

(** [JSON.parse(JSON.stringify(value))]: the text written is read back at
    once, so what is parsed is the data written; with nothing written,
    [JSON.parse(undefined)] raises [SyntaxError]. *)
Definition deepClone (v : value) : M value :=
  match JSON_data v with
  | None => throw
  | Some j => λ n, let (v', n') := JSON_build j n in (Some v', n')
  end.

(** *** The default document as an object

    The literal [DEFAULT_SITE_SETTINGS] as data, key by key in the order it
    is written. *)

Definition json_of_fit (f : Fit) : json :=
  JStr match f with cover => "cover" | contain => "contain" end.

Definition json_of_mode (m : GalleryMode) : json :=
  JStr match m with numbered => "numbered" | custom => "custom" end.

Definition json_of_strings (l : list string) : json := JArr (List.map JStr l).

Definition json_of_promotion (p : Promotion.t) : json :=
  JObj [ ("id", JStr (Promotion.id p));
         ("title", JStr (Promotion.title p));
         ("description", JStr (Promotion.description p));
         ("badge", JStr (Promotion.badge p));
         ("ctaText", JStr (Promotion.ctaText p));
         ("imageUrl", JStr (Promotion.imageUrl p));
         ("validUntil", JStr (Promotion.validUntil p)) ].

Definition json_of_contact (c : Contact.t) : json :=
  JObj [ ("addressLines", json_of_strings (Contact.addressLines c));
         ("mapUrl", JStr (Contact.mapUrl c));
         ("phoneDisplay", JStr (Contact.phoneDisplay c));
         ("phoneTel", JStr (Contact.phoneTel c));
         ("whatsappDigits", JStr (Contact.whatsappDigits c));
         ("email", JStr (Contact.email c));
         ("hours", JStr (Contact.hours c)) ].

Definition json_of_socials (s : Socials.t) : json :=
  JObj [ ("instagramUrl", JStr (Socials.instagramUrl s));
         ("facebookUrl", JStr (Socials.facebookUrl s)) ].

Definition json_of_media (m : Media.t) : json :=
  JObj [ ("heroVideoUrl", JStr (Media.heroVideoUrl m));
         ("heroPosterUrl", JStr (Media.heroPosterUrl m));
         ("heroVideoFit", json_of_fit (Media.heroVideoFit m));
         ("heroVideoPosition", JStr (Media.heroVideoPosition m)) ].

Definition json_of_promotions (p : Promotions.t) : json :=
  JObj [ ("enabled", JBool (Promotions.enabled p));
         ("items", JArr (List.map json_of_promotion (Promotions.items p))) ].

Definition json_of_featuredNails (f : FeaturedNails.t) : json :=
  JObj [ ("enabled", JBool (FeaturedNails.enabled f));
         ("title", JStr (FeaturedNails.title f));
         ("imageUrls", json_of_strings (FeaturedNails.imageUrls f)) ].

Definition json_of_featuredVideo (f : FeaturedVideo.t) : json :=
  JObj [ ("enabled", JBool (FeaturedVideo.enabled f));
         ("url", JStr (FeaturedVideo.url f));
         ("posterUrl", JStr (FeaturedVideo.posterUrl f));
         ("title", JStr (FeaturedVideo.title f)) ].

Definition json_of_numbered (nb : Numbered.t) : json :=
  JObj [ ("folder", JStr (Numbered.folder nb));
         ("start", JNum (Numbered.start nb));
         ("end", JNum (Numbered.end_ nb));
         ("extension", JStr (Numbered.extension nb));
         ("order", JArr (List.map JNum (Numbered.order nb))) ].

Definition json_of_gallery (g : Gallery.t) : json :=
  JObj [ ("assetVersion", JNum (Gallery.assetVersion g));
         ("mode", json_of_mode (Gallery.mode g));
         ("initialCount", JNum (Gallery.initialCount g));
         ("pageSize", JNum (Gallery.pageSize g));
         ("tileFit", json_of_fit (Gallery.tileFit g));
         ("featuredNails", json_of_featuredNails (Gallery.featuredNails g));
         ("featuredVideo", json_of_featuredVideo (Gallery.featuredVideo g));
         ("numbered", json_of_numbered (Gallery.numbered g));
         ("customImages", json_of_strings (Gallery.customImages g)) ].

Definition json_of_settings (s : SiteSettings) : json :=
  JObj [ ("contact", json_of_contact (contact s));
         ("socials", json_of_socials (socials s));
         ("media", json_of_media (media s));
         ("promotions", json_of_promotions (promotions s));
         ("gallery", json_of_gallery (gallery s)) ].

(** The object the module keeps in [DEFAULT_SITE_SETTINGS]: evaluating the
    literal when the module is loaded allocates its objects and arrays, as
    the first of the program. *)
Definition DEFAULTS : value :=
  Eval vm_compute in fst (JSON_build (json_of_settings DEFAULT_SITE_SETTINGS) 0%nat).

(** The first address free once the defaults are allocated. *)
Definition first_free : addr :=
  Eval vm_compute in snd (JSON_build (json_of_settings DEFAULT_SITE_SETTINGS) 0%nat).

(** *** Merging a partial document onto the defaults *)

(** The properties of an object literal: its spreads and its named
    properties, in the order they are written, later ones overriding. *)
Definition literal (parts : list props) : props := fold_left assign parts [].

Definition mergeSettings (partial : value) : M value :=
  let D := DEFAULTS in
  if negb (truthy partial) then deepClone D else
  let s := partial in
  let* contact :=
    new_object (literal
      [ own_props (prop D "contact");
        spread_or_empty (prop s "contact") ]) in
  let* socials :=
    new_object (literal
      [ own_props (prop D "socials");
        spread_or_empty (prop s "socials") ]) in
  let* media :=
    new_object (literal
      [ own_props (prop D "media");
        spread_or_empty (prop s "media") ]) in
  let* promotions :=
    new_object (literal
      [ own_props (prop D "promotions");
        spread_or_empty (prop s "promotions");
        [ ("items",
           if Array_isArray (opt_prop (prop s "promotions") "items")
           then prop (prop s "promotions") "items"
           else prop (prop D "promotions") "items") ] ]) in
  let* featuredNails :=
    new_object (literal
      [ own_props (prop (prop D "gallery") "featuredNails");
        spread_or_empty (opt_prop (prop s "gallery") "featuredNails");
        [ ("imageUrls",
           if Array_isArray
                (opt_prop (opt_prop (prop s "gallery") "featuredNails")
                   "imageUrls")
           then prop (prop (prop s "gallery") "featuredNails") "imageUrls"
           else prop (prop (prop D "gallery") "featuredNails") "imageUrls") ] ])
  in
  let* featuredVideo :=
    new_object (literal
      [ own_props (prop (prop D "gallery") "featuredVideo");
        spread_or_empty (opt_prop (prop s "gallery") "featuredVideo") ]) in
  let* numbered :=
    new_object (literal
      [ own_props (prop (prop D "gallery") "numbered");
        spread_or_empty (opt_prop (prop s "gallery") "numbered");
        [ ("order",
           if Array_isArray
                (opt_prop (opt_prop (prop s "gallery") "numbered") "order")
           then prop (prop (prop s "gallery") "numbered") "order"
           else prop (prop (prop D "gallery") "numbered") "order") ] ]) in
  let* gallery :=
    new_object (literal
      [ own_props (prop D "gallery");
        spread_or_empty (prop s "gallery");
        [ ("assetVersion",
           if typeof_number (opt_prop (prop s "gallery") "assetVersion")
           then prop (prop s "gallery") "assetVersion"
           else prop (prop D "gallery") "assetVersion");
          ("tileFit",
           coalesce (opt_prop (prop s "gallery") "tileFit")
             (prop (prop D "gallery") "tileFit"));
          ("featuredNails", featuredNails);
          ("featuredVideo", featuredVideo);
          ("numbered", numbered);
          ("customImages",
           if Array_isArray (opt_prop (prop s "gallery") "customImages")
           then prop (prop s "gallery") "customImages"
           else prop (prop D "gallery") "customImages") ] ]) in
  new_object
    [ ("contact", contact);
      ("socials", socials);
      ("media", media);
      ("promotions", promotions);
      ("gallery", gallery) ].

(** *** The local cache *)

Definition STORAGE_KEY : string := "berly_site_settings_v1".

(** [localStorage] is a map from keys to texts; [getItem] is its lookup,
    with [null] for a key that is not there.  [parse] tells what a text
    denotes as JSON. *)
Definition loadFromLocalStorage (parse : string → option json)
    (localStorage : gmap string string) : M value :=
  match localStorage !! STORAGE_KEY with
  | None => deepClone DEFAULTS
  | Some raw =>
      if negb (str_truthy raw) then deepClone DEFAULTS
      else
        try_catch
          (let* parsed := JSON_parse parse raw in mergeSettings parsed)
          (deepClone DEFAULTS)
  end.

(** *** Identity and mutation *)

(** The addresses of the objects and arrays reachable from a value. *)
Fixpoint addrs (v : value) : list addr :=
  match v with
  | VArr a xs => a :: flat_map addrs xs
  | VObj a ps => a :: flat_map (λ kv, addrs (snd kv)) ps
  | _ => []
  end.

(** The addresses of the objects and arrays the properties [ps] hold. *)
Abbreviation addrs_of_props ps :=
  (flat_map (λ kv : string * value, addrs (snd kv)) ps).

(** A write to the object at address [a], as seen through [v]: the
    properties of the object become [fo] of what they were, the elements
    of the array [fa] of what they were.  Assignment and deletion of a
    property, [push], [splice] and [sort] are all of this form. *)
Fixpoint update (a : addr) (fo : props → props)
    (fa : list value → list value) (v : value) : value :=
  match v with
  | VArr b xs =>
      if Nat.eqb a b then VArr b (fa xs)
      else VArr b (List.map (update a fo fa) xs)
  | VObj b ps =>
      if Nat.eqb a b then VObj b (fo ps)
      else VObj b (List.map (λ kv, (fst kv, update a fo fa (snd kv))) ps)
  | _ => v
  end.

(** [covers d v]: every property the document [d] has, at any depth, the
    value [v] has as well. *)
Fixpoint covers (d : json) (v : value) : bool :=
  match d with
  | JObj ms =>
      match v with
      | VObj _ ps =>
          forallb (λ kd, has_prop ps (fst kd) && covers (snd kd) (get_prop ps (fst kd))) ms
      | _ => false
      end
  | _ => true
  end.

(** ** The specification's words

    Definitions that follow the text of the specification, to compare the
    code with. *)

(** A list without its repetitions, each member at its first occurrence:
    the head stays, and it is struck from what follows. *)
Fixpoint keep_first_upto {A} `{EqDecision A} (fuel : nat) (xs : list A)
  : list A :=
  match fuel, xs with
  | S fuel', x :: r =>
      x :: keep_first_upto fuel'
             (List.filter (λ y, negb (bool_decide (y = x))) r)
  | _, _ => []
  end.

Definition keep_first {A} `{EqDecision A} (xs : list A) : list A :=
  keep_first_upto (List.length xs) xs.

(** A finite integer within [[s, e]], as an integer. *)
Definition integer_within (s e : Z) (n : number) : option Z :=
  match n with
  | Rounded (Int z) => if (s <=? z)%Z && (z <=? e)%Z then Some z else None
  | _ => None
  end.

(** The display order the specification gives for a manual order: the
    order list filtered to the finite integers of the range, first
    occurrences only, then the numbers of the range not yet listed,
    ascending. *)
Definition specified_order (s e : Z) (order : list number) : list Z :=
  let base := keep_first (omap (integer_within s e) order) in
  (base
   ++ List.filter (λ z, negb (bool_decide (z ∈ base)))
        (seqZ s (e - s + 1)))%list.

(** The order list with every entry rounded down. *)
Definition rounded_down (order : list number) : list number :=
  (λ n, Rounded (Math_floor n)) <$> order.

(** A number without a fractional part. *)
Definition is_rounded (n : number) : bool :=
  match n with
  | Rounded _ => true
  | Frac _ _ => false
  end.

(** The entry the specification gives for image [n]:
    ["{folder}/{n}.{extension}?v={assetVersion}"], with the fields of the
    settings as they are stored. *)
Definition specified_url (settings : SiteSettings) (n : Z) : string :=
  let nb := Gallery.numbered (gallery settings) in
  Numbered.folder nb +:+ "/" +:+ pretty n +:+ "." +:+ Numbered.extension nb
    +:+ "?v=" +:+ Number_toString (Gallery.assetVersion (gallery settings)).

(** The extension that ends up in a file name: the configured one without
    its leading dot, ["jpeg"] when none is configured. *)
Definition effective_extension (extension : string) : string :=
  match extension with
  | "" => "jpeg"
  | String c r => if Ascii.eqb c "." then r else extension
  end.

(** Settings that differ from the defaults in the numbered gallery only:
    images 1 to 3 of [/gallery], at asset version 1. *)
Definition three_images (extension : string) (order : list number)
  : SiteSettings := {|
  contact := contact DEFAULT_SITE_SETTINGS;
  socials := socials DEFAULT_SITE_SETTINGS;
  media := media DEFAULT_SITE_SETTINGS;
  promotions := promotions DEFAULT_SITE_SETTINGS;
  gallery := {|
    Gallery.assetVersion := Int 1;
    Gallery.mode := numbered;
    Gallery.initialCount := Int 11;
    Gallery.pageSize := Int 12;
    Gallery.tileFit := cover;
    Gallery.featuredNails :=
      Gallery.featuredNails (gallery DEFAULT_SITE_SETTINGS);
    Gallery.featuredVideo :=
      Gallery.featuredVideo (gallery DEFAULT_SITE_SETTINGS);
    Gallery.numbered := {|
      Numbered.folder := "/gallery";
      Numbered.start := Int 1;
      Numbered.end_ := Int 3;
      Numbered.extension := extension;
      Numbered.order := order;
    |};
    Gallery.customImages := [];
  |};
|}.

(** A promotion that never expires; the default settings with thirteen
    such promotions stored, and with the promotions switched off and that
    one promotion stored. *)
Definition open_ended_special : Promotion.t := {|
  Promotion.id := "1";
  Promotion.title := "Spring";
  Promotion.description := "";
  Promotion.badge := "";
  Promotion.ctaText := "";
  Promotion.imageUrl := "";
  Promotion.validUntil := "";
|}.

Definition thirteen_specials : SiteSettings := {|
  contact := contact DEFAULT_SITE_SETTINGS;
  socials := socials DEFAULT_SITE_SETTINGS;
  media := media DEFAULT_SITE_SETTINGS;
  promotions := {|
    Promotions.enabled := true;
    Promotions.items := replicate 13 open_ended_special;
  |};
  gallery := gallery DEFAULT_SITE_SETTINGS;
|}.

Definition specials_switched_off : SiteSettings := {|
  contact := contact DEFAULT_SITE_SETTINGS;
  socials := socials DEFAULT_SITE_SETTINGS;
  media := media DEFAULT_SITE_SETTINGS;
  promotions := {|
    Promotions.enabled := false;
    Promotions.items := [open_ended_special];
  |};
  gallery := gallery DEFAULT_SITE_SETTINGS;
|}.

(** The steps of [normalizeFeaturedUrl], named to reason about them one
    at a time ([normalizeFeaturedUrl_steps] below). *)

(** The shorthand of a number. *)
Definition step_shorthand (folder ext url : string) : string :=
  if test_digits_only url then folder +:+ "/" +:+ url +:+ "." +:+ ext
  else url.

(** The internal path of what is no absolute URL. *)
Definition step_path (ext url : string) : string :=
  if negb (test_http_url url) then
    let url := if startsWith url "gallery/" then "/" +:+ url else url in
    let url :=
      if negb (startsWith url "/") then
        if negb (includes url "/") then "/gallery/" +:+ url
        else "/" +:+ url
      else url in
    let pathOnly := split_head url "?" in
    let last := str_or (split_last pathOnly "/") "" in
    if str_truthy last && negb (includes last ".") then
      pathOnly +:+ "." +:+ ext
        +:+ (if includes url "?" then slice_from url (indexOf url "?")
             else "")
    else url
  else url.

(** The version of an internal path. *)
Definition step_version (folder v url : string) : string :=
  if startsWith url "/gallery/" || startsWith url (folder +:+ "/") then
    if test_version url then replace_version url v
    else url +:+ (if includes url "?" then "&v=" +:+ v else "?v=" +:+ v)
  else url.

(** The first character of [s] is a digit. *)
Definition starts_with_digit (s : string) : bool :=
  match s with
  | "" => false
  | String c _ => is_digit c
  end.

(** A plain file name: no slash, no question mark, no ampersand. *)
Definition plain_name (s : string) : bool :=
  negb (includes s "/") && negb (includes s "?") && negb (includes s "&").

(** The last segment of the path of [url] is empty or has a dot, so that
    no extension is appended to it. *)
Definition has_extension (url : string) : bool :=
  let last := split_last (split_head url "?") "/" in
  negb (str_truthy last) || includes last ".".

(** The default settings with another asset version. *)
Definition at_version (v : number) : SiteSettings := {|
  contact := contact DEFAULT_SITE_SETTINGS;
  socials := socials DEFAULT_SITE_SETTINGS;
  media := media DEFAULT_SITE_SETTINGS;
  promotions := promotions DEFAULT_SITE_SETTINGS;
  gallery := {|
    Gallery.assetVersion := v;
    Gallery.mode := numbered;
    Gallery.initialCount := Int 11;
    Gallery.pageSize := Int 12;
    Gallery.tileFit := cover;
    Gallery.featuredNails :=
      Gallery.featuredNails (gallery DEFAULT_SITE_SETTINGS);
    Gallery.featuredVideo :=
      Gallery.featuredVideo (gallery DEFAULT_SITE_SETTINGS);
    Gallery.numbered := Gallery.numbered (gallery DEFAULT_SITE_SETTINGS);
    Gallery.customImages := [];
  |};
|}.

(** The longest run of digits at the start of [s]. *)
Fixpoint take_digits (s : string) : string :=
  match s with
  | "" => ""
  | String c r => if is_digit c then String c (take_digits r) else ""
  end.

(** The default settings in custom mode, with three stored images of which
    the second is empty. *)
Definition custom_images : SiteSettings := {|
  contact := contact DEFAULT_SITE_SETTINGS;
  socials := socials DEFAULT_SITE_SETTINGS;
  media := media DEFAULT_SITE_SETTINGS;
  promotions := promotions DEFAULT_SITE_SETTINGS;
  gallery := {|
    Gallery.assetVersion := Int 4;
    Gallery.mode := custom;
    Gallery.initialCount := Int 11;
    Gallery.pageSize := Int 12;
    Gallery.tileFit := cover;
    Gallery.featuredNails :=
      Gallery.featuredNails (gallery DEFAULT_SITE_SETTINGS);
    Gallery.featuredVideo :=
      Gallery.featuredVideo (gallery DEFAULT_SITE_SETTINGS);
    Gallery.numbered := Gallery.numbered (gallery DEFAULT_SITE_SETTINGS);
    Gallery.customImages :=
      [ "https://cdn.x.com/b.png"; ""; "/gallery/a.jpeg" ];
  |};
|}.

(** The settings [settings] with another e-mail address. *)
Definition with_email (email : string) (settings : SiteSettings)
  : SiteSettings := {|
  contact := {|
    Contact.addressLines := Contact.addressLines (contact settings);
    Contact.mapUrl := Contact.mapUrl (contact settings);
    Contact.phoneDisplay := Contact.phoneDisplay (contact settings);
    Contact.phoneTel := Contact.phoneTel (contact settings);
    Contact.whatsappDigits := Contact.whatsappDigits (contact settings);
    Contact.email := email;
    Contact.hours := Contact.hours (contact settings);
  |};
  socials := socials settings;
  media := media settings;
  promotions := promotions settings;
  gallery := gallery settings;
|}.

(** The sections of the settings document. *)
Definition sections : list string :=
  [ "contact"; "socials"; "media"; "promotions"; "gallery" ].


(** What three texts denote as JSON, and no other text: a reading of JSON
    good for examples. *)
Definition parse_sample (text : string) : option json :=
  if String.eqb text "{}" then Some (JObj [])
  else if String.eqb text "null" then Some JNull
  else if String.eqb text "[]" then Some (JArr [])
  else None.

(** The quotation mark. *)
Definition quote : string := String (ascii_of_nat 34) "".

(** The text of a document that has a contact without e-mail address: an
    object whose [contact] is an object whose [email] is [null]. *)
Definition null_email_text : string :=
  "{" +:+ quote +:+ "contact" +:+ quote +:+ ":{"
      +:+ quote +:+ "email" +:+ quote +:+ ":null}}".

Definition null_email : json :=
  JObj [("contact", JObj [("email", JNull)])].

(** A reading of JSON good for examples that reads that text as well. *)
Definition parse_null_email (text : string) : option json :=
  if String.eqb text null_email_text then Some null_email
  else parse_sample text.

(** * Further code

    The functions around those above: the rest of the gallery component,
    the handlers of the settings panel, the forms and the guards of the
    administrator's session. *)

(** ** Building a new document out of an old one

    No handler writes to the settings it holds; each builds a new document
    with spreads, [{ ...p, gallery: { ...p.gallery, mode: m } }].  On the
    typed document a spread followed by one property is the record with
    that field replaced. *)

Definition with_promotions (ps : Promotions.t) (p : SiteSettings)
  : SiteSettings := {|
  contact := contact p;
  socials := socials p;
  media := media p;
  promotions := ps;
  gallery := gallery p;
|}.

Definition with_gallery (g : Gallery.t) (p : SiteSettings) : SiteSettings := {|
  contact := contact p;
  socials := socials p;
  media := media p;
  promotions := promotions p;
  gallery := g;
|}.

Definition with_items (items : list Promotion.t) (ps : Promotions.t)
  : Promotions.t := {|
  Promotions.enabled := Promotions.enabled ps;
  Promotions.items := items;
|}.

Definition with_assetVersion (v : number) (g : Gallery.t) : Gallery.t := {|
  Gallery.assetVersion := v;
  Gallery.mode := Gallery.mode g;
  Gallery.initialCount := Gallery.initialCount g;
  Gallery.pageSize := Gallery.pageSize g;
  Gallery.tileFit := Gallery.tileFit g;
  Gallery.featuredNails := Gallery.featuredNails g;
  Gallery.featuredVideo := Gallery.featuredVideo g;
  Gallery.numbered := Gallery.numbered g;
  Gallery.customImages := Gallery.customImages g;
|}.

Definition with_mode (m : GalleryMode) (g : Gallery.t) : Gallery.t := {|
  Gallery.assetVersion := Gallery.assetVersion g;
  Gallery.mode := m;
  Gallery.initialCount := Gallery.initialCount g;
  Gallery.pageSize := Gallery.pageSize g;
  Gallery.tileFit := Gallery.tileFit g;
  Gallery.featuredNails := Gallery.featuredNails g;
  Gallery.featuredVideo := Gallery.featuredVideo g;
  Gallery.numbered := Gallery.numbered g;
  Gallery.customImages := Gallery.customImages g;
|}.

Definition with_numbered (nb : Numbered.t) (g : Gallery.t) : Gallery.t := {|
  Gallery.assetVersion := Gallery.assetVersion g;
  Gallery.mode := Gallery.mode g;
  Gallery.initialCount := Gallery.initialCount g;
  Gallery.pageSize := Gallery.pageSize g;
  Gallery.tileFit := Gallery.tileFit g;
  Gallery.featuredNails := Gallery.featuredNails g;
  Gallery.featuredVideo := Gallery.featuredVideo g;
  Gallery.numbered := nb;
  Gallery.customImages := Gallery.customImages g;
|}.

Definition with_customImages (images : list string) (g : Gallery.t)
  : Gallery.t := {|
  Gallery.assetVersion := Gallery.assetVersion g;
  Gallery.mode := Gallery.mode g;
  Gallery.initialCount := Gallery.initialCount g;
  Gallery.pageSize := Gallery.pageSize g;
  Gallery.tileFit := Gallery.tileFit g;
  Gallery.featuredNails := Gallery.featuredNails g;
  Gallery.featuredVideo := Gallery.featuredVideo g;
  Gallery.numbered := Gallery.numbered g;
  Gallery.customImages := images;
|}.

Definition with_start (n : number) (nb : Numbered.t) : Numbered.t := {|
  Numbered.folder := Numbered.folder nb;
  Numbered.start := n;
  Numbered.end_ := Numbered.end_ nb;
  Numbered.extension := Numbered.extension nb;
  Numbered.order := Numbered.order nb;
|}.

Definition with_end (n : number) (nb : Numbered.t) : Numbered.t := {|
  Numbered.folder := Numbered.folder nb;
  Numbered.start := Numbered.start nb;
  Numbered.end_ := n;
  Numbered.extension := Numbered.extension nb;
  Numbered.order := Numbered.order nb;
|}.

Definition with_order (order : list number) (nb : Numbered.t) : Numbered.t := {|
  Numbered.folder := Numbered.folder nb;
  Numbered.start := Numbered.start nb;
  Numbered.end_ := Numbered.end_ nb;
  Numbered.extension := Numbered.extension nb;
  Numbered.order := order;
|}.

(** ** Statements about the numbered range *)

(** The first number of the range for a [start] that is not [+Infinity]:
    [start] rounded down, and 1 when that is below 1 or no number. *)
Definition clamped_start (start : number) : Z :=
  match Math_floor start with
  | Int s => Z.max 1 s
  | _ => 1
  end.

(** The last number of the range that starts at [s], for an [end] that is
    not [+Infinity]: [end] rounded down, and [s] when that is below [s] or
    no number. *)
Definition clamped_end (s : Z) (end_ : number) : Z :=
  match Math_floor end_ with
  | Int e => Z.max s e
  | _ => s
  end.

(** The settings with the bounds of the numbered range replaced. *)
Definition with_bounds (start end_ : number) (settings : SiteSettings)
  : SiteSettings :=
  with_gallery
    (with_numbered
       (with_end end_ (with_start start (Gallery.numbered (gallery settings))))
       (gallery settings))
    settings.

(** The settings at another asset version. *)
Definition with_version (v : number) (settings : SiteSettings) : SiteSettings :=
  with_gallery (with_assetVersion v (gallery settings)) settings.

Local Open Scope Z_scope.

(** ** Arrays by position

    A position is an integer: what the panel passes is the position of a
    tile in a [map], or the outcome of [findIndex]. *)

(** [xs.findIndex(f)]: the first position where [f] holds, [-1] when
    there is none. *)
Fixpoint Array_findIndex {A} (f : A → bool) (xs : list A) : Z :=
  match xs with
  | [] => -1
  | x :: r =>
      if f x then 0
      else let i := Array_findIndex f r in if i <? 0 then -1 else i + 1
  end.

(** [xs.filter((x, i) => f(x, i))], the positions counted from [i]. *)
Fixpoint Array_filter_from {A} (f : A → Z → bool) (i : Z) (xs : list A)
  : list A :=
  match xs with
  | [] => []
  | x :: r =>
      if f x i then x :: Array_filter_from f (i + 1) r
      else Array_filter_from f (i + 1) r
  end.

(** [xs.splice(start, deleteCount, ...items)]: what is removed, and the
    array afterwards.  A negative [start] counts from the end, and both
    arguments are brought within the array. *)
Definition Array_splice {A} (xs : list A) (start deleteCount : Z)
    (items : list A) : list A * list A :=
  let len := Z.of_nat (List.length xs) in
  let actualStart :=
    if start <? 0 then Z.max (len + start) 0 else Z.min start len in
  let actualDeleteCount := Z.min (Z.max deleteCount 0) (len - actualStart) in
  (take (Z.to_nat actualDeleteCount) (drop (Z.to_nat actualStart) xs),
   (take (Z.to_nat actualStart) xs ++ items
    ++ drop (Z.to_nat (actualStart + actualDeleteCount)) xs)%list).

(** The two statements [const [item] = list.splice(fromIndex, 1);
    list.splice(toIndex, 0, item);].  Both handlers that hold them test
    first that [fromIndex] is a position of the list, so that [splice]
    removes one element; the branch of nothing removed is never taken. *)
Definition Array_move {A} (fromIndex toIndex : Z) (xs : list A) : list A :=
  let (removed, xs1) := Array_splice xs fromIndex 1 [] in
  match removed with
  | item :: _ => snd (Array_splice xs1 toIndex 0 [item])
  | [] => xs1
  end.

(** ** The order of the numbered images in the panel
    ([numberedRange], [effectiveNumberOrder], [getEffectiveNumberOrder],
    [setManualNumberedOrderFromText], [moveNumberedOrderTo]) *)

(** [numberedRange]: the range, by the three expressions of
    [buildGalleryImageList]. *)
Definition numberedRange (draft : SiteSettings) : option (list rounded) :=
  range (Gallery.numbered (gallery draft)).

(** [effectiveNumberOrder], the order the panel shows.  The bounds are read
    off the range, [numberedRange[0] ?? 1] and
    [numberedRange[numberedRange.length - 1] ?? safeStart]; the order is of
    type [number[]], an array. *)
Definition effectiveNumberOrder (draft : SiteSettings)
  : option (list rounded) :=
  match numberedRange draft with
  | None => None
  | Some numberedRange =>
      let safeStart := default (Int 1) (head numberedRange) in
      let safeEnd := default safeStart (last numberedRange) in
      let manual := Numbered.order (Gallery.numbered (gallery draft)) in
      let baseOrdered :=
        if 0 <? Z.of_nat (List.length manual) then
          Set_from
            (List.filter
               (λ n : rounded,
                  Number_isFinite n && num_geb n safeStart
                  && num_leb n safeEnd)
               (List.map (λ n, Math_floor (Number n)) manual))
        else [] in
      let baseSet := baseOrdered in
      Some (if 0 <? Z.of_nat (List.length manual)
            then (baseOrdered
                  ++ List.filter (λ n, negb (Set_has baseSet n)) numberedRange)%list
            else numberedRange)
  end.

(** [getEffectiveNumberOrder], the same order for the handlers, computed
    from the settings they update. *)
Definition getEffectiveNumberOrder (p : SiteSettings)
  : option (list rounded) :=
  let nb := Gallery.numbered (gallery p) in
  match range nb with
  | None => None
  | Some range =>
      let manual := Numbered.order nb in
      if Z.of_nat (List.length manual) =? 0 then Some range
      else
        let baseOrdered :=
          Set_from
            (List.filter
               (λ n : rounded,
                  Number_isFinite n && num_geb n (safeStart nb)
                  && num_leb n (safeEnd nb))
               (List.map (λ n, Math_floor (Number n)) manual)) in
        let baseSet := baseOrdered in
        Some (baseOrdered
              ++ List.filter (λ n, negb (Set_has baseSet n)) range)%list
  end.

(** The settings with another manual order. *)
Definition with_manual_order (order : list number) (p : SiteSettings)
  : SiteSettings :=
  with_gallery
    (with_numbered (with_order order (Gallery.numbered (gallery p)))
       (gallery p))
    p.

(** [[\s,]]. *)
Definition is_separator (c : ascii) : bool :=
  is_whitespace c || Ascii.eqb c ",".

(** [text.split(/[\s,]+/)]: the text is cut at every run of separators, a
    run at either end leaving an empty piece there.  [in_run] tells that
    the character before was a separator. *)
Fixpoint split_separators_from (in_run : bool) (s : string) : list string :=
  match s with
  | "" => [""]
  | String c r =>
      if is_separator c then
        if in_run then split_separators_from true r
        else "" :: split_separators_from true r
      else
        match split_separators_from false r with
        | piece :: pieces => String c piece :: pieces
        | [] => [String c ""]
        end
  end.

Definition split_separators (s : string) : list string :=
  split_separators_from false s.

(** [setManualNumberedOrderFromText].  [to_number x] is [Number(x)], the
    number the engine reads in a text.  The bounds are those of the range
    of the draft on display, which is the draft the update applies to. *)
Definition setManualNumberedOrderFromText (to_number : string → number)
    (text : string) (draft : SiteSettings) : option SiteSettings :=
  match numberedRange draft with
  | None => None
  | Some numberedRange =>
      let safeStart := default (Int 1) (head numberedRange) in
      let safeEnd := default safeStart (last numberedRange) in
      let nums :=
        List.filter
          (λ n : rounded,
             Number_isFinite n && num_geb n safeStart && num_leb n safeEnd)
          (List.map (λ x, Math_floor (to_number x)) (split_separators text)) in
      let unique := Set_from nums in
      Some (with_manual_order (Rounded <$> unique) draft)
  end.

(** [moveNumberedOrderTo]: [None] when [getEffectiveNumberOrder] raises. *)
Definition moveNumberedOrderTo (fromIndex toIndex : Z) (p : SiteSettings)
  : option SiteSettings :=
  match getEffectiveNumberOrder p with
  | None => None
  | Some current =>
      let length := Z.of_nat (List.length current) in
      if (fromIndex <? 0) || (length <=? fromIndex) then Some p
      else if (toIndex <? 0) || (length <=? toIndex) then Some p
      else if fromIndex =? toIndex then Some p
      else
        Some (with_manual_order
                (Rounded <$> Array_move fromIndex toIndex current) p)
  end.

(** ** Custom images in the panel ([normalizeUrlInput],
    [addCustomImageUrl], [removeCustomImageAt], [moveCustomImageTo]) *)

Definition normalizeUrlInput (url : string) : string := trim url.

(** [addCustomImageUrl]: the draft and the text of the input field, before
    and after. *)
Definition addCustomImageUrl (prev : SiteSettings) (newImageUrl : string)
  : SiteSettings * string :=
  let url := normalizeUrlInput newImageUrl in
  if negb (str_truthy url) then (prev, newImageUrl)
  else
    (with_gallery
       (with_customImages (url :: Gallery.customImages (gallery prev))
          (with_mode custom (gallery prev)))
       prev,
     "").

Definition removeCustomImageAt (index : Z) (prev : SiteSettings)
  : SiteSettings :=
  with_gallery
    (with_customImages
       (Array_filter_from (λ _ i, negb (i =? index)) 0
          (Gallery.customImages (gallery prev)))
       (gallery prev))
    prev.

Definition moveCustomImageTo (fromIndex toIndex : Z) (prev : SiteSettings)
  : SiteSettings :=
  let list := Gallery.customImages (gallery prev) in
  let length := Z.of_nat (List.length list) in
  if (fromIndex <? 0) || (length <=? fromIndex) then prev
  else if (toIndex <? 0) || (length <=? toIndex) then prev
  else if fromIndex =? toIndex then prev
  else
    with_gallery
      (with_customImages (Array_move fromIndex toIndex list) (gallery prev))
      prev.

(** ** Promotions in the panel ([addPromotion], [removePromotion],
    [movePromotion]) *)

(** The promotion [addPromotion] makes, [id] being what [createPromoId]
    made of the clock and of a random number. *)
Definition new_promotion (id : string) : Promotion.t := {|
  Promotion.id := id;
  Promotion.title := "New Special";
  Promotion.description := "";
  Promotion.badge := "Special";
  Promotion.ctaText := "Book on WhatsApp";
  Promotion.imageUrl := "";
  Promotion.validUntil := "";
|}.

Definition addPromotion (id : string) (p : SiteSettings) : SiteSettings :=
  with_promotions
    (with_items (new_promotion id :: Promotions.items (promotions p))
       (promotions p))
    p.

Definition removePromotion (id : string) (p : SiteSettings) : SiteSettings :=
  with_promotions
    (with_items
       (List.filter (λ x, negb (String.eqb (Promotion.id x) id))
          (Promotions.items (promotions p)))
       (promotions p))
    p.

(** The type [-1 | 1] of a direction. *)
Inductive Direction : Type := Up | Down.

Definition direction_value (d : Direction) : Z :=
  match d with
  | Up => -1
  | Down => 1
  end.

(** [movePromotion].  Past the test both positions are within the list,
    and the two assignments exchange their elements. *)
Definition movePromotion (id : string) (direction : Direction)
    (p : SiteSettings) : SiteSettings :=
  let list := Promotions.items (promotions p) in
  let idx := Array_findIndex (λ x, String.eqb (Promotion.id x) id) list in
  let next := idx + direction_value direction in
  if (idx <? 0) || (next <? 0) || (Z.of_nat (List.length list) <=? next)
  then p
  else
    match list !! Z.to_nat idx, list !! Z.to_nat next with
    | Some temp, Some other =>
        with_promotions
          (with_items
             (<[Z.to_nat next := temp]> (<[Z.to_nat idx := other]> list))
             (promotions p))
          p
    | _, _ => p
    end.

(** A reading of numbers good for examples: the numerals 1, 2, 3 and 9,
    zero for the empty text, and no number for any other text. *)
Definition read_sample (x : string) : number :=
  if String.eqb x "" then Int 0
  else if String.eqb x "1" then Int 1
  else if String.eqb x "2" then Int 2
  else if String.eqb x "3" then Int 3
  else if String.eqb x "9" then Int 9
  else NaN.

(** The other direction. *)
Definition opposite (d : Direction) : Direction :=
  match d with
  | Up => Down
  | Down => Up
  end.

(** Two promotions and the default settings with both stored. *)
Definition special (id title : string) : Promotion.t := {|
  Promotion.id := id;
  Promotion.title := title;
  Promotion.description := "";
  Promotion.badge := "";
  Promotion.ctaText := "";
  Promotion.imageUrl := "";
  Promotion.validUntil := "";
|}.

Definition two_specials : SiteSettings :=
  with_promotions
    (with_items [special "a" "Braids"; special "b" "Nails"]
       (promotions DEFAULT_SITE_SETTINGS))
    DEFAULT_SITE_SETTINGS.

(** ** The gallery of the public page ([Gallery]) *)

Definition Math_min (a b : rounded) : rounded :=
  match a, b with
  | NaN, _ | _, NaN => NaN
  | NegInf, _ | _, NegInf => NegInf
  | PosInf, x | x, PosInf => x
  | Int x, Int y => Int (Z.min x y)
  end.

(** [a < b]; every comparison with [NaN] is false. *)
Definition num_ltb (a b : rounded) : bool :=
  match a, b with
  | NaN, _ | _, NaN => false
  | PosInf, _ | _, NegInf => false
  | NegInf, _ | _, PosInf => true
  | Int x, Int y => x <? y
  end.

(** [a > b]. *)
Definition num_gtb (a b : rounded) : bool := num_ltb b a.

(** [ToIntegerOrInfinity(n)], as [slice] reads a position: [NaN] is 0 and
    a fraction is cut off. *)
Definition to_integer (n : number) : rounded :=
  match n with
  | Rounded NaN => Int 0
  | Rounded r => r
  | Frac below _ => Int (if below <? 0 then below + 1 else below)
  end.

(** [xs.slice(0, end)]: a negative [end] counts from the end of the
    array. *)
Definition Array_slice_to {A} (xs : list A) (end_ : number) : list A :=
  let len := Z.of_nat (List.length xs) in
  let final :=
    match to_integer end_ with
    | NaN | NegInf => 0
    | PosInf => len
    | Int k => if k <? 0 then Z.max (len + k) 0 else Z.min k len
    end in
  take (Z.to_nat final) xs.

(** [images]: the first [visibleCount] images of the gallery
    ([rawVisible]) without those that failed to load. *)
Definition Gallery_images (allImages : list string) (visibleCount : number)
    (failed : list string) : list string :=
  let rawVisible := Array_slice_to allImages visibleCount in
  let failedSet := Set_from failed in
  List.filter (λ src, negb (Set_has failedSet src)) rawVisible.

(** The button under the gallery: none unless there are more images than
    [initialCount], then "Load More" while some are not visible, and
    "Show Less" after.  The counts are rounded numbers, as the panel
    stores them. *)
Inductive GalleryButton : Type := LoadMore | ShowLess.

Definition Gallery_button (totalImages : Z) (initialCount visibleCount : rounded)
  : option GalleryButton :=
  if num_gtb (Int totalImages) initialCount then
    if num_ltb visibleCount (Int totalImages) then Some LoadMore
    else Some ShowLess
  else None.

(** [visibleCount] after a click on the button there is: "Load More" sets
    [Math.min(totalImages, v + pageSize)], "Show Less" sets
    [initialCount]. *)
Definition Gallery_click (totalImages : Z) (initialCount pageSize : rounded)
    (visibleCount : rounded) : rounded :=
  match Gallery_button totalImages initialCount visibleCount with
  | Some LoadMore => Math_min (Int totalImages) (num_add visibleCount pageSize)
  | Some ShowLess => initialCount
  | None => visibleCount
  end.

(** [nailsImages]: the featured images without those that failed to
    load. *)
Definition nailsImages (settings : SiteSettings) (nailsFailed : list string)
  : list string :=
  let failedSet := Set_from nailsFailed in
  List.filter (λ src, negb (Set_has failedSet src)) (nailsAll settings).

(** The image the lightbox shows is [lightboxItems[lightboxIndex]]; [next]
    and [prev] move the index, an integer: the position of the tile that
    was opened, then what they made of it.  On integers [%] is the
    remainder of the division that rounds towards zero. *)
Definition lightbox_next (lightboxItems : list string) (i : Z) : Z :=
  let length := Z.of_nat (List.length lightboxItems) in
  if length =? 0 then 0 else Z.rem (i + 1) length.

Definition lightbox_prev (lightboxItems : list string) (i : Z) : Z :=
  let length := Z.of_nat (List.length lightboxItems) in
  if length =? 0 then 0 else Z.rem (i - 1 + length) length.

(** ** Numbers typed in the panel ([clampInt] and the fields that use it)

    [to_number x] is [Number(x)], the number the engine reads in the text
    of a field. *)

Section typed_numbers.

Variable to_number : string → number.

(** The bounds are those the panel passes, integers. *)
Definition clampInt (value : string) (min max : rounded) : rounded :=
  let n := Math_floor (to_number value) in
  if Number_isNaN n then min else Math_max min (Math_min max n).

(** The fields "Start" and "End" of the numbered gallery; both empty the
    manual order. *)
Definition onChange_start (value : string) (p : SiteSettings) : SiteSettings :=
  with_gallery
    (with_numbered
       (with_order []
          (with_start (clampInt value (Int 1) (Int 999))
             (Gallery.numbered (gallery p))))
       (gallery p))
    p.

Definition onChange_end (value : string) (p : SiteSettings) : SiteSettings :=
  with_gallery
    (with_numbered
       (with_order []
          (with_end (clampInt value (Int 1) (Int 999))
             (Gallery.numbered (gallery p))))
       (gallery p))
    p.

End typed_numbers.

(** ** The time of an appointment ([formatTime24To12]) *)

(** [s.split(c)] for a one-character separator: the pieces between the
    occurrences of [c]; there is always one piece. *)
Fixpoint split_char (s : string) (c : ascii) : list string :=
  match s with
  | "" => [""]
  | String a r =>
      if Ascii.eqb a c then "" :: split_char r c
      else
        match split_char r c with
        | piece :: pieces => String a piece :: pieces
        | [] => [String a ""]
        end
  end.

(** The number the digits at the start of [s] denote, after the digits
    that denote [acc]. *)
Fixpoint digits_value_from (acc : Z) (s : string) : Z :=
  match s with
  | "" => acc
  | String c r =>
      if is_digit c
      then digits_value_from (10 * acc + (Z.of_nat (nat_of_ascii c) - 48)) r
      else acc
  end.

(** [parseInt(s, 10)]: white space is skipped, then a sign is read, then
    digits as far as they go; with no digit there the result is [NaN]. *)
Definition parseInt10 (s : string) : rounded :=
  let s := trimStart s in
  let negative :=
    match s with
    | String c _ => Ascii.eqb c "-"
    | "" => false
    end in
  let s :=
    match s with
    | String c r => if Ascii.eqb c "+" || Ascii.eqb c "-" then r else s
    | "" => ""
    end in
  if starts_with_digit s
  then Int ((if negative then -1 else 1) * digits_value_from 0 s)
  else NaN.

Fixpoint repeat_char (n : nat) (c : ascii) : string :=
  match n with
  | O => ""
  | S n' => String c (repeat_char n' c)
  end.

(** [s.padStart(targetLength, c)] for a filler of one character. *)
Definition padStart (s : string) (targetLength : nat) (c : ascii) : string :=
  repeat_char (targetLength - String.length s) c +:+ s.

(** [a % b]: the remainder of the division that rounds towards zero. *)
Definition num_rem (a b : rounded) : rounded :=
  match a, b with
  | NaN, _ | _, NaN => NaN
  | PosInf, _ | NegInf, _ => NaN
  | Int x, PosInf | Int x, NegInf => Int x
  | Int x, Int y => if y =? 0 then NaN else Int (Z.rem x y)
  end.

(** [String(m)] of what the destructuring [[h, m]] left in [m]:
    [undefined] when the array has one element only. *)
Definition String_of_element (m : option rounded) : string :=
  match m with
  | Some n => Number_toString n
  | None => "undefined"
  end.

(** [formatTime24To12].  [Number.isNaN(m)] is false of [undefined]. *)
Definition formatTime24To12 (time : string) : string :=
  let parts := List.map parseInt10 (split_char time ":") in
  let h := default NaN (head parts) in
  let m := parts !! 1%nat in
  if Number_isNaN h || from_option (λ m : rounded, Number_isNaN m) false m
  then time
  else
    let suffix := if num_geb h (Int 12) then "PM" else "AM" in
    Number_toString (num_add (num_rem (num_add h (Int 11)) (Int 12)) (Int 1))
      +:+ ":" +:+ padStart (String_of_element m) 2 "0" +:+ " " +:+ suffix.

(** The number a text of digits denotes. *)
Definition digits_value (s : string) : Z := digits_value_from 0 s.

(** ** The review form ([Reviews], [handleSubmit]) *)

(** The fields of the form; [website] is the trap for robots, a field no
    visitor sees. *)
Module ReviewForm.
Record t : Type := {
  name : string;
  service : string;
  rating : number;
  text : string;
  website : string;
}.
End ReviewForm.

(** A review as it is sent to the store ([Omit<FirestoreReview, "id">]). *)
Module Review.
Record t : Type := {
  name : string;
  service : string;
  rating : number;
  text : string;
  date : string;
}.
End Review.

(** The state of the form the handler sets. *)
Record ReviewState : Type := {
  formData : ReviewForm.t;
  formError : string;
  submitted : bool;
  isSubmitting : bool;
}.

Definition MAX_REVIEW_LEN : nat := 500.

(** [s.slice(0, n)]. *)
Fixpoint String_take (n : nat) (s : string) : string :=
  match n, s with
  | S n', String c r => String c (String_take n' r)
  | _, _ => ""
  end.

(** The form once a review is accepted. *)
Definition empty_form : ReviewForm.t := {|
  ReviewForm.name := "";
  ReviewForm.service := "";
  ReviewForm.rating := Int 5;
  ReviewForm.text := "";
  ReviewForm.website := "";
|}.

Definition with_formError (message : string) (st : ReviewState)
  : ReviewState := {|
  formData := formData st;
  formError := message;
  submitted := submitted st;
  isSubmitting := isSubmitting st;
|}.

(** [handleSubmit]: the state of the form when the handler is through, and
    the reviews it sent to the store, none or one.  [addReview r] is what
    the store answers to [r], the [id] of the review or [null]; [now] is
    [new Date().toISOString()].  (The timer that takes the notice of
    success away after four seconds is a later event.) *)
Definition handleSubmit (addReview : Review.t → option string) (now : string)
    (st : ReviewState) : ReviewState * list Review.t :=
  let st := with_formError "" st in
  let formData := formData st in
  if str_truthy (trim (ReviewForm.website formData)) then (st, []) else
  let name := trim (ReviewForm.name formData) in
  let service := trim (ReviewForm.service formData) in
  let text := trim (ReviewForm.text formData) in
  if (String.length name <? 2)%nat then
    (with_formError "Please enter your name." st, [])
  else if negb (str_truthy service) then
    (with_formError "Please select a service." st, [])
  else if (String.length text <? 10)%nat then
    (with_formError
       "Please write a short review (at least 10 characters)." st, [])
  else
    let review := {|
      Review.name := name;
      Review.service := service;
      Review.rating := ReviewForm.rating formData;
      Review.text := String_take MAX_REVIEW_LEN text;
      Review.date := now;
    |} in
    let id := addReview review in
    if negb (from_option str_truthy false id) then
      ({| formData := formData;
          formError :=
            "Could not submit your review right now. Please try again.";
          submitted := submitted st;
          isSubmitting := false |},
       [review])
    else
      ({| formData := empty_form;
          formError := "";
          submitted := true;
          isSubmitting := false |},
       [review]).

(** ** The administrator's session ([adminLogin], [adminMe]) *)

Definition ADMIN_EMAIL : string := "jayteca15@gmail.com".

(** [s.toLowerCase()] on code units below 256: the letters of ASCII and
    those of Latin-1, from [À] to [Þ] but for the sign [×]. *)
Definition to_lower_case (c : ascii) : ascii :=
  let n := nat_of_ascii c in
  if ((65 <=? n)%nat && (n <=? 90)%nat)
     || ((192 <=? n)%nat && (n <=? 222)%nat && negb (n =? 215)%nat)
  then ascii_of_nat (n + 32)
  else c.

Fixpoint toLowerCase (s : string) : string :=
  match s with
  | "" => ""
  | String c r => String (to_lower_case c) (toLowerCase r)
  end.

(** The type [AdminAuthResult]. *)
Inductive AdminAuthResult : Type :=
| AuthOk (email : string)
| AuthFailed (message : string).

(** A user of the authentication service; its [email] may be [null]. *)
Record User : Type := { User_email : option string }.

(** What a call of the service comes to: [signInWithEmailAndPassword]
    gives a credential or raises an error that may carry a [code];
    [signOut] returns or raises such an error. *)
Inductive SignIn : Type :=
| Credential (user : User)
| SignIn_error (code : option string).

Inductive SignOut : Type :=
| SignedOut
| SignOut_error (code : option string).

(** The calls to the service, in the order they are made. *)
Inductive Call : Type :=
| Call_signIn (email password : string)
| Call_signOut.

(** The message of the [catch] block for an error with the code [code]
    ([err.code ?? ""]). *)
Definition message_of_code (code : option string) : string :=
  let code := default "" code in
  if String.eqb code "auth/user-not-found"
     || String.eqb code "auth/wrong-password"
     || String.eqb code "auth/invalid-credential"
  then "Invalid email or password"
  else if String.eqb code "auth/too-many-requests"
  then "Too many failed attempts. Please try again later."
  else if String.eqb code "auth/network-request-failed"
  then "Network error. Check your internet connection."
  else if String.eqb code "auth/invalid-email"
  then "Invalid email address format."
  else "Invalid email or password".

(** [adminLogin]: its result and the calls it made.  [signIn] and
    [signOut] are what the service does when called. *)
Definition adminLogin (signIn : string → string → SignIn) (signOut : SignOut)
    (email password : string) : AdminAuthResult * list Call :=
  if negb (String.eqb (toLowerCase (trim email)) (toLowerCase ADMIN_EMAIL))
  then (AuthFailed "Unauthorized admin email", [])
  else
    match signIn email password with
    | Credential user =>
        let userEmail := str_or (default "" (User_email user)) "" in
        if negb (String.eqb (toLowerCase userEmail) (toLowerCase ADMIN_EMAIL))
        then
          match signOut with
          | SignedOut =>
              (AuthFailed "Unauthorized admin account",
               [Call_signIn email password; Call_signOut])
          | SignOut_error code =>
              (AuthFailed (message_of_code code),
               [Call_signIn email password; Call_signOut])
          end
        else (AuthOk (str_or userEmail email), [Call_signIn email password])
    | SignIn_error code =>
        (AuthFailed (message_of_code code), [Call_signIn email password])
    end.

(** [adminMe], given the user the service reports first, [null] when
    nobody is signed in: what the promise resolves to, and the calls
    made.  An error of [signOut] is ignored. *)
Definition adminMe (user : option User) : bool * list Call :=
  let email := str_or (default "" (user ≫= User_email)) "" in
  if bool_decide (is_Some user)
     && negb (String.eqb (toLowerCase email) (toLowerCase ADMIN_EMAIL))
  then (false, [Call_signOut])
  else (bool_decide (is_Some user), []).

(** ** The server that keeps the session ([isAllowedOrigin],
    [getTokenFromRequest]) *)

Definition COOKIE_NAME : string := "berly_admin_session".

(** [isAllowedOrigin].  [FRONTEND_ORIGINS] is the variable of the
    environment, [None] when it is not set; [PORT] is the number the
    server listens on; the origin is [undefined] for a request that
    names none. *)
Definition isAllowedOrigin (FRONTEND_ORIGINS : option string) (PORT : number)
    (origin : option string) : bool :=
  if negb (from_option str_truthy false origin) then true
  else
    let allowFromEnv :=
      List.filter str_truthy
        (List.map trim
           (split_char (str_or (default "" FRONTEND_ORIGINS) "") ",")) in
    let allow :=
      Set_from
        (allowFromEnv
         ++ [ "http://localhost:5173";
              "http://localhost:4173";
              "http://localhost:" +:+ Number_toString PORT;
              "http://127.0.0.1:5173";
              "http://127.0.0.1:4173" ])%list in
    Set_has allow (default "" origin).

(** What the handlers read of a request: the header [authorization] and
    the cookie of the session, each [None] when it is not there. *)
Record Request : Type := {
  authorization : option string;
  cookie : option string;
}.

(** [getTokenFromCookie]: [req.cookies?.[COOKIE_NAME] || null]. *)
Definition getTokenFromCookie (req : Request) : option string :=
  match cookie req with
  | Some token => if str_truthy token then Some token else None
  | None => None
  end.

(** [getTokenFromRequest]: [type] and [token] are the first two pieces of
    the header cut at its spaces. *)
Definition getTokenFromRequest (req : Request) : option string :=
  match authorization req with
  | Some auth =>
      if str_truthy auth then
        let parts := split_char auth " " in
        let type := default "" (head parts) in
        match parts !! 1%nat with
        | Some token =>
            if String.eqb type "Bearer" && str_truthy token then Some token
            else getTokenFromCookie req
        | None => getTokenFromCookie req
        end
      else getTokenFromCookie req
  | None => getTokenFromCookie req
  end.

(** A form filled in by a visitor, with white space around the name. *)
Definition filled_form : ReviewState := {|
  formData := {|
    ReviewForm.name := " Thandi ";
    ReviewForm.service := "Braids";
    ReviewForm.rating := Int 5;
    ReviewForm.text := "Lovely braids, thank you!";
    ReviewForm.website := "";
  |};
  formError := "";
  submitted := false;
  isSubmitting := false;
|}.

(** The same form with the hidden field filled in, as a robot does. *)
Definition robot_form : ReviewState := {|
  formData := {|
    ReviewForm.name := " Thandi ";
    ReviewForm.service := "Braids";
    ReviewForm.rating := Int 5;
    ReviewForm.text := "Lovely braids, thank you!";
    ReviewForm.website := "http://spam.example";
  |};
  formError := "";
  submitted := false;
  isSubmitting := false;
|}.

(** A service that knows the administrator and a visitor. *)
Definition sample_signIn (email password : string) : SignIn :=
  if String.eqb password "secret"
  then Credential {| User_email := Some "jayteca15@gmail.com" |}
  else if String.eqb password "guest"
  then Credential {| User_email := Some "visitor@example.com" |}
  else SignIn_error (Some "auth/wrong-password").

(** A request with a bearer token and a cookie; one with credentials of
    another scheme; one with an empty cookie only. *)
Definition bearer_request : Request := {|
  authorization := Some "Bearer abc.def";
  cookie := Some "xyz";
|}.

Definition basic_request : Request := {|
  authorization := Some "Basic dXNlcg==";
  cookie := Some "xyz";
|}.

Definition blank_request : Request := {|
  authorization := None;
  cookie := Some "";
|}.

(** ** Saving to the local cache ([saveToLocalStorage]) *)

(** [localStorage.setItem(STORAGE_KEY, JSON.stringify(settings))]: [write]
    tells the text [JSON.stringify] writes for a document; when it writes
    nothing its result is [undefined], which [setItem] stores as the text
    ["undefined"].  The store is taken to have room for the text. *)
Definition saveToLocalStorage (write : json → string) (settings : value)
    (localStorage : gmap string string) : gmap string string :=
  <[STORAGE_KEY := match JSON_data settings with
                   | Some j => write j
                   | None => "undefined"
                   end]> localStorage.

(** The numbers of a document are finite. *)
Fixpoint json_finite (j : json) : bool :=
  match j with
  | JNum n => Number_isFinite n
  | JArr js => forallb json_finite js
  | JObj ms => forallb (λ m, json_finite (snd m)) ms
  | _ => true
  end.

(** No object of a document has a key twice. *)
Fixpoint json_distinct (j : json) : bool :=
  match j with
  | JArr js => forallb json_distinct js
  | JObj ms =>
      bool_decide (NoDup (List.map fst ms))
      && forallb (λ m, json_distinct (snd m)) ms
  | _ => true
  end.

(** No object reachable from a value lists a key twice, as [props] are
    meant. *)
Fixpoint distinct_keys (v : value) : bool :=
  match v with
  | VArr _ xs => forallb distinct_keys xs
  | VObj _ ps =>
      bool_decide (NoDup (List.map fst ps))
      && forallb (λ kv, distinct_keys (snd kv)) ps
  | _ => true
  end.

(** A writer and a reader of one text, the one of the default document. *)
Definition write_defaults (j : json) : string := "{defaults}".

Definition parse_defaults (text : string) : option json :=
  if String.eqb text "{defaults}"
  then Some (json_of_settings DEFAULT_SITE_SETTINGS)
  else None.

(** * Properties *)

Local Open Scope Z_scope.

(** ** Numbered and custom galleries *)

Section numbered_range.

Context (nb : Numbered.t) (s e : Z).
Hypothesis Hstart : Numbered.start nb = Int s.
Hypothesis Hend : Numbered.end_ nb = Int e.
Hypothesis Hrange : 1 ≤ s ≤ e.

Lemma safeStart_integer : safeStart nb = Int s.
Proof using Hstart Hrange.
  unfold safeStart, Math_floor, num_or. rewrite Hstart.
  destruct s as [|p|p] eqn:Hs; try lia. simpl. f_equal. lia.
Qed.

Lemma safeEnd_integer : safeEnd nb = Int e.
Proof using Hstart Hend Hrange.
  unfold safeEnd, Math_floor, num_or. rewrite safeStart_integer, Hend.
  destruct e as [|p|p] eqn:He; try lia. simpl. f_equal. lia.
Qed.

Lemma range_integers :
  e - s + 1 ≤ MAX_ARRAY_LENGTH → range nb = Some (Int <$> seqZ s (e - s + 1)).
Proof using Hstart Hend Hrange.
  intros Hlength. unfold range. rewrite safeEnd_integer, safeStart_integer.
  simpl. replace (e + - s + 1) with (e - s + 1) by lia.
  replace (MAX_ARRAY_LENGTH <? e - s + 1) with false by lia. f_equal.
  rewrite <- (Z.add_0_r s) at 2. rewrite <- (fmap_add_seqZ s 0).
  rewrite <- list_fmap_compose. reflexivity.
Qed.

End numbered_range.

Section set_model.

Context {A : Type} `{EqDecision A}.

Implicit Types (x : A) (seen xs : list A).

(** A [Set] under construction matters through its members only. *)
Lemma Set_insert_all_ext seen seen' xs :
  (∀ z, z ∈ seen ↔ z ∈ seen') →
  Set_insert_all seen xs = Set_insert_all seen' xs.
Proof.
  revert seen seen'. induction xs as [|x r IH]; intros seen seen' Hs; [done|].
  simpl. destruct (bool_decide_reflect (x ∈ seen)) as [H1|H1],
    (bool_decide_reflect (x ∈ seen')) as [H2|H2].
  - by apply IH.
  - by apply Hs in H1.
  - by apply Hs in H2.
  - f_equal. apply IH. intros z. rewrite !elem_of_cons. naive_solver.
Qed.

(** A member already seen might as well be struck from the input. *)
Lemma Set_insert_all_seen x seen xs :
  Set_insert_all (x :: seen) xs
  = Set_insert_all seen (List.filter (λ y, negb (bool_decide (y = x))) xs).
Proof.
  revert seen. induction xs as [|y r IH]; intros seen; [done|].
  simpl. destruct (bool_decide_reflect (y = x)) as [->|Hne]; simpl.
  - rewrite bool_decide_eq_true_2 by apply list_elem_of_here. apply IH.
  - destruct (bool_decide_reflect (y ∈ seen)) as [Hin|Hin].
    + rewrite bool_decide_eq_true_2 by (by apply list_elem_of_further).
      apply IH.
    + rewrite bool_decide_eq_false_2
        by (rewrite elem_of_cons; naive_solver).
      f_equal. rewrite <- IH. apply Set_insert_all_ext.
      intros z. rewrite !elem_of_cons. naive_solver.
Qed.

Lemma elem_of_Set_insert_all x seen xs :
  x ∈ Set_insert_all seen xs ↔ x ∈ xs ∧ x ∉ seen.
Proof.
  revert seen. induction xs as [|y r IH]; intros seen; simpl.
  - rewrite elem_of_nil. naive_solver.
  - destruct (bool_decide_reflect (y ∈ seen)) as [Hin|Hin].
    + rewrite IH, elem_of_cons. naive_solver.
    + rewrite !elem_of_cons, IH, elem_of_cons.
      destruct (decide (x = y)); naive_solver.
Qed.

Lemma NoDup_Set_insert_all seen xs : NoDup (Set_insert_all seen xs).
Proof.
  revert seen. induction xs as [|y r IH]; intros seen; simpl.
  - constructor.
  - destruct (bool_decide_reflect (y ∈ seen)); [apply IH|].
    constructor; [|apply IH].
    rewrite elem_of_Set_insert_all, elem_of_cons. naive_solver.
Qed.

Lemma elem_of_Set_from x xs : x ∈ Set_from xs ↔ x ∈ xs.
Proof.
  unfold Set_from. rewrite elem_of_Set_insert_all, elem_of_nil. naive_solver.
Qed.

Lemma NoDup_Set_from xs : NoDup (Set_from xs).
Proof. apply NoDup_Set_insert_all. Qed.

Lemma keep_first_upto_Set fuel xs :
  (List.length xs ≤ fuel)%nat → keep_first_upto fuel xs = Set_from xs.
Proof.
  revert xs. induction fuel as [|fuel IH]; intros [|x r] Hlen;
    simpl in *; try done; try lia.
  unfold Set_from. simpl. rewrite Set_insert_all_seen. f_equal.
  apply IH. etrans; [apply List.filter_length_le|lia].
Qed.

(** The order of a [Set] is the order of first occurrence. *)
Lemma Set_from_keep_first xs : Set_from xs = keep_first xs.
Proof. symmetry. by apply keep_first_upto_Set. Qed.

End set_model.

Lemma effective_extension_code (extension : string) :
  strip_leading_dot (str_or extension "jpeg") = effective_extension extension.
Proof. by destruct extension. Qed.

(** C1, as the code has it.  In numbered mode with an empty manual order
    and integer bounds [1 ≤ s ≤ e], where [e] is a safe integer (so that
    the numbers of the range are computed exactly) and the range has no
    more numbers than an array may hold, the list has exactly [e - s + 1]
    entries and the entry at position [n - s] is the one of image [n], so
    the images come in strictly ascending order; the entry of image [n] is
    ["{folder}/{n}.{ext}?v={assetVersion}"], where [ext] is the configured
    extension without its leading dot, and ["jpeg"] when none is
    configured. *)
Theorem numbered_natural_order (settings : SiteSettings) (s e : Z) :
  let g := gallery settings in
  let nb := Gallery.numbered g in
  let entry (n : Z) :=
    Numbered.folder nb +:+ "/" +:+ pretty n +:+ "."
      +:+ effective_extension (Numbered.extension nb)
      +:+ "?v=" +:+ Number_toString (Gallery.assetVersion g) in
  Gallery.mode g = numbered →
  Numbered.start nb = Int s →
  Numbered.end_ nb = Int e →
  1 ≤ s ≤ e →
  e ≤ MAX_SAFE_INTEGER →
  e - s + 1 ≤ MAX_ARRAY_LENGTH →
  Numbered.order nb = [] →
  ∃ urls : list string,
    buildGalleryImageList settings = Some urls
    ∧ urls = entry <$> seqZ s (e - s + 1)
    ∧ Z.of_nat (List.length urls) = e - s + 1
    ∧ ∀ n, s ≤ n ≤ e → urls !! Z.to_nat (n - s) = Some (entry n).
Proof.
  intros g nb entry Hmode Hstart Hend Hrange _ Hlength Horder.
  exists (entry <$> seqZ s (e - s + 1)). split; [|split; [done|split]].
  - unfold buildGalleryImageList. fold g nb. rewrite Hmode.
    unfold orderedNumbers, manual. rewrite (range_integers nb s e) by done.
    rewrite Horder, effective_extension_code. f_equal.
    change (List.map ?f ?l) with (f <$> l). rewrite <- list_fmap_compose.
    reflexivity.
  - rewrite length_fmap, length_seqZ. lia.
  - intros n Hn. rewrite list_lookup_fmap, lookup_seqZ_lt by lia.
    simpl. do 2 f_equal. lia.
Qed.

(** The scenario of the specification: images 1 to 3 of [/gallery] with
    extension [jpeg] at asset version 1. *)
Lemma numbered_natural_order_scenario :
  ∃ urls : list string,
    buildGalleryImageList (three_images "jpeg" []) = Some urls
    ∧ urls = [ "/gallery/1.jpeg?v=1"; "/gallery/2.jpeg?v=1";
               "/gallery/3.jpeg?v=1" ]
    ∧ Z.of_nat (List.length urls) = 3.
Proof.
  destruct (numbered_natural_order (three_images "jpeg" []) 1 3)
    as (urls & Hrun & Hurls & Hlen & _);
    [reflexivity | reflexivity | reflexivity | lia | done | done
    | reflexivity |].
  exists urls. split; [exact Hrun|]. split; [|exact Hlen].
  rewrite Hurls. reflexivity.
Defined.

(** C1 as the specification words it, with the stored extension in the
    file name, fails when the extension is stored with its dot: the code
    strips it. *)
Lemma numbered_natural_order_stored_extension_fails :
  ¬ (∀ (settings : SiteSettings) (s e : Z),
       Gallery.mode (gallery settings) = numbered →
       Numbered.start (Gallery.numbered (gallery settings)) = Int s →
       Numbered.end_ (Gallery.numbered (gallery settings)) = Int e →
       1 ≤ s ≤ e →
       Numbered.order (Gallery.numbered (gallery settings)) = [] →
       buildGalleryImageList settings
       = Some (specified_url settings <$> seqZ s (e - s + 1))).
Proof.
  intros H.
  specialize (H (three_images ".jpeg" []) 1 3 eq_refl eq_refl eq_refl
                ltac:(lia) eq_refl).
  vm_compute in H. discriminate H.
Qed.

Lemma Set_insert_all_fmap {A B} `{EqDecision A} `{EqDecision B}
    (f : A → B) `{!Inj eq eq f} (seen xs : list A) :
  Set_insert_all (f <$> seen) (f <$> xs) = f <$> Set_insert_all seen xs.
Proof.
  revert seen. induction xs as [|x r IH]; intros seen; [done|].
  rewrite fmap_cons. cbn [Set_insert_all].
  rewrite (bool_decide_ext (f x ∈ f <$> seen) (x ∈ seen))
    by apply (list_elem_of_fmap_inj f).
  destruct (bool_decide (x ∈ seen)); [apply IH|].
  rewrite fmap_cons. f_equal. apply (IH (x :: seen)).
Qed.

#[local] Instance Int_inj : Inj eq eq Int.
Proof. by intros x y [= ->]. Qed.

Lemma integer_within_Some (s e z : Z) (n : number) :
  integer_within s e n = Some z ↔ n = Rounded (Int z) ∧ s ≤ z ≤ e.
Proof.
  destruct n as [[| | |z']|below text]; simpl; try naive_solver.
  destruct (Z.leb_spec s z'), (Z.leb_spec z' e); simpl; naive_solver lia.
Qed.

Lemma rounded_down_idle (order : list number) :
  forallb is_rounded order = true → rounded_down order = order.
Proof.
  unfold rounded_down. induction order as [|[r|below text] order IH];
    [done| |done].
  cbn [forallb is_rounded andb]. intros Horder.
  by rewrite fmap_cons, IH.
Qed.

Section manual_order.

Context (nb : Numbered.t) (s e : Z).
Hypothesis Hstart : Numbered.start nb = Int s.
Hypothesis Hend : Numbered.end_ nb = Int e.
Hypothesis Hrange : 1 ≤ s ≤ e.
Hypothesis Hlength : e - s + 1 ≤ MAX_ARRAY_LENGTH.
Hypothesis Hmanual : Numbered.order nb ≠ [].

Lemma manual_nonempty : manual nb = true.
Proof using Hmanual. unfold manual. by destruct (Numbered.order nb). Qed.

(** The entries kept of the manual order: those that round down to an
    integer of the range. *)
Lemma kept_entries (order : list number) :
  List.filter
    (λ n : rounded,
       Number_isFinite n && num_geb n (Int s) && num_leb n (Int e))
    (List.map (λ n, Math_floor (Number n)) order)
  = Int <$> omap (integer_within s e) (rounded_down order).
Proof.
  unfold rounded_down, Number. change (List.map ?f ?l) with (f <$> l).
  induction order as [|n order IH]; [done|].
  rewrite !fmap_cons. cbn [List.filter omap list_omap].
  rewrite IH. clear IH.
  destruct (Math_floor n) as [| | |z]; try done.
  unfold num_geb. cbn [Number_isFinite num_leb integer_within andb].
  by destruct (s <=? z), (z <=? e).
Qed.

Lemma baseOrdered_keep_first :
  baseOrdered nb
  = Int <$> keep_first
              (omap (integer_within s e) (rounded_down (Numbered.order nb))).
Proof using Hstart Hend Hrange Hmanual.
  unfold baseOrdered. rewrite manual_nonempty.
  rewrite (safeStart_integer nb s e), (safeEnd_integer nb s e) by done.
  rewrite kept_entries, <- Set_from_keep_first.
  apply (Set_insert_all_fmap Int []).
Qed.

Lemma orderedNumbers_specified :
  orderedNumbers nb
  = Some (Int <$> specified_order s e (rounded_down (Numbered.order nb))).
Proof using Hstart Hend Hrange Hlength Hmanual.
  unfold orderedNumbers. rewrite (range_integers nb s e) by done.
  rewrite manual_nonempty, baseOrdered_keep_first.
  unfold specified_order. rewrite fmap_app. do 2 f_equal.
  change (Int <$> ?l) with (List.map Int l) at 2 3.
  rewrite List.filter_map_swap. f_equal. apply List.filter_ext. intros z.
  unfold Set_has. f_equal. apply bool_decide_ext.
  apply (list_elem_of_fmap_inj Int).
Qed.

End manual_order.

Section specified_order_facts.

Context (s e : Z) (order : list number).

Let base : list Z := keep_first (omap (integer_within s e) order).

Lemma elem_of_base z : z ∈ base ↔ Rounded (Int z) ∈ order ∧ s ≤ z ≤ e.
Proof.
  unfold base. rewrite <- Set_from_keep_first, elem_of_Set_from.
  rewrite list_elem_of_omap. split.
  - intros (n & Hn & (-> & Hz)%integer_within_Some). done.
  - intros [Hn Hz]. exists (Rounded (Int z)). split; [done|].
    by apply integer_within_Some.
Qed.

Lemma elem_of_specified_order z :
  z ∈ specified_order s e order ↔ s ≤ z ≤ e.
Proof.
  unfold specified_order. fold base.
  rewrite elem_of_app, (list_elem_of_In (List.filter _ _)), List.filter_In.
  rewrite <- list_elem_of_In, negb_true_iff, bool_decide_eq_false,
    elem_of_base, elem_of_seqZ.
  destruct (decide (Rounded (Int z) ∈ order)); naive_solver lia.
Qed.

Lemma NoDup_specified_order : NoDup (specified_order s e order).
Proof.
  unfold specified_order. fold base. apply NoDup_app. split; [|split].
  - unfold base. rewrite <- Set_from_keep_first. apply NoDup_Set_from.
  - intros n Hn. rewrite list_elem_of_In, List.filter_In.
    intros [_ Hnot]. rewrite negb_true_iff, bool_decide_eq_false in Hnot.
    done.
  - apply NoDup_ListNoDup, List.NoDup_filter, NoDup_ListNoDup, NoDup_seqZ.
Qed.

Lemma length_specified_order :
  s ≤ e → Z.of_nat (List.length (specified_order s e order)) = e - s + 1.
Proof.
  intros Hse.
  assert (specified_order s e order ≡ₚ seqZ s (e - s + 1)) as ->.
  { apply NoDup_Permutation.
    - apply NoDup_specified_order.
    - apply NoDup_seqZ.
    - intros z. rewrite elem_of_specified_order, elem_of_seqZ. lia. }
  rewrite length_seqZ. lia.
Qed.

End specified_order_facts.

(** C2, as the code has it.  In numbered mode with integer bounds
    [1 ≤ s ≤ e], where [e] is a safe integer (so that the numbers of the
    range are computed exactly) and the range has no more numbers than an
    array may hold, and a manual order that is not empty, whatever it
    holds (numbers out of range, repetitions, [NaN], infinities,
    fractions),
    every entry of the order is rounded down, and the images come in the
    order the specification gives for the rounded list: its finite
    integers of [[s, e]], each at its first occurrence, then every other
    number of the range, ascending.  So every number of the range comes
    exactly once and the list has [e - s + 1] entries.  When no entry of
    the order has a fractional part, the rounding is idle and the order is
    the one the specification gives for the list as it is. *)
Theorem manual_order_resolution (settings : SiteSettings) (s e : Z) :
  let g := gallery settings in
  let nb := Gallery.numbered g in
  Gallery.mode g = numbered →
  Numbered.start nb = Int s →
  Numbered.end_ nb = Int e →
  1 ≤ s ≤ e →
  e ≤ MAX_SAFE_INTEGER →
  e - s + 1 ≤ MAX_ARRAY_LENGTH →
  Numbered.order nb ≠ [] →
  ∃ (ns : list Z) (urls : list string),
    ns = specified_order s e (rounded_down (Numbered.order nb))
    ∧ (forallb is_rounded (Numbered.order nb) = true →
       ns = specified_order s e (Numbered.order nb))
    ∧ orderedNumbers nb = Some (Int <$> ns)
    ∧ buildGalleryImageList settings = Some urls
    ∧ urls = (λ z, numbered_url (Numbered.folder nb)
                     (effective_extension (Numbered.extension nb))
                     (Gallery.assetVersion g) (Int z)) <$> ns
    ∧ NoDup ns
    ∧ (∀ z, z ∈ ns ↔ s ≤ z ≤ e)
    ∧ Z.of_nat (List.length ns) = e - s + 1
    ∧ Z.of_nat (List.length urls) = e - s + 1.
Proof.
  intros g nb Hmode Hstart Hend Hrange _ Hlength Hmanual.
  exists (specified_order s e (rounded_down (Numbered.order nb))).
  eexists.
  pose proof
    (orderedNumbers_specified nb s e Hstart Hend Hrange Hlength Hmanual)
    as Hnum.
  split; [done|]. split; [by intros ->%rounded_down_idle|].
  split; [done|]. split; [|split; [done|]].
  { unfold buildGalleryImageList. fold g nb.
    rewrite Hmode, Hnum, effective_extension_code. f_equal.
    change (List.map ?f ?l) with (f <$> l).
    by rewrite <- list_fmap_compose. }
  split; [apply NoDup_specified_order|].
  split; [apply elem_of_specified_order|].
  rewrite length_fmap. split; apply length_specified_order; lia.
Qed.

(** The scenario of the specification: with the order [3, 1], images 1 to
    3 come as 3, 1, 2. *)
Lemma manual_order_resolution_scenario :
  ∃ ns : list Z,
    ns = [3; 1; 2]
    ∧ orderedNumbers (Gallery.numbered (gallery (three_images "jpeg" [Int 3 : number; Int 1 : number])))
      = Some (Int <$> ns)
    ∧ buildGalleryImageList (three_images "jpeg" [Int 3 : number; Int 1 : number])
      = Some [ "/gallery/3.jpeg?v=1"; "/gallery/1.jpeg?v=1";
               "/gallery/2.jpeg?v=1" ].
Proof.
  destruct (manual_order_resolution
              (three_images "jpeg" [Int 3 : number; Int 1 : number]) 1 3)
    as (ns & urls & Hns & _ & Hnum & Hrun & Hurls & _);
    [reflexivity | reflexivity | reflexivity | lia | done | done
    | discriminate |].
  exists ns. split; [rewrite Hns; reflexivity|]. split; [exact Hnum|].
  rewrite Hrun, Hurls, Hns. reflexivity.
Defined.

(** C2 as the specification words it, with the order list filtered to its
    integers, fails on an order with a fraction: the code rounds 2.5 down
    to 2 and so shows image 2 first, where the filter of the specification
    drops 2.5 and leaves the natural order. *)
Lemma manual_order_fraction_fails :
  ¬ (∀ (settings : SiteSettings) (s e : Z),
       Gallery.mode (gallery settings) = numbered →
       Numbered.start (Gallery.numbered (gallery settings)) = Int s →
       Numbered.end_ (Gallery.numbered (gallery settings)) = Int e →
       1 ≤ s ≤ e →
       Numbered.order (Gallery.numbered (gallery settings)) ≠ [] →
       orderedNumbers (Gallery.numbered (gallery settings))
       = Some (Int <$> specified_order s e
                         (Numbered.order (Gallery.numbered (gallery settings))))).
Proof.
  intros H.
  specialize (H (three_images "jpeg" [Frac 2 "2.5"]) 1 3 eq_refl eq_refl
                eq_refl ltac:(lia) ltac:(discriminate)).
  vm_compute in H. discriminate H.
Qed.

Example manual_order_fraction_value :
  orderedNumbers (Gallery.numbered (gallery (three_images "jpeg" [Frac 2 "2.5"])))
  = Some [Int 2; Int 1; Int 3]
  ∧ specified_order 1 3 [Frac 2 "2.5"] = [1; 2; 3].
Proof. by vm_compute. Qed.

(** C8.  In custom mode the list is [customImages] without its empty
    entries: in the stored order, every entry as it is stored. *)
Theorem custom_gallery_verbatim (settings : SiteSettings) :
  Gallery.mode (gallery settings) = custom →
  buildGalleryImageList settings
  = Some (List.filter (λ url, negb (String.eqb url ""))
            (Gallery.customImages (gallery settings))).
Proof.
  intros Hmode. unfold buildGalleryImageList. rewrite Hmode. f_equal.
  apply List.filter_ext. by intros [|c r].
Qed.

(** Of three stored images, the second empty, the two others are listed. *)
Lemma custom_gallery_verbatim_default :
  buildGalleryImageList custom_images
  = Some [ "https://cdn.x.com/b.png"; "/gallery/a.jpeg" ].
Proof.
  rewrite (custom_gallery_verbatim custom_images); reflexivity.
Defined.

(** ** The specials on display *)

Lemma sublist_List_filter {A} (f : A → bool) (l : list A) :
  List.filter f l `sublist_of` l.
Proof.
  induction l as [|x l IH]; simpl; [done|].
  destruct (f x); by constructor.
Qed.

Section specials.

Context (time_value : string → option Z) (now : Z).

Lemma displayable_true (x : Promotion.t) :
  displayable time_value now x = true
  ↔ trim (Promotion.title x) ≠ ""
    ∧ (Promotion.validUntil x = ""
       ∨ time_value (Promotion.validUntil x) = None
       ∨ ∃ t, time_value (Promotion.validUntil x) = Some t ∧ now ≤ t).
Proof.
  unfold displayable, Date_getTime.
  destruct (trim (Promotion.title x)) as [|c r] eqn:Htitle; simpl.
  { split; [done|]. by intros [? _]. }
  destruct (Promotion.validUntil x) as [|d u] eqn:Huntil; simpl.
  { split; [|done]. intros _. split; [done|]. by left. }
  destruct (time_value (String d u)) as [t|]; simpl.
  - unfold num_geb. simpl. rewrite Z.leb_le. split.
    + intros Ht. split; [done|]. right. right. by exists t.
    + intros (_ & [?|[?|(t' & [= ->] & ?)]]); done.
  - split; [|done]. intros _. split; [done|]. right. by left.
Qed.

(** C7.  A promotion of the list is shown, as far as the filter of the
    specials goes, exactly when its title is not empty once trimmed, and
    its [validUntil] is empty, or is read as no date, or is read as a time
    that is not before now. *)
Theorem displayable_iff (settings : SiteSettings) (x : Promotion.t) :
  x ∈ List.filter (displayable time_value now)
        (Promotions.items (promotions settings))
  ↔ x ∈ Promotions.items (promotions settings)
    ∧ trim (Promotion.title x) ≠ ""
    ∧ (Promotion.validUntil x = ""
       ∨ time_value (Promotion.validUntil x) = None
       ∨ ∃ t, time_value (Promotion.validUntil x) = Some t ∧ now ≤ t).
Proof.
  rewrite (list_elem_of_In (List.filter _ _)), List.filter_In.
  by rewrite <- list_elem_of_In, displayable_true.
Qed.

(** The cases the specification lists: a promotion whose date is past is
    left out, one without a title is left out whatever its date, and one
    with a title and no date or a date to come is kept. *)
Corollary displayable_cases (x : Promotion.t) :
  (∀ t, time_value (Promotion.validUntil x) = Some t →
        Promotion.validUntil x ≠ "" → t < now →
        displayable time_value now x = false)
  ∧ (trim (Promotion.title x) = "" → displayable time_value now x = false)
  ∧ (trim (Promotion.title x) ≠ "" → Promotion.validUntil x = "" →
     displayable time_value now x = true)
  ∧ (∀ t, trim (Promotion.title x) ≠ "" →
          time_value (Promotion.validUntil x) = Some t → now ≤ t →
          displayable time_value now x = true).
Proof.
  repeat split.
  - intros t Ht Hne Hpast. apply not_true_is_false.
    rewrite displayable_true, Ht.
    intros (_ & [?|[?|(t' & [= <-] & ?)]]); (done || lia).
  - intros Htitle. apply not_true_is_false. rewrite displayable_true.
    by intros [? _].
  - intros Htitle Huntil. apply displayable_true. split; [done|]. by left.
  - intros t Htitle Ht Hnow. apply displayable_true. split; [done|].
    right. right. by exists t.
Qed.

(** C10, as the code has it.  While the promotions are switched on, the
    section shows the promotions that pass the filter, in the stored
    order, up to the twelfth; what passes beyond the twelfth is not
    shown. *)
Theorem specials_first_twelve (settings : SiteSettings) :
  let stored := Promotions.items (promotions settings) in
  let shown := Specials_items time_value now settings in
  Promotions.enabled (promotions settings) = true →
  shown = take 12 (List.filter (displayable time_value now) stored)
  ∧ (List.length shown ≤ 12)%nat
  ∧ shown `sublist_of` stored
  ∧ ∀ i, (12 ≤ i)%nat → shown !! i = None.
Proof.
  intros stored shown Henabled.
  assert (shown = take 12 (List.filter (displayable time_value now) stored))
    as Hshown.
  { unfold shown, Specials_items. by rewrite Henabled. }
  assert (List.length shown ≤ 12)%nat as Hlen.
  { rewrite Hshown, length_take. lia. }
  split; [done|]. split; [done|]. split.
  - rewrite Hshown. etrans; [apply sublist_take|apply sublist_List_filter].
  - intros i Hi. apply lookup_ge_None. lia.
Qed.

End specials.

(** Of thirteen promotions that pass the filter, twelve are shown. *)
Lemma specials_first_twelve_of_thirteen :
  Specials_items (λ _, None) 0 thirteen_specials
  = replicate 12 open_ended_special
  ∧ Specials_items (λ _, None) 0 thirteen_specials !! 12%nat = None.
Proof.
  destruct (specials_first_twelve (λ _, None) 0 thirteen_specials)
    as (Hshown & _ & _ & Hbeyond); [reflexivity|].
  split; [rewrite Hshown; reflexivity|apply Hbeyond; lia].
Defined.

(** C10 as the specification words it, without the switch, fails: with the
    promotions switched off nothing is shown, whatever passes the filter. *)
Lemma specials_switched_off_shows_nothing :
  ¬ (∀ (time_value : string → option Z) (now : Z) (settings : SiteSettings),
       Specials_items time_value now settings
       = take 12 (List.filter (displayable time_value now)
                    (Promotions.items (promotions settings)))).
Proof.
  intros H. specialize (H (λ _, None) 0 specials_switched_off).
  vm_compute in H. discriminate H.
Qed.

(** ** Strings *)

Section strings.

Implicit Types (s t p : string) (a c : ascii).

Lemma str_or_empty s : str_or s "" = s.
Proof. by destruct s. Qed.

Lemma string_app_cons a s t : String a s +:+ t = String a (s +:+ t).
Proof. reflexivity. Qed.

Lemma string_app_assoc s t p : (s +:+ t) +:+ p = s +:+ (t +:+ p).
Proof.
  induction s as [|a s IH]; [done|]. rewrite !string_app_cons. by f_equal.
Qed.

Lemma string_app_empty_r s : s +:+ "" = s.
Proof.
  induction s as [|a s IH]; [done|]. rewrite string_app_cons. by f_equal.
Qed.

Lemma startsWith_cons a b s p :
  startsWith (String b s) (String a p) = Ascii.eqb a b && startsWith s p.
Proof. reflexivity. Qed.

Lemma startsWith_app p s : startsWith (p +:+ s) p = true.
Proof.
  induction p as [|a p IH]; [done|]. rewrite string_app_cons. simpl.
  by rewrite Ascii.eqb_refl, IH.
Qed.

Lemma startsWith_prefix s p t :
  startsWith s (p +:+ t) = true → startsWith s p = true.
Proof.
  revert s. induction p as [|a p IH]; intros [|b s]; simpl; try done.
  rewrite !andb_true_iff. intros [-> Hs]. eauto.
Qed.

Lemma includes_char_cons c a s :
  includes (String a s) (String c "") = Ascii.eqb c a || includes s (String c "").
Proof. simpl. by rewrite andb_true_r. Qed.

Lemma includes_char_app c s t :
  includes (s +:+ t) (String c "")
  = includes s (String c "") || includes t (String c "").
Proof.
  induction s as [|a s IH]; [done|].
  by rewrite string_app_cons, !includes_char_cons, IH, orb_assoc.
Qed.

(** A character of a prefix of [s] is a character of [s]. *)
Lemma startsWith_includes_char c s p :
  startsWith s p = true →
  includes p (String c "") = true → includes s (String c "") = true.
Proof.
  revert s. induction p as [|a p IH]; intros [|b s]; try done.
  simpl startsWith. rewrite andb_true_iff, Ascii.eqb_eq. intros [-> Hs].
  rewrite !includes_char_cons, !orb_true_iff. naive_solver.
Qed.

Lemma split_head_absent c s :
  includes s (String c "") = false → split_head s c = s.
Proof.
  induction s as [|a s IH]; [done|].
  rewrite includes_char_cons, orb_false_iff, Ascii.eqb_sym.
  intros [Ha Hs]. simpl. by rewrite Ha, IH.
Qed.

Lemma split_last_absent c s :
  includes s (String c "") = false → split_last s c = s.
Proof.
  destruct s as [|a s]; [done|].
  rewrite includes_char_cons, orb_false_iff, Ascii.eqb_sym.
  intros [Ha Hs]. simpl split_last. by rewrite Hs, Ha.
Qed.

Lemma split_last_app c s t :
  includes t (String c "") = false → split_last (s +:+ String c t) c = t.
Proof.
  intros Ht. induction s as [|a s IH]; [|rewrite string_app_cons];
    simpl split_last.
  - by rewrite Ht, Ascii.eqb_refl.
  - rewrite includes_char_app, includes_char_cons, Ascii.eqb_refl,
      orb_true_r. exact IH.
Qed.

Lemma is_digit_not_whitespace c : is_digit c = true → is_whitespace c = false.
Proof.
  unfold is_digit, is_whitespace.
  rewrite andb_true_iff, !Nat.leb_le. intros [? ?].
  rewrite !orb_false_iff, andb_false_iff, !Nat.leb_gt, !Nat.eqb_neq. lia.
Qed.

Lemma all_digits_no_char c s :
  is_digit c = false → all_digits s = true → includes s (String c "") = false.
Proof.
  intros Hc. induction s as [|a s IH]; [done|].
  simpl all_digits. rewrite andb_true_iff. intros [Ha Hs].
  rewrite includes_char_cons, IH by done.
  destruct (Ascii.eqb_spec c a) as [->|]; [congruence|done].
Qed.

Lemma all_digits_trim s : all_digits s = true → trim s = s.
Proof.
  intros Hs. unfold trim.
  assert (trimStart s = s) as ->.
  { destruct s as [|a s]; [done|]. simpl in *.
    apply andb_true_iff in Hs as [Ha _].
    by rewrite (is_digit_not_whitespace a). }
  induction s as [|a s IH]; [done|]. simpl in *.
  apply andb_true_iff in Hs as [Ha Hs]. rewrite IH by done.
  rewrite (is_digit_not_whitespace a) by done. by destruct s.
Qed.

Lemma to_lower_slash a : Ascii.eqb "/" (to_lower a) = Ascii.eqb "/" a.
Proof. by destruct a as [[] [] [] [] [] [] [] []]. Qed.

Lemma includes_slash_lowercase s :
  includes (lowercase s) "/" = includes s "/".
Proof.
  induction s as [|a s IH]; [done|].
  change (lowercase (String a s)) with (String (to_lower a) (lowercase s)).
  by rewrite !includes_char_cons, IH, to_lower_slash.
Qed.

(** An absolute URL has a slash, and does not begin with one. *)
Lemma test_http_url_slash s : test_http_url s = true → includes s "/" = true.
Proof.
  unfold test_http_url. rewrite orb_true_iff, <- includes_slash_lowercase.
  intros [H|H]; by apply (startsWith_includes_char _ _ _ H).
Qed.

Lemma startsWith_slash_not_http s :
  startsWith s "/" = true → test_http_url s = false.
Proof.
  destruct s as [|a s]; [done|]. rewrite startsWith_cons.
  rewrite andb_true_iff, Ascii.eqb_eq. by intros [<- _].
Qed.

Lemma test_version_absent s :
  includes s "?" = false → includes s "&" = false → test_version s = false.
Proof.
  induction s as [|a s IH]; [done|].
  rewrite !includes_char_cons, !orb_false_iff.
  intros [Hq Hs] [Ha Hs']. simpl test_version. rewrite IH by done.
  rewrite orb_false_r. unfold version_here.
  rewrite (Ascii.eqb_sym a "?"), (Ascii.eqb_sym a "&"), Hq, Ha.
  by destruct s as [|? [|? [|? ?]]].
Qed.

End strings.

(** ** Featured images *)

Lemma normalizeFeaturedUrl_steps (settings : SiteSettings) (input : string) :
  normalizeFeaturedUrl settings input
  = let nb := Gallery.numbered (gallery settings) in
    let folder := str_or (Numbered.folder nb) "/gallery" in
    let ext := effective_extension (Numbered.extension nb) in
    if str_truthy (trim input) then
      step_version folder (Number_toString (Gallery.assetVersion (gallery settings)))
        (step_path ext (step_shorthand folder ext (trim input)))
    else "".
Proof.
  unfold normalizeFeaturedUrl. rewrite str_or_empty, effective_extension_code.
  by destruct (str_truthy (trim input)).
Qed.

(** Case analysis on the tests of characters that are still variables. *)
Ltac bool_cases :=
  repeat match goal with
         | |- context [Ascii.eqb ?x ?y] => is_var x; destruct (Ascii.eqb x y)
         | |- context [is_digit ?x] => is_var x; destruct (is_digit x)
         end;
  done.

Section version_parameter.

Implicit Types (pre ds post v : string) (sep : ascii).

Lemma take_drop_digits s : s = take_digits s +:+ drop_digits s.
Proof.
  induction s as [|c r IH]; [done|]. simpl.
  destruct (is_digit c); [|done]. rewrite string_app_cons. by f_equal.
Qed.

Lemma all_digits_take_digits s : all_digits (take_digits s) = true.
Proof.
  induction s as [|c r IH]; [done|]. simpl.
  destruct (is_digit c) eqn:Hc; [|done]. simpl. by rewrite Hc.
Qed.

Lemma starts_with_digit_drop_digits s : starts_with_digit (drop_digits s) = false.
Proof.
  induction s as [|c r IH]; [done|]. simpl.
  destruct (is_digit c) eqn:Hc; [done|]. simpl. by rewrite Hc.
Qed.

Lemma drop_digits_app ds post :
  all_digits ds = true → starts_with_digit post = false →
  drop_digits (ds +:+ post) = post.
Proof.
  intros Hds Hpost. induction ds as [|c r IH].
  - destruct post as [|c r]; [done|]. simpl in *. by rewrite Hpost.
  - simpl in Hds. apply andb_true_iff in Hds as [Hc Hr].
    rewrite string_app_cons. simpl. rewrite Hc. by apply IH.
Qed.

Lemma test_version_cons c s :
  test_version (String c s) = version_here (String c s) || test_version s.
Proof. reflexivity. Qed.

Lemma replace_version_cons c s v :
  replace_version (String c s) v
  = if version_here (String c s)
    then String c ("v=" +:+ v +:+ drop_digits (drop_chars 2 s))
    else String c (replace_version s v).
Proof. reflexivity. Qed.

(** A match of [[?&]v=\d+] cannot begin before a separator and reach over
    it: the separator is none of [v], [=] and a digit. *)
Lemma version_here_before_separator c pre sep rest :
  sep = "?"%char ∨ sep = "&"%char →
  version_here (String c (pre +:+ String sep rest))
  = version_here (String c pre).
Proof.
  intros Hsep. unfold version_here.
  destruct pre as [|a [|b [|d r]]]; rewrite ?string_app_cons; try done;
    change ("" +:+ ?x) with x;
    destruct rest as [|c2 [|d r]]; try done;
    destruct Hsep as [-> | ->]; bool_cases.
Qed.

Lemma version_here_parameter sep ds post :
  sep = "?"%char ∨ sep = "&"%char → test_digits_only ds = true →
  version_here (String sep ("v=" +:+ ds +:+ post)) = true.
Proof.
  intros Hsep Hds. destruct ds as [|d ds]; [done|].
  unfold test_digits_only in Hds. simpl in Hds.
  apply andb_true_iff in Hds as [Hd _].
  unfold version_here. rewrite !string_app_cons. change ("" +:+ ?x) with x.
  cbv beta iota. rewrite Hd. by destruct Hsep as [-> | ->].
Qed.

(** The leftmost [v] parameter has its digits replaced by [v], and nothing
    else changes. *)
Lemma replace_version_leftmost pre sep ds post v :
  sep = "?"%char ∨ sep = "&"%char →
  test_digits_only ds = true →
  starts_with_digit post = false →
  test_version pre = false →
  test_version (pre +:+ String sep ("v=" +:+ ds +:+ post)) = true
  ∧ replace_version (pre +:+ String sep ("v=" +:+ ds +:+ post)) v
    = pre +:+ String sep ("v=" +:+ v +:+ post).
Proof.
  intros Hsep Hds Hpost Hpre. induction pre as [|c pre IH].
  - change ("" +:+ ?x) with x.
    rewrite test_version_cons, replace_version_cons.
    rewrite (version_here_parameter sep ds post) by done.
    split; [done|]. f_equal.
    change (drop_chars 2 ("v=" +:+ ds +:+ post)) with (ds +:+ post).
    rewrite drop_digits_app; [done| |done].
    unfold test_digits_only in Hds. by apply andb_true_iff in Hds as [_ ?].
  - rewrite test_version_cons in Hpre.
    apply orb_false_iff in Hpre as [Hhere Hpre].
    destruct (IH Hpre) as [IH1 IH2]. rewrite string_app_cons.
    rewrite test_version_cons, replace_version_cons.
    rewrite version_here_before_separator, Hhere by done.
    by rewrite IH1, IH2.
Qed.

(** A text the pattern matches has a leftmost [v] parameter. *)
Lemma test_version_leftmost s :
  test_version s = true →
  ∃ pre sep ds post,
    s = pre +:+ String sep ("v=" +:+ ds +:+ post)
    ∧ (sep = "?"%char ∨ sep = "&"%char)
    ∧ test_digits_only ds = true
    ∧ starts_with_digit post = false
    ∧ test_version pre = false.
Proof.
  induction s as [|c s IH]; [done|].
  rewrite test_version_cons. destruct (version_here (String c s)) eqn:Hhere.
  - intros _. unfold version_here in Hhere.
    destruct s as [|c1 [|c2 [|d rest]]]; try done.
    rewrite !andb_true_iff, orb_true_iff, !Ascii.eqb_eq in Hhere.
    destruct Hhere as [[[Hsep ->] ->] Hd].
    exists "", c, (String d (take_digits rest)), (drop_digits rest).
    split; [|split; [done|split; [|split]]].
    + change ("" +:+ ?x) with x. rewrite !string_app_cons.
      change ("" +:+ ?x) with x.
      do 4 f_equal. apply take_drop_digits.
    + unfold test_digits_only. simpl.
      by rewrite Hd, all_digits_take_digits.
    + apply starts_with_digit_drop_digits.
    + done.
  - simpl. intros (pre & sep & ds & post & -> & Hsep & Hds & Hpost & Hpre)%IH.
    exists (String c pre), sep, ds, post.
    split; [by rewrite string_app_cons|]. do 3 (split; [done|]).
    rewrite version_here_before_separator in Hhere by done.
    by rewrite test_version_cons, Hhere, Hpre.
Qed.

End version_parameter.

Section featured_steps.

Implicit Types (folder ext url name ds v : string).

Lemma startsWith_slash_not_gallery url :
  startsWith url "/" = true → startsWith url "gallery/" = false.
Proof.
  destruct url as [|a r]; [done|]. rewrite !startsWith_cons.
  rewrite andb_true_iff, Ascii.eqb_eq. by intros [<- _].
Qed.

Lemma no_slash_no_prefix url p :
  includes url "/" = false → includes p "/" = true → startsWith url p = false.
Proof.
  intros Hurl Hp. apply not_true_is_false. intros Hpre.
  by rewrite (startsWith_includes_char _ _ _ Hpre Hp) in Hurl.
Qed.

(** What has a slash is no number. *)
Lemma step_shorthand_slash folder ext url :
  includes url "/" = true → step_shorthand folder ext url = url.
Proof.
  intros Hslash. unfold step_shorthand, test_digits_only.
  destruct (all_digits url) eqn:Hdigits; [|by rewrite andb_false_r].
  by rewrite (all_digits_no_char "/" url) in Hslash.
Qed.

Lemma step_path_http ext url :
  test_http_url url = true → step_path ext url = url.
Proof. intros Hhttp. unfold step_path. by rewrite Hhttp. Qed.

(** A path from the root whose last segment has an extension stays. *)
Lemma step_path_settled ext url :
  startsWith url "/" = true → has_extension url = true →
  step_path ext url = url.
Proof.
  intros Hroot Hext. unfold step_path.
  rewrite (startsWith_slash_not_http url), (startsWith_slash_not_gallery url)
    by done.
  rewrite Hroot. cbn [negb]. rewrite str_or_empty.
  unfold has_extension in Hext.
  destruct (str_truthy (split_last (split_head url "?") "/")),
    (includes (split_last (split_head url "?") "/") "."); done.
Qed.

(** A plain file name goes to [/gallery/], with the extension when it has
    none. *)
Lemma step_path_plain_name ext name :
  name ≠ "" → plain_name name = true →
  step_path ext name
  = "/gallery/" +:+ name +:+ (if includes name "." then "" else "." +:+ ext).
Proof.
  intros Hne Hplain. unfold plain_name in Hplain.
  rewrite !andb_true_iff, !negb_true_iff in Hplain.
  destruct Hplain as [[Hslash Hquery] Hamp]. unfold step_path.
  assert (test_http_url name = false) as ->.
  { apply not_true_is_false. intros Hhttp.
    by rewrite (test_http_url_slash name) in Hslash. }
  rewrite (no_slash_no_prefix name "gallery/"),
    (no_slash_no_prefix name "/") by done.
  rewrite Hslash. cbn [negb].
  assert (includes ("/gallery/" +:+ name) "?" = false) as Hq.
  { by rewrite includes_char_app, Hquery. }
  rewrite (split_head_absent "?" _ Hq), Hq.
  change ("/gallery/" +:+ name) with ("/gallery" +:+ String "/" name).
  rewrite (split_last_app "/" "/gallery" name Hslash), str_or_empty.
  assert (str_truthy name = true) as -> by (by destruct name).
  destruct (includes name "."); cbn [negb andb].
  - by rewrite string_app_empty_r.
  - by rewrite !string_app_assoc, string_app_empty_r.
Qed.

(** An internal path without a [v] parameter and without a query gets
    [?v=]. *)
Lemma step_version_append folder v url :
  startsWith url "/gallery/" || startsWith url (folder +:+ "/") = true →
  includes url "?" = false → includes url "&" = false →
  step_version folder v url = url +:+ "?v=" +:+ v.
Proof.
  intros Hinternal Hq Ha. unfold step_version.
  by rewrite Hinternal, test_version_absent, Hq.
Qed.

Lemma step_version_external folder v url :
  startsWith url "/gallery/" || startsWith url (folder +:+ "/") = false →
  step_version folder v url = url.
Proof. intros Hexternal. unfold step_version. by rewrite Hexternal. Qed.

End featured_steps.

(** Appends in normal form: nested to the right, the literals joined. *)
Ltac string_norm :=
  repeat first
    [ rewrite string_app_assoc
    | rewrite string_app_cons
    | progress change (String.append EmptyString ?x) with x ].

Section featured_shorthands.

Context (settings : SiteSettings).

Let nb : Numbered.t := Gallery.numbered (gallery settings).
Let v : string := Number_toString (Gallery.assetVersion (gallery settings)).

Hypothesis Hfolder : Numbered.folder nb = "/gallery".
Hypothesis Hextension : Numbered.extension nb = "jpeg".

Lemma normalizeFeaturedUrl_gallery_jpeg (input : string) :
  normalizeFeaturedUrl settings input
  = if str_truthy (trim input) then
      step_version "/gallery" v
        (step_path "jpeg" (step_shorthand "/gallery" "jpeg" (trim input)))
    else "".
Proof using Hfolder Hextension.
  rewrite normalizeFeaturedUrl_steps. cbv zeta. fold nb.
  by rewrite Hfolder, Hextension.
Qed.

(** A number is the image of that number in the numbered folder. *)
Lemma featured_number (ds : string) :
  test_digits_only ds = true →
  normalizeFeaturedUrl settings ds = "/gallery/" +:+ ds +:+ ".jpeg?v=" +:+ v.
Proof using Hfolder Hextension.
  intros Hds. pose proof Hds as Hds'. unfold test_digits_only in Hds'.
  apply andb_true_iff in Hds' as [Hne Hdigits].
  rewrite normalizeFeaturedUrl_gallery_jpeg, all_digits_trim, Hne by done.
  unfold step_shorthand. rewrite Hds.
  change ("/gallery" +:+ "/" +:+ ds +:+ "." +:+ "jpeg")
    with ("/gallery" +:+ String "/" (ds +:+ ".jpeg")).
  assert (∀ c, is_digit c = false →
               includes ("/gallery" +:+ String "/" (ds +:+ ".jpeg")) (String c "")
               = includes "/gallery/.jpeg" (String c "")) as Hchars.
  { intros c Hc.
    rewrite (includes_char_app c "/gallery"),
      (includes_char_cons c "/" (ds +:+ ".jpeg")), (includes_char_app c ds).
    rewrite (all_digits_no_char c ds) by done.
    change "/gallery/.jpeg" with ("/gallery" +:+ String "/" ".jpeg").
    by rewrite (includes_char_app c "/gallery"),
      (includes_char_cons c "/" ".jpeg"). }
  rewrite step_path_settled.
  - rewrite step_version_append.
    + by string_norm.
    + done.
    + by rewrite (Hchars "?"%char).
    + by rewrite (Hchars "&"%char).
  - done.
  - unfold has_extension.
    rewrite split_head_absent by (by rewrite (Hchars "?"%char)).
    rewrite split_last_app.
    + rewrite includes_char_app. change (includes ".jpeg" ".") with true.
      by rewrite !orb_true_r.
    + rewrite includes_char_app. by rewrite (all_digits_no_char "/" ds).
Qed.

(** A plain file name is that file of [/gallery/], with the extension when
    it has none. *)
Lemma featured_plain_name (name : string) :
  trim name = name → name ≠ "" → plain_name name = true →
  test_digits_only name = false →
  normalizeFeaturedUrl settings name
  = "/gallery/" +:+ name
      +:+ (if includes name "." then "" else ".jpeg") +:+ "?v=" +:+ v.
Proof using Hfolder Hextension.
  intros Htrim Hne Hplain Hdigits.
  rewrite normalizeFeaturedUrl_gallery_jpeg, Htrim.
  assert (str_truthy name = true) as -> by (by destruct name).
  unfold step_shorthand. rewrite Hdigits, step_path_plain_name by done.
  change ("." +:+ "jpeg") with ".jpeg".
  unfold plain_name in Hplain.
  rewrite !andb_true_iff, !negb_true_iff in Hplain.
  destruct Hplain as [[Hslash Hquery] Hamp].
  rewrite step_version_append.
  - destruct (includes name "."); by string_norm.
  - by rewrite startsWith_app.
  - rewrite !includes_char_app, Hquery. by destruct (includes name ".").
  - rewrite !includes_char_app, Hamp. by destruct (includes name ".").
Qed.

(** An absolute URL stays as it is, without a version. *)
Lemma featured_absolute (url : string) :
  trim url = url → test_http_url url = true →
  normalizeFeaturedUrl settings url = url.
Proof using Hfolder Hextension.
  intros Htrim Hhttp. rewrite normalizeFeaturedUrl_gallery_jpeg, Htrim.
  assert (str_truthy url = true) as -> by (by destruct url).
  rewrite step_shorthand_slash by (by apply test_http_url_slash).
  rewrite step_path_http by done.
  apply step_version_external.
  change ("/gallery" +:+ "/") with "/gallery/". rewrite orb_diag.
  apply not_true_is_false. intros Hroot.
  apply (startsWith_prefix url "/" "gallery/") in Hroot.
  by rewrite (startsWith_slash_not_http url) in Hhttp.
Qed.

End featured_shorthands.

(** C5.  With the numbered folder [/gallery] and the extension [jpeg], at
    any asset version [v]: ["12"] becomes ["/gallery/12.jpeg?v={v}"],
    ["nails1"] becomes ["/gallery/nails1.jpeg?v={v}"], and
    ["https://cdn.x.com/a.png"] stays as it is.  So does every entry of
    the three kinds: a number is the image of that number in the numbered
    folder, a plain file name (no slash, no query) is that file of
    [/gallery/], with the extension when it has none, both at the current
    version; an absolute [http(s)] URL stays as it is, without a version. *)
Theorem featured_shorthand (settings : SiteSettings) :
  let nb := Gallery.numbered (gallery settings) in
  let v := Number_toString (Gallery.assetVersion (gallery settings)) in
  Numbered.folder nb = "/gallery" →
  Numbered.extension nb = "jpeg" →
  normalizeFeaturedUrl settings "12" = "/gallery/12.jpeg?v=" +:+ v
  ∧ normalizeFeaturedUrl settings "nails1" = "/gallery/nails1.jpeg?v=" +:+ v
  ∧ normalizeFeaturedUrl settings "https://cdn.x.com/a.png"
    = "https://cdn.x.com/a.png"
  ∧ (∀ ds, test_digits_only ds = true →
       normalizeFeaturedUrl settings ds
       = "/gallery/" +:+ ds +:+ ".jpeg?v=" +:+ v)
  ∧ (∀ name,
       trim name = name → name ≠ "" → plain_name name = true →
       test_digits_only name = false →
       normalizeFeaturedUrl settings name
       = "/gallery/" +:+ name
           +:+ (if includes name "." then "" else ".jpeg") +:+ "?v=" +:+ v)
  ∧ (∀ url,
       trim url = url → test_http_url url = true →
       normalizeFeaturedUrl settings url = url).
Proof.
  intros nb v Hfolder Hextension.
  split; [|split; [|split; [|split; [|split]]]].
  - by rewrite (featured_number settings Hfolder Hextension "12").
  - by rewrite (featured_plain_name settings Hfolder Hextension "nails1").
  - by rewrite (featured_absolute settings Hfolder Hextension
                  "https://cdn.x.com/a.png").
  - apply (featured_number settings Hfolder Hextension).
  - apply (featured_plain_name settings Hfolder Hextension).
  - apply (featured_absolute settings Hfolder Hextension).
Qed.

(** The scenarios of the specification at asset version 7. *)
Lemma featured_shorthand_version_7 :
  normalizeFeaturedUrl (at_version (Int 7)) "12" = "/gallery/12.jpeg?v=7"
  ∧ normalizeFeaturedUrl (at_version (Int 7)) "nails1"
    = "/gallery/nails1.jpeg?v=7"
  ∧ normalizeFeaturedUrl (at_version (Int 7)) "https://cdn.x.com/a.png"
    = "https://cdn.x.com/a.png".
Proof.
  destruct (featured_shorthand (at_version (Int 7)))
    as (H12 & Hnails & Hcdn & _); [reflexivity | reflexivity |].
  split; [exact H12|]. split; [exact Hnails|exact Hcdn].
Defined.

(** An internal path has a slash, so it is not empty and no number. *)
Lemma internal_has_slash (folder url : string) :
  startsWith url "/gallery/" || startsWith url (folder +:+ "/") = true →
  includes url "/" = true.
Proof.
  rewrite orb_true_iff. intros [H|H];
    apply (startsWith_includes_char _ _ _ H); [done|].
  by rewrite includes_char_app, orb_true_r.
Qed.

(** C6, as the code has it.  Take an internal featured URL (it starts with
    [/gallery/] or with the configured folder and a slash) that the
    earlier steps leave as it is: no white space around it, and either an
    absolute [http(s)] URL or a path from the root whose last segment is
    empty or has an extension.  If it has a [v] parameter, that is a
    leftmost match [sep v= ds] of [[?&]v=\d+] with [ds] the whole run of
    digits, the result is the same URL with [ds] replaced by the asset
    version, and no second [v] parameter; if it has none, [?v=] and the
    version are appended when the URL has no [?], and [&v=] and the
    version when it has one. *)
Theorem featured_version_replaced_or_appended
    (settings : SiteSettings) (url : string) :
  let folder :=
    str_or (Numbered.folder (Gallery.numbered (gallery settings))) "/gallery" in
  let v := Number_toString (Gallery.assetVersion (gallery settings)) in
  trim url = url →
  startsWith url "/gallery/" || startsWith url (folder +:+ "/") = true →
  test_http_url url = true
  ∨ (startsWith url "/" = true ∧ has_extension url = true) →
  (test_version url = true →
   ∃ pre sep ds post,
     url = pre +:+ String sep ("v=" +:+ ds +:+ post)
     ∧ (sep = "?"%char ∨ sep = "&"%char)
     ∧ test_digits_only ds = true
     ∧ starts_with_digit post = false
     ∧ test_version pre = false
     ∧ normalizeFeaturedUrl settings url
       = pre +:+ String sep ("v=" +:+ v +:+ post))
  ∧ (test_version url = false →
     normalizeFeaturedUrl settings url
     = url +:+ (if includes url "?" then "&v=" else "?v=") +:+ v).
Proof.
  intros folder v Htrim Hinternal Hsettled.
  pose proof (internal_has_slash folder url Hinternal) as Hslash.
  assert (normalizeFeaturedUrl settings url
          = if test_version url then replace_version url v
            else url +:+ (if includes url "?" then "&v=" +:+ v
                          else "?v=" +:+ v)) as Hrun.
  { rewrite normalizeFeaturedUrl_steps. cbv zeta. fold folder v.
    rewrite Htrim.
    assert (str_truthy url = true) as -> by (by destruct url).
    rewrite step_shorthand_slash by done.
    assert (step_path
              (effective_extension
                 (Numbered.extension (Gallery.numbered (gallery settings))))
              url = url) as ->.
    { destruct Hsettled as [Hhttp|[Hroot Hext]];
        [by apply step_path_http|by apply step_path_settled]. }
    unfold step_version. by rewrite Hinternal. }
  split.
  - intros Hversion.
    destruct (test_version_leftmost url Hversion)
      as (pre & sep & ds & post & Hurl & Hsep & Hds & Hpost & Hpre).
    exists pre, sep, ds, post. do 5 (split; [done|]).
    rewrite Hrun, Hversion, Hurl.
    by apply replace_version_leftmost.
  - intros Hversion. rewrite Hrun, Hversion.
    by destruct (includes url "?").
Qed.

(** The scenario of the specification: a URL with [?v=3], at asset
    version 5. *)
Lemma featured_version_3_to_5 :
  (∃ pre sep ds post,
     "/gallery/nails1.jpeg?v=3" = pre +:+ String sep ("v=" +:+ ds +:+ post)
     ∧ test_digits_only ds = true
     ∧ starts_with_digit post = false
     ∧ normalizeFeaturedUrl (at_version (Int 5)) "/gallery/nails1.jpeg?v=3"
       = pre +:+ String sep ("v=" +:+ "5" +:+ post))
  ∧ normalizeFeaturedUrl (at_version (Int 5)) "/gallery/nails1.jpeg"
    = "/gallery/nails1.jpeg?v=5".
Proof.
  split.
  - destruct (featured_version_replaced_or_appended (at_version (Int 5))
                "/gallery/nails1.jpeg?v=3")
      as [Hreplace _]; [reflexivity | reflexivity | right; by split |].
    destruct (Hreplace eq_refl)
      as (pre & sep & ds & post & Hurl & _ & Hds & Hpost & _ & Hrun).
    exists pre, sep, ds, post. split; [exact Hurl|]. split; [exact Hds|].
    split; [exact Hpost|exact Hrun].
  - destruct (featured_version_replaced_or_appended (at_version (Int 5))
                "/gallery/nails1.jpeg")
      as [_ Happend]; [reflexivity | reflexivity | right; by split |].
    rewrite (Happend eq_refl). reflexivity.
Defined.

Example featured_version_3_to_5_value :
  normalizeFeaturedUrl (at_version (Int 5)) "/gallery/nails1.jpeg?v=3"
  = "/gallery/nails1.jpeg?v=5"
  ∧ normalizeFeaturedUrl (at_version (Int 5)) "/gallery/a.png?x=1"
    = "/gallery/a.png?x=1&v=5"
  ∧ normalizeFeaturedUrl (at_version (Int 5)) "/gallery/foo?v=3"
    = "/gallery/foo.jpeg?v=5".
Proof. by vm_compute. Qed.

(** The same for any entry, about the path the earlier steps make of it:
    when that path is internal, its leftmost [v] parameter is set to the
    asset version, or the version is appended. *)
Lemma normalizeFeaturedUrl_version_of_path
    (settings : SiteSettings) (input : string) :
  let folder :=
    str_or (Numbered.folder (Gallery.numbered (gallery settings))) "/gallery" in
  let ext :=
    effective_extension
      (Numbered.extension (Gallery.numbered (gallery settings))) in
  let v := Number_toString (Gallery.assetVersion (gallery settings)) in
  let path := step_path ext (step_shorthand folder ext (trim input)) in
  trim input ≠ "" →
  startsWith path "/gallery/" || startsWith path (folder +:+ "/") = true →
  (test_version path = true →
   ∃ pre sep ds post,
     path = pre +:+ String sep ("v=" +:+ ds +:+ post)
     ∧ (sep = "?"%char ∨ sep = "&"%char)
     ∧ test_digits_only ds = true
     ∧ starts_with_digit post = false
     ∧ test_version pre = false
     ∧ normalizeFeaturedUrl settings input
       = pre +:+ String sep ("v=" +:+ v +:+ post))
  ∧ (test_version path = false →
     normalizeFeaturedUrl settings input
     = path +:+ (if includes path "?" then "&v=" else "?v=") +:+ v).
Proof.
  intros folder ext v path Hne Hinternal.
  assert (normalizeFeaturedUrl settings input
          = if test_version path then replace_version path v
            else path +:+ (if includes path "?" then "&v=" +:+ v
                           else "?v=" +:+ v)) as Hrun.
  { rewrite normalizeFeaturedUrl_steps. cbv zeta. fold folder ext v path.
    assert (str_truthy (trim input) = true) as ->
      by (by destruct (trim input)).
    unfold step_version. by rewrite Hinternal. }
  split.
  - intros Hversion.
    destruct (test_version_leftmost path Hversion)
      as (pre & sep & ds & post & Hpath & Hsep & Hds & Hpost & Hpre).
    exists pre, sep, ds, post. do 5 (split; [done|]).
    rewrite Hrun, Hversion, Hpath.
    by apply replace_version_leftmost.
  - intros Hversion. rewrite Hrun, Hversion.
    by destruct (includes path "?").
Qed.

(** C6 as the specification words it, for every internal URL with a [v]
    parameter, fails on a path without an extension: the extension is
    put in as well. *)
Lemma featured_version_without_extension_fails :
  ¬ (∀ (settings : SiteSettings) (pre ds post : string) (sep : ascii),
       let url := pre +:+ String sep ("v=" +:+ ds +:+ post) in
       let folder :=
         str_or (Numbered.folder (Gallery.numbered (gallery settings)))
           "/gallery" in
       startsWith url "/gallery/" || startsWith url (folder +:+ "/") = true →
       sep = "?"%char ∨ sep = "&"%char →
       test_digits_only ds = true →
       starts_with_digit post = false →
       test_version pre = false →
       normalizeFeaturedUrl settings url
       = pre +:+ String sep
           ("v=" +:+ Number_toString (Gallery.assetVersion (gallery settings))
            +:+ post)).
Proof.
  intros H.
  specialize (H (at_version (Int 5)) "/gallery/foo" "3" "" "?"%char
                eq_refl (or_introl eq_refl) eq_refl eq_refl eq_refl).
  vm_compute in H. discriminate H.
Qed.

(** ** The settings store *)

(** *** Properties of objects *)

Section object_properties.

Implicit Types (ps target source : props) (k : string) (v : value).

Lemma get_prop_set_prop k v ps k' :
  get_prop (set_prop k v ps) k'
  = if String.eqb k k' then v else get_prop ps k'.
Proof.
  induction ps as [|[k0 v0] ps IH]; simpl.
  - by destruct (String.eqb k k').
  - destruct (String.eqb_spec k0 k) as [->|Hne]; simpl.
    + by destruct (String.eqb k k').
    + rewrite IH. destruct (String.eqb_spec k k') as [->|]; [|done].
      by rewrite (proj2 (String.eqb_neq k0 k')).
Qed.


Lemma assign_cons target k v source :
  assign target ((k, v) :: source) = assign (set_prop k v target) source.
Proof. reflexivity. Qed.


(** A spread of nothing changes nothing. *)
Lemma assign_nil target : assign target [] = target.
Proof. reflexivity. Qed.

End object_properties.

(** *** Merging *)

Lemma JSON_data_DEFAULTS :
  JSON_data DEFAULTS = Some (json_of_settings DEFAULT_SITE_SETTINGS).
Proof. reflexivity. Qed.

Lemma deepClone_DEFAULTS (n : addr) :
  deepClone DEFAULTS n
  = (Some (JSON_build (json_of_settings DEFAULT_SITE_SETTINGS) n).1,
     (JSON_build (json_of_settings DEFAULT_SITE_SETTINGS) n).2).
Proof.
  unfold deepClone. rewrite JSON_data_DEFAULTS.
  by destruct (JSON_build _ n).
Qed.

(** Running [mergeSettings] on a truthy document: the allocations done,
    the result is an explicit object. *)
Ltac merge_run H :=
  unfold mergeSettings; rewrite H; cbn [negb];
  unfold bind, new_object; cbv beta iota zeta.

(** Reading a property of an object literal. *)
Ltac read_props :=
  repeat first
    [ rewrite assign_cons
    | rewrite assign_nil
    | rewrite get_prop_set_prop
    | progress cbn [prop get_prop fold_left literal fst snd
                    String.eqb Ascii.eqb Bool.eqb] ].

Lemma opt_prop_defined (v : value) (k : string) :
  nullish (opt_prop v k) = false → opt_prop v k = prop v k.
Proof. unfold opt_prop. by destruct (nullish v). Qed.

Lemma array_not_nullish (v : value) : Array_isArray v = true → nullish v = false.
Proof. by destruct v. Qed.

Lemma number_not_nullish (v : value) : typeof_number v = true → nullish v = false.
Proof. by destruct v. Qed.

Lemma opt_prop_nullish (v : value) (k : string) :
  nullish v = true → opt_prop v k = VUndefined.
Proof. unfold opt_prop. by intros ->. Qed.

(** The section [k] of a merged document, when the incoming document has
    no such section: as data, the section of the defaults. *)
Lemma merge_absent_section (partial : value) (n : addr) (k : string) :
  k ∈ sections →
  nullish (prop partial k) = true →
  ∃ r n',
    mergeSettings partial n = (Some r, n')
    ∧ JSON_data (prop r k) = JSON_data (prop DEFAULTS k).
Proof.
  intros Hk Hnull. destruct (truthy partial) eqn:Htruthy.
  - merge_run Htruthy. eexists _, _. split; [reflexivity|].
    unfold sections in Hk.
    repeat (apply elem_of_cons in Hk as [->|Hk]);
      [..|by apply elem_of_nil in Hk];
      read_props; revert Hnull;
      match goal with
      | |- nullish ?section = true → _ => by destruct section
      end.
  - unfold mergeSettings. rewrite Htruthy. cbn [negb].
    rewrite deepClone_DEFAULTS. eexists _, _. split; [reflexivity|].
    unfold sections in Hk.
    repeat (apply elem_of_cons in Hk as [->|Hk]);
      [..|by apply elem_of_nil in Hk]; reflexivity.
Qed.

(** C3.  Merging the document [{ contact: { email: "a@b.com" } }], wherever
    its two objects live, gives as data the default document with that
    e-mail address and nothing else changed.  And whatever document is
    merged, a section it does not have (or has as [null]) is, as data, the
    section of the defaults. *)
Theorem merge_heals_from_defaults :
  (∀ (a b n : addr),
     ∃ r n',
       mergeSettings
         (VObj a [("contact", VObj b [("email", VStr "a@b.com")])]) n
       = (Some r, n')
       ∧ JSON_data r
         = Some (json_of_settings (with_email "a@b.com" DEFAULT_SITE_SETTINGS)))
  ∧ (∀ (partial : value) (n : addr) (k : string),
       k ∈ sections →
       nullish (prop partial k) = true →
       ∃ r n',
         mergeSettings partial n = (Some r, n')
         ∧ JSON_data (prop r k) = JSON_data (prop DEFAULTS k)).
Proof.
  split.
  - intros a b n. eexists _, _. split; [by vm_compute|]. by vm_compute.
  - apply merge_absent_section.
Qed.

(** A document with nothing but a phone number keeps the default gallery. *)
Lemma merge_heals_from_defaults_phone :
  ∃ r n',
    mergeSettings
      (VObj 20%nat [("contact", VObj 21%nat [("phoneTel", VStr "+27110000000")])])
      22%nat
    = (Some r, n')
    ∧ JSON_data (prop r "gallery") = JSON_data (prop DEFAULTS "gallery").
Proof.
  destruct merge_heals_from_defaults as [_ Hsections].
  apply (Hsections _ 22%nat "gallery").
  - unfold sections. rewrite !elem_of_cons. by do 4 right; left.
  - reflexivity.
Defined.

(** A field the merge checks: the incoming value when it has the shape, the
    default otherwise. *)
Lemma checked_field (shape : value → bool) (incoming direct fallback : value) :
  (shape incoming = true → direct = incoming) →
  shape fallback = true →
  shape (if shape incoming then direct else fallback) = true
  ∧ (shape incoming = false →
     (if shape incoming then direct else fallback) = fallback).
Proof.
  intros Hdirect Hfallback. destruct (shape incoming) eqn:Hshape.
  - split; [|done]. by rewrite Hdirect.
  - done.
Qed.

(** The fields of the settings that [mergeSettings] checks: the four
    arrays [promotions.items], [gallery.featuredNails.imageUrls],
    [gallery.numbered.order] and [gallery.customImages], and the number
    [gallery.assetVersion].  Whatever comes in, each of them has its shape
    in the merged document, and is the default when what came in had
    not. *)
Lemma merge_checked_fields (partial : value) (n : addr) :
  let s_gallery := prop partial "gallery" in
  let d_gallery := prop DEFAULTS "gallery" in
  ∃ r n',
    mergeSettings partial n = (Some r, n')
    ∧ Array_isArray (prop (prop r "promotions") "items") = true
    ∧ Array_isArray (prop (prop (prop r "gallery") "featuredNails") "imageUrls")
      = true
    ∧ Array_isArray (prop (prop (prop r "gallery") "numbered") "order") = true
    ∧ Array_isArray (prop (prop r "gallery") "customImages") = true
    ∧ typeof_number (prop (prop r "gallery") "assetVersion") = true
    ∧ (truthy partial = true →
       (Array_isArray (opt_prop (prop partial "promotions") "items") = false →
        prop (prop r "promotions") "items"
        = prop (prop DEFAULTS "promotions") "items")
       ∧ (Array_isArray
            (opt_prop (opt_prop s_gallery "featuredNails") "imageUrls") = false →
          prop (prop (prop r "gallery") "featuredNails") "imageUrls"
          = prop (prop d_gallery "featuredNails") "imageUrls")
       ∧ (Array_isArray (opt_prop (opt_prop s_gallery "numbered") "order")
          = false →
          prop (prop (prop r "gallery") "numbered") "order"
          = prop (prop d_gallery "numbered") "order")
       ∧ (Array_isArray (opt_prop s_gallery "customImages") = false →
          prop (prop r "gallery") "customImages"
          = prop d_gallery "customImages")
       ∧ (typeof_number (opt_prop s_gallery "assetVersion") = false →
          prop (prop r "gallery") "assetVersion" = VNum (Int 1))).
Proof.
  intros s_gallery d_gallery. destruct (truthy partial) eqn:Htruthy.
  - merge_run Htruthy. eexists _, _. split; [reflexivity|].
    assert (∀ v k, Array_isArray (opt_prop v k) = true →
                   nullish v = false) as Hbase.
    { intros v k. unfold opt_prop. by destruct (nullish v). }
    pose proof
      (checked_field Array_isArray
         (opt_prop (prop partial "promotions") "items")
         (prop (prop partial "promotions") "items")
         (prop (prop DEFAULTS "promotions") "items")) as [H1 H1'];
      [intros H; symmetry; by apply opt_prop_defined, array_not_nullish
      |done|].
    pose proof
      (checked_field Array_isArray
         (opt_prop (opt_prop s_gallery "featuredNails") "imageUrls")
         (prop (prop s_gallery "featuredNails") "imageUrls")
         (prop (prop d_gallery "featuredNails") "imageUrls")) as [H2 H2'];
      [|done|].
    { intros H. rewrite (opt_prop_defined _ "imageUrls")
        by (by apply array_not_nullish).
      f_equal. symmetry. apply opt_prop_defined. by apply (Hbase _ _ H). }
    pose proof
      (checked_field Array_isArray
         (opt_prop (opt_prop s_gallery "numbered") "order")
         (prop (prop s_gallery "numbered") "order")
         (prop (prop d_gallery "numbered") "order")) as [H3 H3'];
      [|done|].
    { intros H. rewrite (opt_prop_defined _ "order")
        by (by apply array_not_nullish).
      f_equal. symmetry. apply opt_prop_defined. by apply (Hbase _ _ H). }
    pose proof
      (checked_field Array_isArray
         (opt_prop s_gallery "customImages")
         (prop s_gallery "customImages")
         (prop d_gallery "customImages")) as [H4 H4'];
      [intros H; symmetry; by apply opt_prop_defined, array_not_nullish
      |done|].
    pose proof
      (checked_field typeof_number
         (opt_prop s_gallery "assetVersion")
         (prop s_gallery "assetVersion")
         (prop d_gallery "assetVersion")) as [H5 H5'];
      [intros H; symmetry; by apply opt_prop_defined, number_not_nullish
      |done|].
    repeat split; intros; read_props; auto.
  - unfold mergeSettings. rewrite Htruthy. cbn [negb].
    rewrite deepClone_DEFAULTS. eexists _, _. split; [reflexivity|].
    repeat split; done.
Qed.

(** C4 at the one array the merge does not check.  A document whose
    [contact.addressLines] is the string ["x"] is merged into settings
    whose [contact.addressLines] is that string: no array, and not the
    default, which is the array of the three lines of the address. *)
Theorem merge_keeps_malformed_addressLines (a b n : addr) :
  ∃ r n',
    mergeSettings
      (VObj a [("contact", VObj b [("addressLines", VStr "x")])]) n
    = (Some r, n')
    ∧ prop (prop r "contact") "addressLines" = VStr "x"
    ∧ Array_isArray (prop (prop r "contact") "addressLines") = false
    ∧ prop (prop DEFAULTS "contact") "addressLines"
      = VArr 2%nat [ VStr "248 Ben Viljoen St";
                     VStr "Pretoria North, Pretoria, 0116";
                     VStr "South Africa" ].
Proof. eexists _, _. split; [by vm_compute|]. by vm_compute. Qed.

(** *** Identity *)

Lemma addrs_set_prop (k : string) (v : value) (ps : props) (a : addr) :
  a ∈ addrs_of_props (set_prop k v ps) →
  a ∈ addrs v ∨ a ∈ addrs_of_props ps.
Proof.
  induction ps as [|[k0 v0] ps IH]; simpl.
  - rewrite app_nil_r. by left.
  - destruct (String.eqb k0 k); simpl; rewrite !elem_of_app; naive_solver.
Qed.

Lemma addrs_assign (target source : props) (a : addr) :
  a ∈ addrs_of_props (assign target source) →
  a ∈ addrs_of_props target ∨ a ∈ addrs_of_props source.
Proof.
  revert target. induction source as [|[k v] source IH]; intros target.
  - by left.
  - rewrite assign_cons. intros [Ha|Ha]%IH.
    + apply addrs_set_prop in Ha as [Ha|Ha]; [|by left].
      right. simpl. rewrite elem_of_app. by left.
    + right. simpl. rewrite elem_of_app. by right.
Qed.

(** Threading a function that allocates above the address it is given
    allocates above the address it is given. *)
Lemma thread_fresh {A B} (f : A → addr → B * addr) (held : B → list addr)
    (xs : list A) (n : addr) :
  Forall (λ x, ∀ m, (m ≤ (f x m).2)%nat
                    ∧ ∀ a, a ∈ held (f x m).1 → (m ≤ a < (f x m).2)%nat) xs →
  (n ≤ (thread f xs n).2)%nat
  ∧ ∀ a, a ∈ flat_map held (thread f xs n).1 →
         (n ≤ a < (thread f xs n).2)%nat.
Proof.
  intros Hxs. revert n. induction Hxs as [|x r Hx _ IH]; intros n; simpl.
  - split; [done|]. by intros a ?%elem_of_nil.
  - destruct (Hx n) as [Hle Hin]. destruct (f x n) as [y n1]. simpl in *.
    destruct (IH n1) as [Hle' Hin']. destruct (thread f r n1) as [ys n2].
    simpl in *. split; [lia|]. intros a [Ha|Ha]%elem_of_app.
    + apply Hin in Ha. lia.
    + apply Hin' in Ha. lia.
Qed.

(** Every object and array [JSON.parse] builds is new: its address is at
    or above the first free one. *)
Lemma JSON_build_fresh (j : json) (n : addr) :
  (n ≤ (JSON_build j n).2)%nat
  ∧ ∀ a, a ∈ addrs (JSON_build j n).1 → (n ≤ a < (JSON_build j n).2)%nat.
Proof.
  revert n. induction j as [|b|x|s|js IH|ms IH] using json_ind; intros n;
    try (split; [done|]; by intros a ?%elem_of_nil).
  - simpl. pose proof (thread_fresh JSON_build addrs js (S n) IH) as [Hle Hin].
    destruct (thread JSON_build js (S n)) as [vs n']. simpl in *.
    split; [lia|]. intros a [->|Ha]%elem_of_cons; [lia|].
    apply Hin in Ha. lia.
  - simpl.
    pose proof
      (thread_fresh
         (λ m k, let (v, k') := JSON_build (snd m) k in ((fst m, v), k'))
         (λ kv : string * value, addrs (snd kv)) ms (S n)) as Hthread.
    destruct Hthread as [Hle Hin].
    { eapply Forall_impl; [exact IH|]. intros m Hm k.
      destruct (Hm k) as [Hle Hin]. by destruct (JSON_build (snd m) k). }
    destruct (thread _ ms (S n)) as [ps n']. simpl in *.
    split; [lia|]. intros a [->|Ha]%elem_of_cons; [lia|].
    apply addrs_assign in Ha as [Ha|Ha]; [by apply elem_of_nil in Ha|].
    apply Hin in Ha. lia.
Qed.

(** A write to an object that a value does not reach is not seen through
    that value. *)
Lemma update_unreached (a : addr) (fo : props → props)
    (fa : list value → list value) (v : value) :
  a ∉ addrs v → update a fo fa v = v.
Proof.
  induction v as [| |c|x|s|b xs IH|b ps IH] using value_ind; try done.
  - simpl. rewrite not_elem_of_cons. intros [Hne Hxs].
    rewrite (proj2 (Nat.eqb_neq a b)) by done. f_equal.
    induction IH as [|x r Hx _ IHr]; [done|]. simpl in *.
    rewrite elem_of_app in Hxs. f_equal; [apply Hx|apply IHr]; naive_solver.
  - simpl. rewrite not_elem_of_cons. intros [Hne Hps].
    rewrite (proj2 (Nat.eqb_neq a b)) by done. f_equal.
    induction IH as [|[k x] r Hx _ IHr]; [done|]. simpl in *.
    rewrite elem_of_app in Hps. f_equal; [f_equal; apply Hx|apply IHr];
      naive_solver.
Qed.

(** The defaults live below the first address free after them. *)
Lemma addrs_DEFAULTS (a : addr) : a ∈ addrs DEFAULTS → (a < first_free)%nat.
Proof.
  pose proof (JSON_build_fresh (json_of_settings DEFAULT_SITE_SETTINGS) 0%nat)
    as [_ Hin].
  intros Ha. destruct (Hin a Ha) as [_ Hlt]. exact Hlt.
Qed.

(** *** Completeness *)








(** *** Written and read back *)

Section written_and_read.

Implicit Types (ps target source : props) (k : string) (v : value) (j : json).

Lemma set_prop_new k v ps :
  k ∉ List.map fst ps → set_prop k v ps = (ps ++ [(k, v)])%list.
Proof.
  induction ps as [|[k0 v0] ps IH]; [done|]. simpl.
  rewrite not_elem_of_cons. intros [Hne Hps].
  rewrite (proj2 (String.eqb_neq k0 k)) by done. by rewrite IH.
Qed.

(** Spreading properties with new keys, each once, appends them. *)
Lemma assign_distinct target source :
  NoDup (List.map fst (target ++ source)%list) →
  assign target source = (target ++ source)%list.
Proof.
  revert target. induction source as [|[k v] source IH]; intros target Hkeys.
  - by rewrite app_nil_r.
  - rewrite assign_cons. rewrite (cons_middle _ target), app_assoc in Hkeys |- *.
    rewrite set_prop_new; [by apply IH|].
    rewrite !List.map_app in Hkeys.
    apply NoDup_app in Hkeys as [Hkeys _].
    apply NoDup_app in Hkeys as (_ & Hk & _). intros Hin.
    apply (Hk k Hin). simpl. by left.
Qed.

(** What is written for an object: its defined properties, in order. *)
Lemma JSON_data_VObj (a : addr) ps :
  JSON_data (VObj a ps)
  = Some (JObj (omap (λ kv, pair (fst kv) <$> JSON_data (snd kv)) ps)).
Proof.
  simpl. do 2 f_equal. induction ps as [|[k x] ps IH]; [done|].
  simpl. rewrite IH. by destruct (JSON_data x).
Qed.

Lemma thread_elements (js : list json) (n : addr) :
  Forall (λ j, ∀ m, JSON_data (JSON_build j m).1 = Some j) js →
  List.map (λ x, default JNull (JSON_data x)) (thread JSON_build js n).1 = js.
Proof.
  intros Hjs. revert n. induction Hjs as [|j r Hj _ IH]; intros n; [done|].
  simpl. specialize (Hj n). destruct (JSON_build j n) as [x n1].
  specialize (IH n1). destruct (thread JSON_build r n1) as [xs n2].
  simpl in *. by rewrite Hj, IH.
Qed.

Lemma thread_members (ms : list (string * json)) (n : addr) :
  Forall (λ m, ∀ i : addr, JSON_data (JSON_build (snd m) i).1 = Some (snd m)) ms →
  let ps :=
    (thread (λ m (i : addr), let (x, i') := JSON_build (snd m) i in
                            ((fst m, x), i'))
       ms n).1 in
  List.map fst ps = List.map fst ms
  ∧ omap (λ kv : string * value, pair (fst kv) <$> JSON_data (snd kv)) ps = ms.
Proof.
  intros Hms. revert n. induction Hms as [|[k j] r Hj _ IH]; intros n; [done|].
  simpl. specialize (Hj n). simpl in Hj. destruct (JSON_build j n) as [x n1].
  specialize (IH n1). simpl in IH.
  destruct (thread _ r n1) as [xs n2]. simpl in *.
  destruct IH as [Hkeys Hdata]. rewrite Hkeys. split; [done|].
  cbn [omap list_omap fst snd]. rewrite Hj. simpl. f_equal. exact Hdata.
Qed.

(** Reading back what was written: the objects [JSON.parse] builds for a
    document hold that document. *)
Lemma JSON_round_trip j (n : addr) :
  json_finite j = true → json_distinct j = true →
  JSON_data (JSON_build j n).1 = Some j.
Proof.
  revert n. induction j as [|b|x|s|js IH|ms IH] using json_ind;
    intros n Hfinite Hdistinct; try done.
  - simpl in *. by rewrite Hfinite.
  - simpl in Hfinite, Hdistinct.
    rewrite forallb_forall in Hfinite, Hdistinct.
    pose proof (thread_elements js (S n)) as Hjs. simpl.
    destruct (thread JSON_build js (S n)) as [vs n']. simpl in *.
    rewrite Hjs; [done|]. rewrite Forall_forall in IH |- *.
    intros j Hj m.
    apply IH; [done|apply Hfinite|apply Hdistinct]; by apply list_elem_of_In.
  - simpl in Hfinite, Hdistinct.
    apply andb_true_iff in Hdistinct as [Hkeys Hdistinct].
    apply bool_decide_eq_true in Hkeys.
    rewrite forallb_forall in Hfinite, Hdistinct.
    pose proof (thread_members ms (S n)) as Hms. cbn [JSON_build].
    destruct (thread _ ms (S n)) as [ps n']. cbn [fst] in *.
    destruct Hms as [Hfst Hdata].
    { rewrite Forall_forall in IH |- *. intros m Hm k.
      apply IH; [done|apply Hfinite|apply Hdistinct]; by apply list_elem_of_In. }
    rewrite assign_distinct by (by rewrite app_nil_l, Hfst).
    by rewrite app_nil_l, JSON_data_VObj, Hdata.
Qed.

(** What is written has finite numbers only. *)
Lemma JSON_data_finite v j : JSON_data v = Some j → json_finite j = true.
Proof.
  revert j. induction v as [| |c|x|s|b xs IH|b ps IH] using value_ind;
    intros j Hj; try (by injection Hj as <-); try done.
  - simpl in Hj. injection Hj as <-. by destruct (Number_isFinite x) eqn:Hx.
  - simpl in Hj. injection Hj as <-. simpl. apply forallb_forall.
    intros j [x [<- Hx]]%in_map_iff. apply list_elem_of_In in Hx.
    rewrite Forall_forall in IH. specialize (IH x Hx).
    destruct (JSON_data x) as [j|]; [by apply IH|done].
  - rewrite JSON_data_VObj in Hj. injection Hj as <-. simpl.
    apply forallb_forall. intros [k j] Hm.
    apply list_elem_of_In, list_elem_of_omap in Hm as ([k' x] & Hx & Hdata).
    rewrite Forall_forall in IH. specialize (IH _ Hx). simpl in *.
    destruct (JSON_data x) as [j'|]; [|done]. injection Hdata as <- <-.
    by apply IH.
Qed.

Lemma written_keys ps :
  sublist
    (List.map fst
       (omap (λ kv : string * value, pair (fst kv) <$> JSON_data (snd kv)) ps))
    (List.map fst ps).
Proof.
  induction ps as [|[k x] ps IH]; [done|]. simpl.
  destruct (JSON_data x); simpl; by constructor.
Qed.

(** What is written for an object without repeated keys has none. *)
Lemma JSON_data_distinct v j :
  distinct_keys v = true → JSON_data v = Some j → json_distinct j = true.
Proof.
  revert j. induction v as [| |c|x|s|b xs IH|b ps IH] using value_ind;
    intros j Hv Hj; try (by injection Hj as <-); try done.
  - simpl in Hj. injection Hj as <-. by destruct (Number_isFinite x).
  - simpl in Hj, Hv. injection Hj as <-. simpl. apply forallb_forall.
    rewrite forallb_forall in Hv.
    intros j [x [<- Hx]]%in_map_iff. rewrite Forall_forall in IH.
    pose proof (Hv x Hx) as Hkeys. apply list_elem_of_In in Hx.
    specialize (IH x Hx).
    destruct (JSON_data x) as [j|]; [by apply IH|done].
  - rewrite JSON_data_VObj in Hj. injection Hj as <-. simpl in Hv |- *.
    apply andb_true_iff in Hv as [Hkeys Hv].
    apply bool_decide_eq_true in Hkeys. rewrite forallb_forall in Hv.
    apply andb_true_iff. split.
    + apply bool_decide_eq_true. exact (sublist_NoDup _ _ Hkeys (written_keys ps)).
    + apply forallb_forall. intros [k j] Hm.
      apply list_elem_of_In, list_elem_of_omap in Hm as ([k' x] & Hx & Hdata).
      pose proof (Hv (k', x) (proj1 (list_elem_of_In _ _) Hx)) as Hkv.
      rewrite Forall_forall in IH. specialize (IH _ Hx). simpl in *.
      destruct (JSON_data x) as [j'|]; [|done]. injection Hdata as <- <-.
      by apply IH.
Qed.

End written_and_read.

Lemma thread_leaves {A} (f : A → json) (g : A → value) (xs : list A)
    (n : addr) :
  (∀ x i, JSON_build (f x) i = (g x, i)) →
  thread JSON_build (List.map f xs) n = (List.map g xs, n).
Proof.
  intros Hleaf. induction xs as [|x r IH]; [done|].
  cbn [List.map thread]. fold (thread JSON_build). by rewrite Hleaf, IH.
Qed.

Lemma JSON_data_strings (l : list string) :
  List.map (λ x, default JNull (JSON_data x)) (List.map VStr l)
  = List.map JStr l.
Proof. rewrite List.map_map. by apply List.map_ext. Qed.

Lemma JSON_data_numbers (l : list number) :
  forallb json_finite (List.map JNum l) = true →
  List.map (λ x, default JNull (JSON_data x)) (List.map VNum l)
  = List.map JNum l.
Proof.
  intros Hl. rewrite List.map_map. apply List.map_ext_in. intros x Hx.
  rewrite forallb_forall in Hl. specialize (Hl (JNum x) (in_map JNum _ _ Hx)).
  simpl in *. by rewrite Hl.
Qed.

Lemma json_of_promotion_round_trip (p : Promotion.t) (n : addr) :
  JSON_data (JSON_build (json_of_promotion p) n).1 = Some (json_of_promotion p).
Proof. reflexivity. Qed.

(** Merging a complete document that was read from a text changes
    nothing: the merged settings hold the document. *)
Lemma mergeSettings_complete_document (s : SiteSettings) (n0 n : addr) :
  json_finite (json_of_settings s) = true →
  ∃ r n',
    mergeSettings (JSON_build (json_of_settings s) n0).1 n = (Some r, n')
    ∧ JSON_data r = Some (json_of_settings s).
Proof.
  destruct s as [[lines mapUrl phoneDisplay phoneTel whatsapp email hours]
                 [instagram facebook]
                 [heroVideo heroPoster heroFit heroPosition]
                 [p_enabled items]
                 [version mode initialCount pageSize tileFit
                    [fn_enabled fn_title imageUrls]
                    [fv_enabled fv_url fv_poster fv_title]
                    [folder start end_ extension order]
                    customImages]].
  unfold json_of_settings, json_of_contact, json_of_socials, json_of_media,
    json_of_promotions, json_of_gallery, json_of_featuredNails,
    json_of_featuredVideo, json_of_numbered, json_of_strings, json_of_fit,
    json_of_mode.
  cbn -[JSON_build thread assign json_finite mergeSettings JSON_data].
  intros Hfinite. cbn [json_finite forallb snd] in Hfinite.
  rewrite !andb_true_iff in Hfinite. destruct_and!.
  cbn [JSON_build thread fst snd].
  rewrite !(thread_leaves JStr VStr) by done.
  pose proof (thread_elements (List.map json_of_promotion items)
                (S (S (S (S (S (S (S n0)))))))) as Hpromos.
  destruct (thread JSON_build (List.map json_of_promotion items) _)
    as [promos n1].
  rewrite !(thread_leaves JStr VStr) by done.
  rewrite !(thread_leaves JNum VNum) by done.
  rewrite !(thread_leaves JStr VStr) by done.
  cbn [assign fold_left set_prop fst snd String.eqb Ascii.eqb Bool.eqb].
  unfold mergeSettings. cbn [truthy negb]. unfold bind, new_object.
  cbv beta iota zeta.
  eexists _, _. split; [reflexivity|].
  cbn. cbn [fst] in Hpromos.
  rewrite !JSON_data_strings, JSON_data_numbers by done.
  rewrite Hpromos
    by (apply Forall_forall; intros j [p [<- _]]%list_elem_of_In%in_map_iff m;
        apply json_of_promotion_round_trip).
  repeat match goal with
         | H : Number_isFinite _ = true |- _ => rewrite H; clear H
         end.
  reflexivity.
Qed.

(** *** Loading *)





Example load_null_email :
  ∃ r n',
    loadFromLocalStorage parse_null_email
      {[ STORAGE_KEY := null_email_text ]} first_free
    = (Some r, n')
    ∧ covers (json_of_settings DEFAULT_SITE_SETTINGS) r = true
    ∧ prop (prop r "contact") "email" = VNull
    ∧ prop (prop DEFAULTS "contact") "email" = VStr "info@berlybeauty.co.za".
Proof.
  eexists _, _. split; [by vm_compute|]. split; by vm_compute.
Qed.

(** The deep copy is of the defaults alone.  Settings merged from a cached
    document are new objects around the arrays of the defaults: loaded
    from the cache [{}], they hold the array of address lines of the
    defaults, and a write to it through them changes the defaults. *)
Remark merged_settings_share_defaults :
  ∃ r n',
    loadFromLocalStorage parse_sample {[ STORAGE_KEY := "{}" ]} first_free
    = (Some r, n')
    ∧ prop (prop r "contact") "addressLines"
      = prop (prop DEFAULTS "contact") "addressLines"
    ∧ 2%nat ∈ addrs r
    ∧ update 2%nat id (λ _, []) DEFAULTS ≠ DEFAULTS.
Proof.
  eexists _, _. split; [by vm_compute|]. split; [by vm_compute|].
  split; [|by vm_compute]. apply list_elem_of_In. vm_compute. tauto.
Qed.

(** * Properties of the further code *)

(** ** The numbered range, whatever the bounds *)

Lemma safeStart_clamped (nb : Numbered.t) :
  Numbered.start nb ≠ Rounded PosInf →
  safeStart nb = Int (clamped_start (Numbered.start nb)).
Proof.
  unfold safeStart, clamped_start, num_or.
  destruct (Numbered.start nb) as [[| | |[|p|p]]|below text]; try done.
Qed.

Lemma clamped_start_positive (start : number) : 1 ≤ clamped_start start.
Proof. unfold clamped_start. destruct (Math_floor start); lia. Qed.

Lemma safeEnd_clamped (nb : Numbered.t) :
  Numbered.start nb ≠ Rounded PosInf →
  Numbered.end_ nb ≠ Rounded PosInf →
  safeEnd nb
  = Int (clamped_end (clamped_start (Numbered.start nb)) (Numbered.end_ nb)).
Proof.
  intros Hstart Hend. unfold safeEnd. rewrite safeStart_clamped by done.
  pose proof (clamped_start_positive (Numbered.start nb)) as Hs.
  unfold clamped_end, num_or.
  destruct (Numbered.end_ nb) as [[| | |[|p|p]]|below text]; try done;
    simpl; f_equal; lia.
Qed.

Lemma clamped_end_above (s : Z) (end_ : number) : s ≤ clamped_end s end_.
Proof. unfold clamped_end. destruct (Math_floor end_); lia. Qed.

(** The order depends on the bounds through [safeStart] and [safeEnd]
    only. *)
Lemma orderedNumbers_bounds (nb nb' : Numbered.t) :
  safeStart nb = safeStart nb' →
  safeEnd nb = safeEnd nb' →
  Numbered.order nb = Numbered.order nb' →
  orderedNumbers nb = orderedNumbers nb'.
Proof.
  intros Hs He Ho. unfold orderedNumbers, range, baseOrdered, manual.
  by rewrite Hs, He, Ho.
Qed.

(** With integer bounds [1 ≤ s ≤ e] and a range that an array may hold,
    the order is a list of integers: every number of the range, once. *)
Lemma orderedNumbers_integers (nb : Numbered.t) (s e : Z) :
  Numbered.start nb = Int s →
  Numbered.end_ nb = Int e →
  1 ≤ s ≤ e →
  e - s + 1 ≤ MAX_ARRAY_LENGTH →
  ∃ ns : list Z,
    orderedNumbers nb = Some (Int <$> ns)
    ∧ NoDup ns
    ∧ ∀ z, z ∈ ns ↔ s ≤ z ≤ e.
Proof.
  intros Hstart Hend Hrange Hlength.
  destruct (Numbered.order nb) as [|n order] eqn:Horder.
  - exists (seqZ s (e - s + 1)). split; [|split].
    + unfold orderedNumbers, manual.
      rewrite (range_integers nb s e) by done. by rewrite Horder.
    + apply NoDup_seqZ.
    + intros z. rewrite elem_of_seqZ. lia.
  - exists (specified_order s e (rounded_down (Numbered.order nb))).
    split; [|split].
    + apply orderedNumbers_specified; [done..|]. by rewrite Horder.
    + apply NoDup_specified_order.
    + apply elem_of_specified_order.
Qed.

Lemma length_range_list (ns : list Z) (s e : Z) :
  s ≤ e → NoDup ns → (∀ z, z ∈ ns ↔ s ≤ z ≤ e) →
  Z.of_nat (List.length ns) = e - s + 1.
Proof.
  intros Hse Hnd Hin.
  assert (ns ≡ₚ seqZ s (e - s + 1)) as ->.
  { apply NoDup_Permutation; [done|apply NoDup_seqZ|].
    intros z. rewrite Hin, elem_of_seqZ. lia. }
  rewrite length_seqZ. lia.
Qed.

Lemma string_length_app (s t : string) :
  String.length (s +:+ t) = (String.length s + String.length t)%nat.
Proof.
  induction s as [|a s IH]; [done|].
  rewrite string_app_cons. simpl. by rewrite IH.
Qed.

(** Two strings with the same tail. *)
Lemma string_app_inv_tail (s1 s2 t : string) :
  s1 +:+ t = s2 +:+ t → s1 = s2.
Proof.
  intros H.
  assert (String.length s1 = String.length s2) as Hlen.
  { apply (f_equal String.length) in H.
    rewrite !string_length_app in H. lia. }
  revert s2 H Hlen. induction s1 as [|a s1 IH]; intros [|b s2] H Hlen;
    try done.
  rewrite !string_app_cons in H. injection H as -> H.
  f_equal. apply IH; [done|]. by injection Hlen.
Qed.

Lemma numbered_url_inj (folder ext : string) (v : number) (a b : Z) :
  numbered_url folder ext v (Int a) = numbered_url folder ext v (Int b) →
  a = b.
Proof.
  unfold numbered_url. intros H.
  apply (inj (String.app folder)) in H.
  rewrite !string_app_cons in H. injection H as H.
  change ("" +:+ ?x) with x in H.
  apply string_app_inv_tail in H. by apply (inj pretty) in H.
Qed.

(** The decimal numeral of an integer is made of digits and of the sign. *)
Lemma is_digit_pretty_N_char (x : N) : is_digit (pretty_N_char x) = true.
Proof. unfold pretty_N_char. by repeat case_match. Qed.

Lemma pretty_N_go_no_char (c : ascii) (x : N) (s : string) :
  is_digit c = false →
  includes s (String c "") = false →
  includes (pretty_N_go x s) (String c "") = false.
Proof.
  intros Hc. revert s. induction (N.lt_wf_0 x) as [x _ IH]; intros s Hs.
  assert (x = 0 ∨ 0 < x)%N as [->|Hx] by lia; [by rewrite pretty_N_go_0|].
  rewrite pretty_N_go_step by done. apply IH; [by apply N.div_lt|].
  rewrite includes_char_cons, Hs, orb_false_r.
  destruct (Ascii.eqb_spec c (pretty_N_char (x `mod` 10))) as [->|]; [|done].
  by rewrite is_digit_pretty_N_char in Hc.
Qed.

Lemma pretty_Z_no_char (c : ascii) (z : Z) :
  is_digit c = false → c ≠ "-"%char →
  includes (pretty z) (String c "") = false.
Proof.
  intros Hc Hdash.
  assert (∀ p : positive, includes (pretty p) (String c "") = false) as Hpos.
  { intros p. unfold pretty, pretty_positive, pretty, pretty_N.
    case_decide; [done|]. by apply pretty_N_go_no_char. }
  destruct z as [|p|p]; unfold pretty, pretty_Z.
  - rewrite includes_char_cons. simpl includes. rewrite orb_false_r.
    destruct (Ascii.eqb_spec c "0"); [by subst|done].
  - apply Hpos.
  - rewrite string_app_cons, includes_char_cons.
    change ("" +:+ ?x) with x. rewrite Hpos, orb_false_r.
    by apply Ascii.eqb_neq.
Qed.

Lemma Number_toString_no_dot (n : rounded) :
  includes (Number_toString n) "." = false.
Proof.
  destruct n as [| | |z]; try done. by apply pretty_Z_no_char.
Qed.

(** Two texts cut at their first dot. *)
Lemma string_app_dot_inv (s1 s2 t1 t2 : string) :
  includes s1 "." = false → includes s2 "." = false →
  s1 +:+ String "." t1 = s2 +:+ String "." t2 → s1 = s2 ∧ t1 = t2.
Proof.
  revert s2. induction s1 as [|a s1 IH]; intros [|b s2];
    rewrite ?string_app_cons, ?includes_char_cons, ?orb_false_iff.
  - intros _ _ H. change ("" +:+ ?x) with x in H. by injection H.
  - intros _ [Hb _] H. change ("" +:+ ?x) with x in H.
    injection H as <- _. by rewrite Ascii.eqb_refl in Hb.
  - intros [Ha _] _ H. change ("" +:+ ?x) with x in H.
    injection H as -> _. by rewrite Ascii.eqb_refl in Ha.
  - intros [_ H1] [_ H2] H. injection H as -> H.
    destruct (IH s2 H1 H2 H) as [-> ->]. done.
Qed.

(** The text of a rounded number tells which number it is. *)
Lemma Number_toString_rounded_inj (n m : rounded) :
  Number_toString n = Number_toString m → n = m.
Proof.
  assert (∀ z : Z, pretty z ≠ "NaN") as Hnan.
  { intros z Hz. pose proof (pretty_Z_no_char "N" z eq_refl) as H.
    rewrite Hz in H. by specialize (H ltac:(done)). }
  assert (∀ (z : Z) s, pretty z ≠ s +:+ "Infinity") as Hinf.
  { intros z s Hz. pose proof (pretty_Z_no_char "I" z eq_refl) as H.
    rewrite Hz, includes_char_app in H. specialize (H ltac:(done)).
    by apply orb_false_iff in H as [_ H]. }
  destruct n as [| | |a], m as [| | |b]; try done; simpl; intros H.
  - by destruct (Hnan b).
  - by destruct (Hinf b "").
  - by destruct (Hinf b "-").
  - by destruct (Hnan a).
  - by destruct (Hinf a "").
  - by destruct (Hinf a "-").
  - f_equal. by apply (inj pretty) in H.
Qed.

(** The image and the version of an entry can be read back from it. *)
Lemma numbered_url_inj_version (folder ext : string) (v v' : number)
    (n m : rounded) :
  numbered_url folder ext v n = numbered_url folder ext v' m →
  n = m ∧ Number_toString v = Number_toString v'.
Proof.
  unfold numbered_url. intros H.
  apply (inj (String.app folder)) in H.
  rewrite !string_app_cons in H. injection H as H.
  change ("" +:+ ?x) with x in H.
  apply string_app_dot_inv in H as [Hn H];
    [|apply Number_toString_no_dot..].
  split; [by apply Number_toString_rounded_inj|].
  apply (inj (String.app ext)) in H.
  by apply (inj (String.app "?v=")) in H.
Qed.

Lemma buildGalleryImageList_numbered (settings : SiteSettings) :
  Gallery.mode (gallery settings) = numbered →
  buildGalleryImageList settings
  = (λ ns : list rounded,
       numbered_url (Numbered.folder (Gallery.numbered (gallery settings)))
         (effective_extension
            (Numbered.extension (Gallery.numbered (gallery settings))))
         (Gallery.assetVersion (gallery settings)) <$> ns)
    <$> orderedNumbers (Gallery.numbered (gallery settings)).
Proof.
  intros Hmode. unfold buildGalleryImageList.
  rewrite Hmode, effective_extension_code.
  by destruct (orderedNumbers _).
Qed.

(** X1.  In numbered mode, whatever numbers [start] and [end] are, short of
    [+Infinity]: the gallery is the one of the integer bounds [s] and [e],
    where [s] is [start] rounded down, and 1 when that is below 1 or no
    number, and [e] is [end] rounded down, and [s] when that is below [s]
    or no number.  When the range from [s] to [e] has more numbers than an
    array may hold, no gallery is returned: [Array.from] raises
    [RangeError].  When it has not, and [e] is a safe integer (so that
    the numbers of the range are computed exactly), the gallery is
    returned, it shows every image from [s] to [e] once and no other, and
    it is not empty. *)
Theorem numbered_bounds_clamped (settings : SiteSettings) :
  let g := gallery settings in
  let nb := Gallery.numbered g in
  let s := clamped_start (Numbered.start nb) in
  let e := clamped_end s (Numbered.end_ nb) in
  Gallery.mode g = numbered →
  Numbered.start nb ≠ Rounded PosInf →
  Numbered.end_ nb ≠ Rounded PosInf →
  1 ≤ s ≤ e
  ∧ buildGalleryImageList settings
    = buildGalleryImageList (with_bounds (Int s) (Int e) settings)
  ∧ (MAX_ARRAY_LENGTH < e - s + 1 → buildGalleryImageList settings = None)
  ∧ (e ≤ MAX_SAFE_INTEGER →
     e - s + 1 ≤ MAX_ARRAY_LENGTH →
     ∃ (ns : list Z) (urls : list string),
       buildGalleryImageList settings = Some urls
       ∧ urls = (λ z, numbered_url (Numbered.folder nb)
                        (effective_extension (Numbered.extension nb))
                        (Gallery.assetVersion g) (Int z)) <$> ns
       ∧ (∀ z, z ∈ ns ↔ s ≤ z ≤ e)
       ∧ NoDup ns
       ∧ NoDup urls
       ∧ Z.of_nat (List.length urls) = e - s + 1
       ∧ urls ≠ []).
Proof.
  intros g nb s e Hmode Hstart Hend.
  assert (1 ≤ s ≤ e) as Hse.
  { split; [apply clamped_start_positive|apply clamped_end_above]. }
  set (nb' := with_end (Int e) (with_start (Int s) nb)).
  assert (orderedNumbers nb = orderedNumbers nb') as Hsame.
  { apply orderedNumbers_bounds; [| |done].
    - rewrite (safeStart_integer nb' s e), safeStart_clamped by done. done.
    - rewrite (safeEnd_integer nb' s e), safeEnd_clamped by done. done. }
  split; [done|]. split.
  { rewrite !buildGalleryImageList_numbered by done.
    unfold with_bounds. simpl. fold g nb nb'. by rewrite Hsame. }
  split.
  { intros Hlong. rewrite buildGalleryImageList_numbered by done. fold g nb.
    rewrite Hsame. unfold orderedNumbers, range.
    rewrite (safeStart_integer nb' s e), (safeEnd_integer nb' s e) by done.
    simpl. by replace (MAX_ARRAY_LENGTH <? e + - s + 1) with true by lia. }
  intros _ Hlength.
  destruct (orderedNumbers_integers nb' s e) as (ns & Hns & Hnd & Hin);
    [done..|].
  exists ns. eexists. split; [|split; [reflexivity|]].
  { rewrite buildGalleryImageList_numbered by done. fold g nb.
    rewrite Hsame, Hns. simpl. by rewrite <- list_fmap_compose. }
  split; [done|]. split; [done|].
  assert (Z.of_nat (List.length ns) = e - s + 1) as Hlen
    by (apply length_range_list; [lia|done..]).
  split; [|split].
  - apply NoDup_fmap_2_strong; [|done].
    intros a b _ _ H. apply numbered_url_inj_version in H as [H _].
    by injection H.
  - by rewrite length_fmap.
  - destruct ns; [simpl in Hlen; lia|done].
Qed.

(** Bounds that need clamping: from 2.5 to 1 there is image 2 and no
    other.  From 1 to 2^32 there are more images than an array may hold. *)
Lemma numbered_bounds_clamped_fraction :
  (∃ urls : list string,
     buildGalleryImageList
       (with_bounds (Frac 2 "2.5") (Int 1) (three_images "jpeg" []))
     = Some urls
     ∧ Z.of_nat (List.length urls) = 1
     ∧ buildGalleryImageList
         (with_bounds (Int 2) (Int 2) (three_images "jpeg" []))
       = Some urls)
  ∧ buildGalleryImageList
      (with_bounds (Int 1) (Int 4294967296) (three_images "jpeg" []))
    = None.
Proof.
  split.
  - destruct (numbered_bounds_clamped
                (with_bounds (Frac 2 "2.5") (Int 1) (three_images "jpeg" [])))
      as (_ & Hsame & _ & Hshown);
      [reflexivity | discriminate | discriminate |].
    destruct Hshown as (ns & urls & Hurls & _ & _ & _ & _ & Hlen & _);
      [done | done |].
    exists urls. split; [exact Hurls|]. split; [exact Hlen|].
    rewrite <- Hurls. exact (eq_sym Hsame).
  - destruct (numbered_bounds_clamped
                (with_bounds (Int 1) (Int 4294967296)
                   (three_images "jpeg" [])))
      as (_ & _ & Hlong & _);
      [reflexivity | discriminate | discriminate |].
    apply Hlong. done.
Defined.

Lemma infinite_start_keeps_nothing (order : list number) :
  List.filter
    (λ n : rounded, Number_isFinite n && num_geb n PosInf && num_leb n PosInf)
    (List.map (λ n, Math_floor (Number n)) order) = [].
Proof.
  induction order as [|n order IH]; [done|]. simpl.
  by destruct (Math_floor (Number n)).
Qed.

(** X2.  The bounds at [+Infinity], in numbered mode.  With an infinite
    [start] the gallery is empty, whatever the end and the manual order.
    With an infinite [end], and a [start] that is not, no gallery is
    returned: [Array.from] raises [RangeError]. *)
Theorem numbered_infinite_bounds (settings : SiteSettings) :
  let nb := Gallery.numbered (gallery settings) in
  Gallery.mode (gallery settings) = numbered →
  (Numbered.start nb = Rounded PosInf →
   buildGalleryImageList settings = Some [])
  ∧ (Numbered.start nb ≠ Rounded PosInf →
     Numbered.end_ nb = Rounded PosInf →
     buildGalleryImageList settings = None).
Proof.
  intros nb Hmode. split.
  - intros Hstart. rewrite buildGalleryImageList_numbered by done. fold nb.
    assert (safeStart nb = PosInf) as Hs
      by (unfold safeStart; by rewrite Hstart).
    assert (safeEnd nb = PosInf) as He.
    { unfold safeEnd. rewrite Hs. unfold num_or.
      by destruct (Numbered.end_ nb) as [[| | |[|p|p]]|below text]. }
    unfold orderedNumbers, range, baseOrdered.
    rewrite Hs, He, infinite_start_keeps_nothing. simpl.
    by destruct (manual nb).
  - intros Hstart Hend. rewrite buildGalleryImageList_numbered by done.
    fold nb. unfold orderedNumbers, range, safeEnd.
    rewrite safeStart_clamped, Hend by done. reflexivity.
Qed.

(** An endless range raises; a range that starts at infinity is empty. *)
Lemma numbered_infinite_bounds_sample :
  buildGalleryImageList
    (with_bounds PosInf (Int 3) (three_images "jpeg" [Int 2 : number]))
  = Some []
  ∧ buildGalleryImageList (with_bounds (Int 1) PosInf (three_images "jpeg" []))
    = None.
Proof.
  split.
  - apply (numbered_infinite_bounds
             (with_bounds PosInf (Int 3) (three_images "jpeg" [Int 2 : number])));
      reflexivity.
  - apply (numbered_infinite_bounds
             (with_bounds (Int 1) PosInf (three_images "jpeg" [])));
      [reflexivity | discriminate | reflexivity].
Defined.

(** X3.  Cache busting: in numbered mode the galleries of two versions
    with different texts have the same number of entries and no entry in
    common, so that a change of [assetVersion] changes the address of
    every image. *)
Theorem gallery_versions_disjoint (settings : SiteSettings) (v' : number)
    (urls : list string) :
  Gallery.mode (gallery settings) = numbered →
  Number_toString (Gallery.assetVersion (gallery settings))
  ≠ Number_toString v' →
  buildGalleryImageList settings = Some urls →
  ∃ urls' : list string,
    buildGalleryImageList (with_version v' settings) = Some urls'
    ∧ List.length urls' = List.length urls
    ∧ ∀ url, url ∈ urls → url ∉ urls'.
Proof.
  intros Hmode Hv Hurls.
  rewrite buildGalleryImageList_numbered in Hurls by done.
  destruct (orderedNumbers _) as [ns|] eqn:Hns; [|done].
  injection Hurls as <-. eexists. split; [|split].
  - rewrite buildGalleryImageList_numbered by done. simpl.
    rewrite Hns. reflexivity.
  - by rewrite !length_fmap.
  - intros url (n & -> & _)%list_elem_of_fmap (m & H & _)%list_elem_of_fmap.
    by apply numbered_url_inj_version in H as [_ H].
Qed.

(** The default gallery at version 1 and at version 2. *)
Lemma gallery_versions_disjoint_bump :
  ∃ urls' : list string,
    buildGalleryImageList (with_version (Int 2) DEFAULT_SITE_SETTINGS)
    = Some urls'
    ∧ List.length urls' = 50%nat
    ∧ "/gallery/7.jpeg?v=1" ∉ urls'.
Proof.
  destruct (gallery_versions_disjoint DEFAULT_SITE_SETTINGS (Int 2)
              (List.map (λ z, "/gallery/" +:+ pretty z +:+ ".jpeg?v=1")
                 (seqZ 1 50)))
    as (urls' & Hrun & Hlen & Hdis);
    [reflexivity | discriminate | by vm_compute |].
  exists urls'. split; [exact Hrun|]. split; [exact Hlen|].
  apply Hdis. apply list_elem_of_In. vm_compute. tauto.
Defined.

(** ** Arrays by position *)

Section arrays.

Context {A : Type}.

Implicit Types (l : list A) (x : A).

Lemma Array_splice_remove (start : Z) l x :
  0 ≤ start →
  l !! Z.to_nat start = Some x →
  Array_splice l start 1 [] = ([x], delete (Z.to_nat start) l).
Proof.
  intros Hstart Hx. pose proof (lookup_lt_Some _ _ _ Hx) as Hlt.
  unfold Array_splice.
  replace (start <? 0) with false by lia.
  rewrite (Z.min_l start) by lia.
  replace (Z.min (Z.max 1 0) (Z.of_nat (List.length l) - start))
    with 1 by lia.
  replace (Z.to_nat (start + 1)) with (S (Z.to_nat start)) by lia.
  rewrite (drop_S l x (Z.to_nat start)) by done.
  by rewrite delete_take_drop.
Qed.

Lemma Array_splice_insert (start : Z) l x :
  0 ≤ start ≤ Z.of_nat (List.length l) →
  Array_splice l start 0 [x]
  = ([], (take (Z.to_nat start) l ++ x :: drop (Z.to_nat start) l)%list).
Proof.
  intros Hstart. unfold Array_splice.
  replace (start <? 0) with false by lia.
  rewrite (Z.min_l start) by lia.
  replace (Z.min (Z.max 0 0) (Z.of_nat (List.length l) - start))
    with 0 by lia.
  by rewrite Z.add_0_r.
Qed.

(** Moving an element takes it out of its place and puts it in at the new
    one. *)
Lemma Array_move_spec (fromIndex toIndex : Z) l x :
  0 ≤ toIndex < Z.of_nat (List.length l) →
  0 ≤ fromIndex →
  l !! Z.to_nat fromIndex = Some x →
  Array_move fromIndex toIndex l
  = (take (Z.to_nat toIndex) (delete (Z.to_nat fromIndex) l)
     ++ x :: drop (Z.to_nat toIndex) (delete (Z.to_nat fromIndex) l))%list.
Proof.
  intros Hto Hfrom Hx. pose proof (lookup_lt_Some _ _ _ Hx) as Hlt.
  unfold Array_move. rewrite (Array_splice_remove _ _ x) by done.
  rewrite Array_splice_insert; [done|].
  rewrite length_delete by eauto. lia.
Qed.

(** What a move does to a list: the element is at its new place, and the
    others are where they were with respect to each other. *)
Lemma Array_move_facts (fromIndex toIndex : Z) l :
  0 ≤ fromIndex < Z.of_nat (List.length l) →
  0 ≤ toIndex < Z.of_nat (List.length l) →
  Array_move fromIndex toIndex l ≡ₚ l
  ∧ Array_move fromIndex toIndex l !! Z.to_nat toIndex
    = l !! Z.to_nat fromIndex
  ∧ delete (Z.to_nat toIndex) (Array_move fromIndex toIndex l)
    = delete (Z.to_nat fromIndex) l.
Proof.
  intros Hfrom Hto.
  destruct (lookup_lt_is_Some_2 l (Z.to_nat fromIndex)) as [x Hx]; [lia|].
  rewrite (Array_move_spec _ _ _ x) by (done || lia).
  set (d := delete (Z.to_nat fromIndex) l).
  assert (List.length d = pred (List.length l)) as Hd
    by (unfold d; rewrite length_delete by eauto; lia).
  assert (List.length (take (Z.to_nat toIndex) d) = Z.to_nat toIndex) as Hlen
    by (rewrite length_take; lia).
  split; [|split].
  - rewrite <- Permutation_middle, take_drop. unfold d.
    symmetry. by apply delete_Permutation.
  - rewrite Hx. by apply list_lookup_middle.
  - rewrite <- Hlen at 1. rewrite delete_middle. apply take_drop.
Qed.

Lemma delete_past_end l (i : nat) : (List.length l ≤ i)%nat → delete i l = l.
Proof.
  intros Hi. rewrite delete_take_drop, take_ge, drop_ge by lia.
  apply app_nil_r.
Qed.

Lemma Array_filter_from_delete (index i : Z) l :
  Array_filter_from (λ _ j, negb (j =? index)) i l
  = if index <? i then l else delete (Z.to_nat (index - i)) l.
Proof.
  revert i. induction l as [|x l IH]; intros i; simpl.
  - by destruct (index <? i).
  - rewrite IH. destruct (Z.eqb_spec i index) as [->|Hne]; simpl.
    + replace (index <? index + 1) with true by lia.
      replace (index <? index) with false by lia.
      by rewrite Z.sub_diag.
    + destruct (Z.ltb_spec index i).
      * by replace (index <? i + 1) with true by lia.
      * replace (index <? i + 1) with false by lia.
        replace (Z.to_nat (index - i)) with (S (Z.to_nat (index - (i + 1))))
          by lia.
        done.
Qed.

Lemma List_filter_none (f : A → bool) l :
  (∀ x, x ∈ l → f x = false) → List.filter f l = [].
Proof.
  induction l as [|x l IH]; intros Hall; [done|]. simpl.
  rewrite (Hall x) by apply list_elem_of_here.
  apply IH. intros y Hy. by apply Hall, list_elem_of_further.
Qed.

Lemma Array_findIndex_bounds (f : A → bool) l :
  -1 ≤ Array_findIndex f l < Z.of_nat (List.length l).
Proof.
  induction l as [|x l IH]; simpl; [lia|].
  destruct (f x); [lia|]. destruct (Z.ltb_spec (Array_findIndex f l) 0); lia.
Qed.

(** The first position where [f] holds. *)
Lemma Array_findIndex_Some (f : A → bool) l (i : nat) :
  Array_findIndex f l = Z.of_nat i ↔
  (∃ x, l !! i = Some x ∧ f x = true)
  ∧ ∀ j y, (j < i)%nat → l !! j = Some y → f y = false.
Proof.
  revert i. induction l as [|x l IH]; intros i; simpl.
  - split; [lia|]. by intros [(y & Hy & _) _].
  - destruct (f x) eqn:Hx.
    + split.
      * intros Hi. assert (i = 0%nat) as -> by lia. split; [by eauto|]. lia.
      * intros [_ Hfirst]. destruct i as [|i]; [done|].
        specialize (Hfirst 0%nat x ltac:(lia) eq_refl). congruence.
    + pose proof (Array_findIndex_bounds f l) as Hb.
      destruct (Z.ltb_spec (Array_findIndex f l) 0) as [Hneg|Hpos].
      * split; [lia|]. intros [(y & Hy & Hfy) Hfirst].
        destruct i as [|i]; [simpl in Hy; congruence|].
        assert (Array_findIndex f l = Z.of_nat i) as Hi; [|lia].
        apply IH. split; [by eauto|].
        intros j z Hj Hz. apply (Hfirst (S j) z); [lia|done].
      * destruct i as [|i].
        { split; [lia|]. intros [(y & Hy & Hfy) _]. simpl in Hy. congruence. }
        replace (Array_findIndex f l + 1 = Z.of_nat (S i))
          with (Array_findIndex f l + 1 = Z.of_nat i + 1) by (f_equal; lia).
        rewrite Z.add_cancel_r, IH. simpl. split.
        -- intros [Hy Hfirst]. split; [done|].
           intros [|j] z Hj Hz; [simpl in Hz; congruence|].
           apply (Hfirst j z); [lia|done].
        -- intros [Hy Hfirst]. split; [done|].
           intros j z Hj Hz. apply (Hfirst (S j) z); [lia|done].
Qed.

Lemma Array_findIndex_absent (f : A → bool) l :
  Array_findIndex f l = -1 ↔ ∀ x, x ∈ l → f x = false.
Proof.
  induction l as [|x l IH]; simpl.
  - split; [|done]. intros _ x Hx. by apply elem_of_nil in Hx.
  - pose proof (Array_findIndex_bounds f l) as Hb.
    destruct (f x) eqn:Hx.
    + split; [lia|]. intros Hall. rewrite Hall in Hx; [done|].
      apply list_elem_of_here.
    + destruct (Z.ltb_spec (Array_findIndex f l) 0) as [Hneg|Hpos].
      * split; [|done]. intros _ y [->|Hy]%elem_of_cons; [done|].
        apply IH; [lia|done].
      * split; [lia|]. intros Hall.
        assert (Array_findIndex f l = -1); [|lia].
        apply IH. intros y Hy. apply Hall. by apply list_elem_of_further.
Qed.

End arrays.

(** ** The order of the numbered images in the panel *)

Lemma range_clamped (nb : Numbered.t) :
  let s := clamped_start (Numbered.start nb) in
  let e := clamped_end s (Numbered.end_ nb) in
  Numbered.start nb ≠ Rounded PosInf →
  Numbered.end_ nb ≠ Rounded PosInf →
  e - s + 1 ≤ MAX_ARRAY_LENGTH →
  range nb = Some (Int <$> seqZ s (e - s + 1)).
Proof.
  intros s e Hstart Hend Hlength. unfold range.
  rewrite safeEnd_clamped, safeStart_clamped by done. fold s e. simpl.
  replace (e + - s + 1) with (e - s + 1) by lia.
  replace (MAX_ARRAY_LENGTH <? e - s + 1) with false by lia. f_equal.
  rewrite <- (Z.add_0_r s) at 2. rewrite <- (fmap_add_seqZ s 0).
  rewrite <- list_fmap_compose. reflexivity.
Qed.

(** A range with more numbers than an array may hold is not there. *)
Lemma range_too_long (nb : Numbered.t) :
  let s := clamped_start (Numbered.start nb) in
  let e := clamped_end s (Numbered.end_ nb) in
  Numbered.start nb ≠ Rounded PosInf →
  Numbered.end_ nb ≠ Rounded PosInf →
  MAX_ARRAY_LENGTH < e - s + 1 →
  range nb = None.
Proof.
  intros s e Hstart Hend Hlong. unfold range.
  rewrite safeEnd_clamped, safeStart_clamped by done. fold s e. simpl.
  by replace (MAX_ARRAY_LENGTH <? e + - s + 1) with true by lia.
Qed.

(** The range is all there is only when [start] is infinite; it is not
    there when [end] is and [start] is not. *)
Lemma range_infinite_start (nb : Numbered.t) :
  Numbered.start nb = Rounded PosInf → range nb = Some [].
Proof.
  intros Hstart.
  assert (safeStart nb = PosInf) as Hs by (unfold safeStart; by rewrite Hstart).
  assert (safeEnd nb = PosInf) as He.
  { unfold safeEnd. rewrite Hs. unfold num_or.
    by destruct (Numbered.end_ nb) as [[| | |[|p|p]]|below text]. }
  unfold range. by rewrite Hs, He.
Qed.

Lemma range_infinite_end (nb : Numbered.t) :
  Numbered.start nb ≠ Rounded PosInf →
  Numbered.end_ nb = Rounded PosInf → range nb = None.
Proof.
  intros Hstart Hend. unfold range, safeEnd.
  by rewrite safeStart_clamped, Hend.
Qed.

Lemma head_seqZ_fmap {B} (f : Z → B) (s n : Z) :
  0 < n → head (f <$> seqZ s n) = Some (f s).
Proof.
  intros Hn. rewrite seqZ_cons by done. done.
Qed.

Lemma last_seqZ_fmap {B} (f : Z → B) (s n : Z) :
  0 < n → last (f <$> seqZ s n) = Some (f (s + n - 1)).
Proof.
  intros Hn. rewrite last_lookup, length_fmap, length_seqZ.
  rewrite list_lookup_fmap, lookup_seqZ_lt by lia.
  simpl. do 2 f_equal. lia.
Qed.

Lemma manual_length (nb : Numbered.t) :
  (0 <? Z.of_nat (List.length (Numbered.order nb))) = manual nb
  ∧ (Z.of_nat (List.length (Numbered.order nb)) =? 0) = negb (manual nb).
Proof. unfold manual. by destruct (Numbered.order nb). Qed.

(** The order of the handlers is the order of the gallery. *)
Lemma getEffectiveNumberOrder_orderedNumbers (p : SiteSettings) :
  getEffectiveNumberOrder p = orderedNumbers (Gallery.numbered (gallery p)).
Proof.
  unfold getEffectiveNumberOrder, orderedNumbers, baseOrdered.
  destruct (manual_length (Gallery.numbered (gallery p))) as [_ ->].
  destruct (range _); [|done]. by destruct (manual _).
Qed.

(** X4.  The order of the numbered images that the panel shows, the order
    its handlers work on and the order of the public gallery are one and
    the same, as long as [start] is not [+Infinity]. *)
Theorem panel_order_is_site_order (draft : SiteSettings) :
  let nb := Gallery.numbered (gallery draft) in
  Numbered.start nb ≠ Rounded PosInf →
  effectiveNumberOrder draft = orderedNumbers nb
  ∧ getEffectiveNumberOrder draft = orderedNumbers nb
  ∧ (Gallery.mode (gallery draft) = numbered →
     buildGalleryImageList draft
     = (λ ns : list rounded,
          numbered_url (Numbered.folder nb)
            (effective_extension (Numbered.extension nb))
            (Gallery.assetVersion (gallery draft)) <$> ns)
       <$> effectiveNumberOrder draft).
Proof.
  intros nb Hstart.
  assert (effectiveNumberOrder draft = orderedNumbers nb) as Hsame.
  { unfold effectiveNumberOrder, numberedRange, orderedNumbers, baseOrdered.
    fold nb. destruct (manual_length nb) as [-> _].
    destruct (decide (Numbered.end_ nb = Rounded PosInf)) as [Hend|Hend].
    { by rewrite range_infinite_end. }
    set (s := clamped_start (Numbered.start nb)).
    set (e := clamped_end s (Numbered.end_ nb)).
    destruct (decide (e - s + 1 ≤ MAX_ARRAY_LENGTH)) as [Hlength|Hlong];
      [|by rewrite range_too_long by (done || (fold s e; lia))].
    rewrite range_clamped by done.
    rewrite safeStart_clamped, safeEnd_clamped by done. fold s e.
    pose proof (clamped_end_above s (Numbered.end_ nb)) as Hse. fold e in Hse.
    rewrite head_seqZ_fmap, last_seqZ_fmap by lia. simpl.
    by replace (s + (e - s + 1) - 1) with e by lia. }
  split; [done|]. split; [apply getEffectiveNumberOrder_orderedNumbers|].
  intros Hmode. rewrite Hsame. by apply buildGalleryImageList_numbered.
Qed.

(** With the order [3, 1] the panel shows images 3, 1, 2, as the gallery. *)
Lemma panel_order_is_site_order_sample :
  effectiveNumberOrder (three_images "jpeg" [Int 3 : number; Int 1 : number])
  = Some [Int 3; Int 1; Int 2].
Proof.
  destruct (panel_order_is_site_order
              (three_images "jpeg" [Int 3 : number; Int 1 : number]))
    as (-> & _); [discriminate|]. reflexivity.
Defined.

(** With [start] at [+Infinity] the panel and the gallery part: the
    gallery is empty, and the panel shows image 1 when the manual order
    lists it. *)
Example panel_order_infinite_start :
  let draft := with_bounds PosInf (Int 3) (three_images "jpeg" [Int 1 : number]) in
  effectiveNumberOrder draft = Some [Int 1]
  ∧ orderedNumbers (Gallery.numbered (gallery draft)) = Some [].
Proof. by vm_compute. Qed.

Lemma orderedNumbers_clamped (nb : Numbered.t) :
  let s := clamped_start (Numbered.start nb) in
  let e := clamped_end s (Numbered.end_ nb) in
  Numbered.start nb ≠ Rounded PosInf →
  Numbered.end_ nb ≠ Rounded PosInf →
  1 ≤ s ≤ e
  ∧ orderedNumbers nb = orderedNumbers (with_end (Int e) (with_start (Int s) nb)).
Proof.
  intros s e Hstart Hend.
  assert (1 ≤ s ≤ e) as Hse.
  { split; [apply clamped_start_positive|apply clamped_end_above]. }
  split; [done|].
  set (nb' := with_end (Int e) (with_start (Int s) nb)).
  apply orderedNumbers_bounds; [| |done].
  - rewrite (safeStart_integer nb' s e), safeStart_clamped by done. done.
  - rewrite (safeEnd_integer nb' s e), safeEnd_clamped by done. done.
Qed.

Lemma Set_insert_all_NoDup {A} `{EqDecision A} (seen l : list A) :
  NoDup l → (∀ x, x ∈ l → x ∉ seen) → Set_insert_all seen l = l.
Proof.
  revert seen. induction l as [|x l IH]; intros seen Hnd Hseen; [done|].
  apply NoDup_cons in Hnd as [Hx Hnd]. simpl.
  rewrite bool_decide_eq_false_2 by (apply Hseen, list_elem_of_here).
  f_equal. apply IH; [done|].
  intros y Hy [->|Hin]%elem_of_cons; [done|].
  by apply (Hseen y); [apply list_elem_of_further|].
Qed.

Lemma keep_first_NoDup {A} `{EqDecision A} (l : list A) :
  NoDup l → keep_first l = l.
Proof.
  intros Hnd. rewrite <- Set_from_keep_first.
  apply Set_insert_all_NoDup; [done|]. intros x _. apply not_elem_of_nil.
Qed.

Lemma omap_integer_within_integers (s e : Z) (ks : list Z) :
  (∀ k, k ∈ ks → s ≤ k ≤ e) →
  omap (integer_within s e) (rounded_down ((λ k, Rounded (Int k)) <$> ks))
  = ks.
Proof.
  unfold rounded_down. induction ks as [|z zs IH]; intros Hin; [done|].
  rewrite !fmap_cons. cbn [omap list_omap Math_floor].
  assert (integer_within s e (Rounded (Int z)) = Some z) as ->.
  { apply integer_within_Some. split; [done|].
    apply Hin, list_elem_of_here. }
  f_equal. apply IH. intros y Hy. by apply Hin, list_elem_of_further.
Qed.

(** An order of integers of the range, none twice, is the order the
    gallery begins with. *)
Lemma orderedNumbers_integer_order (nb : Numbered.t) (ks : list Z) :
  let s := clamped_start (Numbered.start nb) in
  let e := clamped_end s (Numbered.end_ nb) in
  Numbered.start nb ≠ Rounded PosInf →
  Numbered.end_ nb ≠ Rounded PosInf →
  e - s + 1 ≤ MAX_ARRAY_LENGTH →
  Numbered.order nb = (λ k, Rounded (Int k)) <$> ks →
  NoDup ks →
  (∀ k, k ∈ ks → s ≤ k ≤ e) →
  orderedNumbers nb
  = Some (Int <$> (ks ++ List.filter (λ z, negb (bool_decide (z ∈ ks)))
                          (seqZ s (e - s + 1)))%list).
Proof.
  intros s e Hstart Hend Hlength Horder Hnd Hin.
  destruct (orderedNumbers_clamped nb Hstart Hend) as [Hse ->]. fold s e.
  set (nb' := with_end (Int e) (with_start (Int s) nb)).
  destruct ks as [|k ks].
  - unfold orderedNumbers, manual.
    rewrite (range_integers nb' s e) by done. simpl. rewrite Horder. simpl.
    do 2 f_equal. symmetry. apply List.forallb_filter_id.
    apply forallb_forall. by intros z _.
  - rewrite (orderedNumbers_specified nb' s e)
      by (done || (simpl; by rewrite Horder)).
    do 2 f_equal. unfold specified_order. simpl Numbered.order.
    rewrite Horder.
    rewrite omap_integer_within_integers by done.
    by rewrite keep_first_NoDup.
Qed.

Section typed_order.

Variable to_number : string → number.

(** X5.  For a range from [s] to [e] that an array may hold, [e] being a
    safe integer (so that the numbers of the range are computed exactly):
    whatever is typed in the field of the manual order, and whatever
    numbers the engine reads in its pieces, what is stored is the list of
    the pieces that round down to an integer of the range, each once, in
    the order typed; and the gallery shows those images first, in that
    order, followed by the rest of the range. *)
Theorem manual_order_from_text (text : string) (draft : SiteSettings) :
  let nb := Gallery.numbered (gallery draft) in
  let s := clamped_start (Numbered.start nb) in
  let e := clamped_end s (Numbered.end_ nb) in
  Numbered.start nb ≠ Rounded PosInf →
  Numbered.end_ nb ≠ Rounded PosInf →
  e ≤ MAX_SAFE_INTEGER →
  e - s + 1 ≤ MAX_ARRAY_LENGTH →
  ∃ (ks : list Z) (p : SiteSettings),
    setManualNumberedOrderFromText to_number text draft = Some p
    ∧ p = with_manual_order ((λ k, Rounded (Int k)) <$> ks) draft
    ∧ ks = keep_first
             (omap (integer_within s e)
                (rounded_down (to_number <$> split_separators text)))
    ∧ NoDup ks
    ∧ (∀ k, k ∈ ks → s ≤ k ≤ e)
    ∧ orderedNumbers (Gallery.numbered (gallery p))
      = Some (Int <$> (ks ++ List.filter (λ z, negb (bool_decide (z ∈ ks)))
                               (seqZ s (e - s + 1)))%list).
Proof.
  intros nb s e Hstart Hend _ Hlength.
  pose proof (clamped_end_above s (Numbered.end_ nb)) as Hse. fold e in Hse.
  set (ks := keep_first
               (omap (integer_within s e)
                  (rounded_down (to_number <$> split_separators text)))).
  assert (NoDup ks) as Hnd.
  { unfold ks. rewrite <- Set_from_keep_first. apply NoDup_Set_from. }
  assert (∀ k, k ∈ ks → s ≤ k ≤ e) as Hin.
  { intros k. unfold ks.
    rewrite <- Set_from_keep_first, elem_of_Set_from, list_elem_of_omap.
    by intros (n & _ & (_ & H)%integer_within_Some). }
  exists ks. eexists. split; [|split; [reflexivity|]].
  - unfold setManualNumberedOrderFromText, numberedRange. fold nb.
    rewrite range_clamped by done. fold s e.
    rewrite head_seqZ_fmap, last_seqZ_fmap by lia.
    cbn [default from_option id].
    replace (s + (e - s + 1) - 1) with e by lia.
    do 2 f_equal.
    change (List.map (λ x, Math_floor (to_number x)) ?l)
      with ((λ x, Math_floor (Number (to_number x))) <$> l).
    rewrite (list_fmap_compose to_number (λ n, Math_floor (Number n))).
    change ((λ n, Math_floor (Number n)) <$> ?l)
      with (List.map (λ n, Math_floor (Number n)) l).
    rewrite kept_entries. unfold Set_from.
    rewrite (Set_insert_all_fmap Int []), <- list_fmap_compose.
    fold (Set_from (omap (integer_within s e)
                      (rounded_down (to_number <$> split_separators text)))).
    by rewrite Set_from_keep_first.
  - split; [done|]. split; [done|]. split; [done|].
    by apply orderedNumbers_integer_order.
Qed.

End typed_order.

(** The field reads [3, 1,9 3 x]: 9 is out of the range, the second 3 is a
    repetition and [x] is no number, so that the order stored is 3, 1 and
    the gallery shows 3, 1, 2. *)
Lemma manual_order_from_text_sample :
  ∃ p : SiteSettings,
    setManualNumberedOrderFromText read_sample "3, 1,9 3 x"
      (three_images "jpeg" []) = Some p
    ∧ Numbered.order (Gallery.numbered (gallery p))
      = [Int 3 : number; Int 1 : number]
    ∧ orderedNumbers (Gallery.numbered (gallery p))
      = Some [Int 3; Int 1; Int 2].
Proof.
  destruct (manual_order_from_text read_sample "3, 1,9 3 x"
              (three_images "jpeg" []))
    as (ks & p & Hrun & Hp & Hks & _ & _ & Hsite);
    [discriminate | discriminate | done | done |].
  exists p. split; [exact Hrun|].
  rewrite Hsite, Hp, Hks. split; reflexivity.
Defined.

Lemma Array_move_fmap {A B} (f : A → B) (fromIndex toIndex : Z) (l : list A) :
  0 ≤ fromIndex < Z.of_nat (List.length l) →
  0 ≤ toIndex < Z.of_nat (List.length l) →
  Array_move fromIndex toIndex (f <$> l) = f <$> Array_move fromIndex toIndex l.
Proof.
  intros Hfrom Hto.
  destruct (lookup_lt_is_Some_2 l (Z.to_nat fromIndex)) as [x Hx]; [lia|].
  rewrite (Array_move_spec _ _ l x) by (done || lia).
  rewrite (Array_move_spec _ _ (f <$> l) (f x));
    [|by rewrite length_fmap|lia|by rewrite list_lookup_fmap, Hx].
  by rewrite fmap_app, fmap_cons, fmap_take, fmap_drop, list_fmap_delete.
Qed.

Lemma orderedNumbers_infinite_start (nb : Numbered.t) :
  Numbered.start nb = Rounded PosInf → orderedNumbers nb = Some [].
Proof.
  intros Hstart.
  assert (safeStart nb = PosInf) as Hs by (unfold safeStart; by rewrite Hstart).
  assert (safeEnd nb = PosInf) as He.
  { unfold safeEnd. rewrite Hs. unfold num_or.
    by destruct (Numbered.end_ nb) as [[| | |[|p|p]]|below text]. }
  unfold orderedNumbers, baseOrdered.
  rewrite range_infinite_start, Hs, He, infinite_start_keeps_nothing by done.
  by destruct (manual nb).
Qed.

(** The order, when there is one and it is not empty, is a list of
    integers: the numbers of the range, each once. *)
Lemma orderedNumbers_Some (nb : Numbered.t) (current : list rounded) :
  let s := clamped_start (Numbered.start nb) in
  let e := clamped_end s (Numbered.end_ nb) in
  orderedNumbers nb = Some current →
  current ≠ [] →
  Numbered.start nb ≠ Rounded PosInf
  ∧ Numbered.end_ nb ≠ Rounded PosInf
  ∧ e - s + 1 ≤ MAX_ARRAY_LENGTH
  ∧ ∃ ns : list Z,
      current = Int <$> ns ∧ NoDup ns ∧ ∀ z, z ∈ ns ↔ s ≤ z ≤ e.
Proof.
  intros s e Hcurrent Hne.
  destruct (decide (Numbered.start nb = Rounded PosInf)) as [Hstart|Hstart].
  { rewrite orderedNumbers_infinite_start in Hcurrent by done. congruence. }
  destruct (decide (Numbered.end_ nb = Rounded PosInf)) as [Hend|Hend].
  { unfold orderedNumbers in Hcurrent.
    by rewrite range_infinite_end in Hcurrent. }
  destruct (decide (e - s + 1 ≤ MAX_ARRAY_LENGTH)) as [Hlength|Hlong].
  2:{ unfold orderedNumbers in Hcurrent.
      by rewrite range_too_long in Hcurrent by (done || (fold s e; lia)). }
  split; [done|]. split; [done|]. split; [done|].
  destruct (orderedNumbers_clamped nb Hstart Hend) as [Hse Hsame].
  destruct (orderedNumbers_integers
              (with_end (Int e) (with_start (Int s) nb)) s e)
    as (ns & Hns & Hnd & Hin); [done..|].
  exists ns. split; [|done].
  rewrite Hsame in Hcurrent. fold s e in Hcurrent.
  rewrite Hns in Hcurrent. by injection Hcurrent.
Qed.

(** X6.  Dragging a numbered image in the panel from one position of the
    order to another, the order being one of safe integers (so that the
    numbers of the range are computed exactly).  When both are positions
    of the order and differ, the image is at its new position, the other
    images are where they were with respect to each other, and the order
    stored is from then on the order of the panel and of the gallery, as
    it is.  Otherwise nothing changes. *)
Theorem numbered_order_drag (fromIndex toIndex : Z) (p : SiteSettings)
    (current : list rounded) :
  let length := Z.of_nat (List.length current) in
  getEffectiveNumberOrder p = Some current →
  Forall (λ n, num_leb n (Int MAX_SAFE_INTEGER) = true) current →
  (0 ≤ fromIndex < length → 0 ≤ toIndex < length → fromIndex ≠ toIndex →
   ∃ (moved : list rounded) (p' : SiteSettings),
     moveNumberedOrderTo fromIndex toIndex p = Some p'
     ∧ p' = with_manual_order (Rounded <$> moved) p
     ∧ moved ≡ₚ current
     ∧ moved !! Z.to_nat toIndex = current !! Z.to_nat fromIndex
     ∧ delete (Z.to_nat toIndex) moved = delete (Z.to_nat fromIndex) current
     ∧ getEffectiveNumberOrder p' = Some moved
     ∧ orderedNumbers (Gallery.numbered (gallery p')) = Some moved)
  ∧ (¬ (0 ≤ fromIndex < length ∧ 0 ≤ toIndex < length
        ∧ fromIndex ≠ toIndex) →
     moveNumberedOrderTo fromIndex toIndex p = Some p).
Proof.
  intros len Hcurrent _. split.
  - intros Hfrom Hto Hne.
    exists (Array_move fromIndex toIndex current). eexists.
    split; [|split; [reflexivity|]].
    { unfold moveNumberedOrderTo. rewrite Hcurrent. fold len.
      replace (fromIndex <? 0) with false by lia.
      replace (len <=? fromIndex) with false by lia.
      replace (toIndex <? 0) with false by lia.
      replace (len <=? toIndex) with false by lia.
      by replace (fromIndex =? toIndex) with false by lia. }
    destruct (Array_move_facts fromIndex toIndex current)
      as (Hperm & Hat & Hothers); [done..|].
    split; [done|]. split; [done|]. split; [done|].
    rewrite getEffectiveNumberOrder_orderedNumbers in Hcurrent |- *.
    cut (orderedNumbers
           (Gallery.numbered
              (gallery
                 (with_manual_order
                    (Rounded <$> Array_move fromIndex toIndex current) p)))
         = Some (Array_move fromIndex toIndex current)); [done|].
    set (nb := Gallery.numbered (gallery p)) in *.
    destruct (orderedNumbers_Some nb current Hcurrent)
      as (Hstart & Hend & Hlength & ns & -> & Hnd & Hin).
    { intros ->. simpl in len. lia. }
    unfold len in Hfrom, Hto. rewrite length_fmap in Hfrom, Hto.
    rewrite Array_move_fmap in Hperm |- * by done.
    set (ms := Array_move fromIndex toIndex ns) in *.
    assert (ms ≡ₚ ns) as Hms by by apply Array_move_facts.
    rewrite <- list_fmap_compose.
    rewrite (orderedNumbers_integer_order _ ms); simpl; fold nb;
      [|done|done|done|done|by rewrite Hms
       |by (intros k Hk; rewrite Hms in Hk; apply Hin)].
    do 2 f_equal. rewrite <- (app_nil_r ms) at 2. f_equal.
    apply List_filter_none. intros z Hz%elem_of_seqZ.
    apply negb_false_iff, bool_decide_eq_true. rewrite Hms. apply Hin. lia.
  - intros Hno. unfold moveNumberedOrderTo. rewrite Hcurrent. fold len.
    destruct (Z.ltb_spec fromIndex 0); [done|].
    destruct (Z.leb_spec len fromIndex); [done|].
    destruct (Z.ltb_spec toIndex 0); [done|].
    destruct (Z.leb_spec len toIndex); [done|].
    destruct (Z.eqb_spec fromIndex toIndex); [done|].
    destruct Hno. lia.
Qed.

(** Image 1 dragged to the last of three positions; position 3 is none. *)
Lemma numbered_order_drag_sample :
  ∃ p' : SiteSettings,
    moveNumberedOrderTo 0 2 (three_images "jpeg" []) = Some p'
    ∧ orderedNumbers (Gallery.numbered (gallery p'))
      = Some [Int 2; Int 3; Int 1]
    ∧ moveNumberedOrderTo 0 3 (three_images "jpeg" [])
      = Some (three_images "jpeg" []).
Proof.
  assert (Forall (λ n, num_leb n (Int MAX_SAFE_INTEGER) = true)
            [Int 1; Int 2; Int 3]) as Hsafe by (by repeat constructor).
  destruct (numbered_order_drag 0 2 (three_images "jpeg" [])
              [Int 1; Int 2; Int 3] eq_refl Hsafe) as [Hmove _].
  destruct Hmove as (moved & p' & Hrun & _ & _ & _ & _ & _ & Hsite);
    [simpl; lia | simpl; lia | lia |].
  destruct (numbered_order_drag 0 3 (three_images "jpeg" [])
              [Int 1; Int 2; Int 3] eq_refl Hsafe) as [_ Hidle].
  exists p'. split; [exact Hrun|]. split.
  - rewrite Hsite. vm_compute in Hrun. by injection Hrun as <-.
  - apply Hidle. simpl. lia.
Defined.

(** ** Custom images in the panel *)

Lemma with_customImages_same (p : SiteSettings) :
  with_gallery
    (with_customImages (Gallery.customImages (gallery p)) (gallery p)) p = p.
Proof. by destruct p as [? ? ? ? []]. Qed.

(** X7.  Adding a custom image in the panel.  A text that is not blank is
    stored without the white space around it, as the first custom image,
    and the gallery is switched to custom mode: from then on the public
    gallery is that image followed by the custom images stored before, and
    no numbered image; the field is emptied.  Removing position 0 then
    gives back the custom images as they were.  A blank text changes
    nothing. *)
Theorem custom_image_added_first (prev : SiteSettings) (newImageUrl : string) :
  (trim newImageUrl ≠ "" →
   ∃ p : SiteSettings,
     addCustomImageUrl prev newImageUrl = (p, "")
     ∧ Gallery.mode (gallery p) = custom
     ∧ Gallery.customImages (gallery p)
       = trim newImageUrl :: Gallery.customImages (gallery prev)
     ∧ buildGalleryImageList p
       = Some (trim newImageUrl
               :: List.filter str_truthy (Gallery.customImages (gallery prev)))
     ∧ Gallery.customImages (gallery (removeCustomImageAt 0 p))
       = Gallery.customImages (gallery prev))
  ∧ (trim newImageUrl = "" →
     addCustomImageUrl prev newImageUrl = (prev, newImageUrl)).
Proof.
  unfold addCustomImageUrl, normalizeUrlInput. split.
  - intros Hurl. destruct (trim newImageUrl) as [|c url] eqn:Htrim; [done|].
    eexists. split; [reflexivity|]. split; [done|]. split; [done|].
    split; [done|]. simpl. by rewrite Array_filter_from_delete.
  - by intros ->.
Qed.

(** An address typed with a space before it, onto the default settings,
    whose gallery is numbered. *)
Lemma custom_image_added_first_sample :
  ∃ p : SiteSettings,
    addCustomImageUrl DEFAULT_SITE_SETTINGS " https://cdn.x.com/b.png"
    = (p, "")
    ∧ buildGalleryImageList p = Some [ "https://cdn.x.com/b.png" ].
Proof.
  destruct (custom_image_added_first DEFAULT_SITE_SETTINGS
              " https://cdn.x.com/b.png") as [Hadd _].
  destruct Hadd as (p & Hrun & _ & _ & Hsite & _); [by vm_compute|].
  exists p. split; [exact Hrun|]. rewrite Hsite. reflexivity.
Defined.

(** X8.  Removing a custom image in the panel: at a position of the list,
    the list loses the image at that position and keeps the others in
    their order; at any other position, negative or past the end, nothing
    changes.  The rest of the settings is never touched. *)
Theorem custom_image_removed (index : Z) (prev : SiteSettings) :
  let images := Gallery.customImages (gallery prev) in
  let p := removeCustomImageAt index prev in
  p = with_gallery
        (with_customImages (Gallery.customImages (gallery p)) (gallery prev))
        prev
  ∧ (0 ≤ index < Z.of_nat (List.length images) →
     Gallery.customImages (gallery p)
     = (take (Z.to_nat index) images ++ drop (Z.to_nat index + 1) images)%list
     ∧ Z.of_nat (List.length (Gallery.customImages (gallery p)))
       = Z.of_nat (List.length images) - 1)
  ∧ (¬ 0 ≤ index < Z.of_nat (List.length images) → p = prev).
Proof.
  intros images p. split; [done|].
  unfold p, removeCustomImageAt. fold images.
  rewrite Array_filter_from_delete. rewrite Z.sub_0_r. split.
  - intros Hindex. replace (index <? 0) with false by lia. simpl.
    rewrite delete_take_drop, Nat.add_1_r. split; [done|].
    rewrite <- delete_take_drop, length_delete; [lia|].
    apply lookup_lt_is_Some_2. lia.
  - intros Hindex. destruct (Z.ltb_spec index 0).
    + apply with_customImages_same.
    + rewrite delete_past_end by lia. apply with_customImages_same.
Qed.

(** The second of the three stored images removed; position 3 is none. *)
Lemma custom_image_removed_sample :
  Gallery.customImages (gallery (removeCustomImageAt 1 custom_images))
  = [ "https://cdn.x.com/b.png"; "/gallery/a.jpeg" ]
  ∧ removeCustomImageAt 3 custom_images = custom_images.
Proof.
  destruct (custom_image_removed 1 custom_images) as (_ & Hin & _).
  destruct (custom_image_removed 3 custom_images) as (_ & _ & Hout).
  split.
  - destruct Hin as [-> _]; [simpl; lia|]. reflexivity.
  - apply Hout. simpl. lia.
Defined.

(** X9.  Dragging a custom image in the panel from one position to
    another.  When both are positions of the list and differ, the image is
    at its new position and the other images are where they were with
    respect to each other; in custom mode the public gallery follows.
    Otherwise nothing changes. *)
Theorem custom_image_drag (fromIndex toIndex : Z) (prev : SiteSettings) :
  let images := Gallery.customImages (gallery prev) in
  let length := Z.of_nat (List.length images) in
  let p := moveCustomImageTo fromIndex toIndex prev in
  let moved := Gallery.customImages (gallery p) in
  p = with_gallery (with_customImages moved (gallery prev)) prev
  ∧ (0 ≤ fromIndex < length → 0 ≤ toIndex < length → fromIndex ≠ toIndex →
     moved ≡ₚ images
     ∧ moved !! Z.to_nat toIndex = images !! Z.to_nat fromIndex
     ∧ delete (Z.to_nat toIndex) moved = delete (Z.to_nat fromIndex) images
     ∧ (Gallery.mode (gallery prev) = custom →
        buildGalleryImageList p = Some (List.filter str_truthy moved)))
  ∧ (¬ (0 ≤ fromIndex < length ∧ 0 ≤ toIndex < length
        ∧ fromIndex ≠ toIndex) →
     p = prev).
Proof.
  intros images len p moved.
  assert (p = if (fromIndex <? 0) || (len <=? fromIndex) then prev
              else if (toIndex <? 0) || (len <=? toIndex) then prev
              else if fromIndex =? toIndex then prev
              else with_gallery
                     (with_customImages (Array_move fromIndex toIndex images)
                        (gallery prev)) prev) as Hp by done.
  split; [|split].
  - unfold moved. rewrite Hp.
    repeat (case_match; [symmetry; apply with_customImages_same|]). done.
  - intros Hfrom Hto Hne. unfold moved. rewrite Hp.
    replace (fromIndex <? 0) with false by lia.
    replace (len <=? fromIndex) with false by lia.
    replace (toIndex <? 0) with false by lia.
    replace (len <=? toIndex) with false by lia.
    replace (fromIndex =? toIndex) with false by lia. simpl.
    destruct (Array_move_facts fromIndex toIndex images)
      as (Hperm & Hat & Hothers); [done..|].
    split; [done|]. split; [done|]. split; [done|].
    intros Hmode. unfold buildGalleryImageList. simpl. by rewrite Hmode.
  - intros Hno. rewrite Hp.
    destruct (Z.ltb_spec fromIndex 0); [done|].
    destruct (Z.leb_spec len fromIndex); [done|].
    destruct (Z.ltb_spec toIndex 0); [done|].
    destruct (Z.leb_spec len toIndex); [done|].
    destruct (Z.eqb_spec fromIndex toIndex); [done|].
    destruct Hno. lia.
Qed.

(** The last of the three stored images dragged to the front. *)
Lemma custom_image_drag_sample :
  Gallery.customImages (gallery (moveCustomImageTo 2 0 custom_images))
  !! 0%nat = Some "/gallery/a.jpeg"
  ∧ buildGalleryImageList (moveCustomImageTo 2 0 custom_images)
    = Some [ "/gallery/a.jpeg"; "https://cdn.x.com/b.png" ]
  ∧ moveCustomImageTo 2 2 custom_images = custom_images.
Proof.
  destruct (custom_image_drag 2 0 custom_images) as (_ & Hmove & _).
  destruct (custom_image_drag 2 2 custom_images) as (_ & _ & Hidle).
  destruct Hmove as (_ & Hat & _ & Hsite); [simpl; lia | simpl; lia | lia |].
  split; [exact Hat|]. split.
  - rewrite Hsite by reflexivity. reflexivity.
  - apply Hidle. lia.
Defined.

(** ** Promotions in the panel *)

Lemma with_items_same (p : SiteSettings) :
  with_promotions
    (with_items (Promotions.items (promotions p)) (promotions p)) p = p.
Proof. by destruct p as [? ? ? [] ?]. Qed.

(** Exchanging two elements of a list twice. *)
Lemma list_exchange_back {A} (l : list A) (i j : nat) (x y : A) :
  l !! i = Some x → l !! j = Some y →
  <[i := x]> (<[j := y]> (<[j := x]> (<[i := y]> l))) = l.
Proof.
  intros Hx Hy. apply list_eq. intros k.
  pose proof (lookup_lt_Some _ _ _ Hx). pose proof (lookup_lt_Some _ _ _ Hy).
  destruct (decide (k = i)) as [->|Hi].
  { rewrite list_lookup_insert_eq by (rewrite !length_insert; lia). done. }
  rewrite list_lookup_insert_ne by done.
  destruct (decide (k = j)) as [->|Hj].
  { rewrite list_lookup_insert_eq by (rewrite !length_insert; lia). done. }
  by rewrite !list_lookup_insert_ne by done.
Qed.

(** X10.  Moving a promotion one place up or down in the panel.  The
    promotion moved is the first of the list with the given [id]; when
    there is one and the place next to it in the given direction is in
    the list, the two promotions exchange their places and every other
    promotion stays where it is; if moreover the neighbour has another
    [id], moving the promotion the other way puts the list back as it was.
    Otherwise, with no such promotion or at the end of the list, nothing
    changes.  In every case the list holds the same promotions and the
    rest of the settings is untouched. *)
Theorem promotion_moved (id : string) (direction : Direction)
    (p : SiteSettings) :
  let items := Promotions.items (promotions p) in
  let idx := Array_findIndex (λ x, String.eqb (Promotion.id x) id) items in
  let next := idx + direction_value direction in
  let p' := movePromotion id direction p in
  let items' := Promotions.items (promotions p') in
  p' = with_promotions (with_items items' (promotions p)) p
  ∧ items' ≡ₚ items
  ∧ (0 ≤ idx → 0 ≤ next < Z.of_nat (List.length items) →
     ∃ x y : Promotion.t,
       items !! Z.to_nat idx = Some x
       ∧ Promotion.id x = id
       ∧ items !! Z.to_nat next = Some y
       ∧ items' !! Z.to_nat next = Some x
       ∧ items' !! Z.to_nat idx = Some y
       ∧ (∀ j : nat, j ≠ Z.to_nat idx → j ≠ Z.to_nat next →
          items' !! j = items !! j)
       ∧ (Promotion.id y ≠ id →
          movePromotion id (opposite direction) p' = p))
  ∧ (idx < 0 ∨ next < 0 ∨ Z.of_nat (List.length items) ≤ next → p' = p).
Proof.
  intros items idx next p' items'.
  pose proof (Array_findIndex_bounds
                (λ x, String.eqb (Promotion.id x) id) items) as Hidx.
  fold idx in Hidx.
  assert (next = idx + direction_value direction) as Hdir by done.
  assert (idx = next + direction_value (opposite direction)) as Hopp
    by (rewrite Hdir; destruct direction; simpl; lia).
  assert (direction_value direction ≠ 0) as Hstep by by destruct direction.
  clearbody next.
  destruct (decide (0 ≤ idx ∧ 0 ≤ next < Z.of_nat (List.length items)))
    as [[Hfound Hnext]|Hno].
  - destruct (lookup_lt_is_Some_2 items (Z.to_nat idx)) as [x Hx]; [lia|].
    destruct (lookup_lt_is_Some_2 items (Z.to_nat next)) as [y Hy]; [lia|].
    assert (p' = with_promotions
                   (with_items
                      (<[Z.to_nat next := x]> (<[Z.to_nat idx := y]> items))
                      (promotions p)) p) as Hp'.
    { unfold p', movePromotion. fold items idx. rewrite <- Hdir.
      replace (idx <? 0) with false by lia.
      replace (next <? 0) with false by lia.
      replace (Z.of_nat (List.length items) <=? next) with false by lia.
      simpl. by rewrite Hx, Hy. }
    assert (items' = <[Z.to_nat next := x]> (<[Z.to_nat idx := y]> items))
      as Hitems' by (unfold items'; by rewrite Hp').
    assert (idx = Z.of_nat (Z.to_nat idx)) as Hfirst by lia.
    apply Array_findIndex_Some in Hfirst as [(x' & Hx' & Hid) Hfirst].
    assert (x' = x) as -> by congruence. apply String.eqb_eq in Hid.
    assert (Z.to_nat idx ≠ Z.to_nat next) as Hne by lia.
    split; [by rewrite Hitems'|].
    split; [rewrite Hitems'; by apply Permutation_insert_swap|].
    split; [|lia]. intros _ _. exists x, y.
    split; [done|]. split; [done|]. split; [done|].
    assert (items' !! Z.to_nat next = Some x) as Hx2.
    { rewrite Hitems'. apply list_lookup_insert_eq.
      rewrite length_insert. lia. }
    assert (items' !! Z.to_nat idx = Some y) as Hy2.
    { rewrite Hitems', list_lookup_insert_ne by done.
      apply list_lookup_insert_eq. lia. }
    assert (∀ j : nat, j ≠ Z.to_nat idx → j ≠ Z.to_nat next →
            items' !! j = items !! j) as Hothers.
    { intros j Hj1 Hj2. by rewrite Hitems', !list_lookup_insert_ne. }
    split; [done|]. split; [done|]. split; [done|].
    intros Hy_id.
    assert (Array_findIndex (λ x, String.eqb (Promotion.id x) id) items'
            = next) as Hidx'.
    { replace next with (Z.of_nat (Z.to_nat next)) by lia.
      apply Array_findIndex_Some. split.
      { exists x. split; [done|]. by apply String.eqb_eq. }
      intros j z Hj Hz.
      destruct (decide (j = Z.to_nat idx)) as [->|Hji].
      { assert (z = y) as -> by congruence. by apply String.eqb_neq. }
      rewrite Hothers in Hz by lia.
      apply (Hfirst j z); [|done].
      destruct direction; simpl in *; lia. }
    unfold movePromotion. fold items'. rewrite Hidx'.
    assert (Z.of_nat (List.length items') = Z.of_nat (List.length items))
      as Hlen by (rewrite Hitems', !length_insert; lia).
    rewrite <- Hopp.
    replace (next <? 0) with false by lia.
    replace (idx <? 0) with false by lia.
    replace (Z.of_nat (List.length items') <=? idx) with false by lia.
    simpl. rewrite Hx2, Hy2, Hitems'.
    rewrite list_exchange_back by done. rewrite Hp'.
    unfold with_promotions, with_items, items. simpl.
    by destruct p as [? ? ? [] ?].
  - assert (p' = p) as Hp'.
    { unfold p', movePromotion. fold items idx. rewrite <- Hdir.
      destruct (Z.ltb_spec idx 0); [done|].
      destruct (Z.ltb_spec next 0); [done|].
      destruct (Z.leb_spec (Z.of_nat (List.length items)) next); [done|].
      destruct Hno. lia. }
    unfold items'. rewrite Hp'. fold items.
    split; [symmetry; apply with_items_same|]. split; [done|].
    split; [|done]. intros ? ?. destruct Hno. lia.
Qed.

(** Of two promotions, the second moved up and then down again; the first
    cannot move up. *)
Lemma promotion_moved_sample :
  Promotions.items (promotions (movePromotion "b" Up two_specials))
  = [special "b" "Nails"; special "a" "Braids"]
  ∧ movePromotion "b" Down (movePromotion "b" Up two_specials) = two_specials
  ∧ movePromotion "a" Up two_specials = two_specials.
Proof.
  destruct (promotion_moved "b" Up two_specials) as (_ & _ & Hmove & _).
  destruct (promotion_moved "a" Up two_specials) as (_ & _ & _ & Hidle).
  destruct Hmove as (x & y & _ & _ & Hy & _ & _ & _ & Hback);
    [by vm_compute | by vm_compute |].
  split; [reflexivity|]. split.
  - apply Hback. injection Hy as <-. discriminate.
  - apply Hidle. right. left. by vm_compute.
Defined.

Section promotions_on_display.

Variable time_value : string → option Z.
Variable now : Z.

(** X11.  Adding and removing a promotion in the panel.  A promotion just
    added is the first of the list; while the promotions are switched on
    it is the first on display, at any time, followed by the promotions
    that were on display, as far as twelve go in all.  Removing by [id]
    leaves the promotions with another [id], in their order, and no
    other; so removing a promotion just added, when no promotion had its
    [id] before, gives back the settings as they were. *)
Theorem promotion_added_shown_first (id : string) (p : SiteSettings) :
  let items := Promotions.items (promotions p) in
  Promotions.items (promotions (addPromotion id p)) = new_promotion id :: items
  ∧ (Promotions.enabled (promotions p) = true →
     Specials_items time_value now (addPromotion id p)
     = new_promotion id
       :: take 11 (List.filter (displayable time_value now) items))
  ∧ Promotions.items (promotions (removePromotion id p))
    = List.filter (λ x, negb (String.eqb (Promotion.id x) id)) items
  ∧ (∀ x, x ∈ Promotions.items (promotions (removePromotion id p))
          ↔ x ∈ items ∧ Promotion.id x ≠ id)
  ∧ ((∀ x, x ∈ items → Promotion.id x ≠ id) →
     removePromotion id (addPromotion id p) = p).
Proof.
  intros items. split; [done|]. split; [|split; [done|split]].
  - intros Henabled. unfold Specials_items. simpl. by rewrite Henabled.
  - intros x. simpl. fold items.
    rewrite list_elem_of_In, List.filter_In, <- list_elem_of_In.
    by rewrite negb_true_iff, String.eqb_neq.
  - intros Hfresh. unfold removePromotion, addPromotion. simpl.
    rewrite String.eqb_refl. simpl. fold items.
    rewrite List.forallb_filter_id.
    { unfold with_promotions, with_items, items. simpl.
      by destruct p as [? ? ? [] ?]. }
    apply forallb_forall. intros x Hx%list_elem_of_In%Hfresh.
    by apply negb_true_iff, String.eqb_neq.
Qed.

End promotions_on_display.

(** A promotion added to the two stored, with the promotions switched on
    (as they are by default), and removed again. *)
Lemma promotion_added_shown_first_sample :
  Specials_items (λ _, None) 0 (addPromotion "c" two_specials)
  = [new_promotion "c"; special "a" "Braids"; special "b" "Nails"]
  ∧ removePromotion "c" (addPromotion "c" two_specials) = two_specials.
Proof.
  destruct (promotion_added_shown_first (λ _, None) 0 "c" two_specials)
    as (_ & Hshown & _ & _ & Hback).
  split.
  - rewrite Hshown by reflexivity. reflexivity.
  - apply Hback. intros x Hx. apply list_elem_of_In in Hx.
    destruct Hx as [<-|[<-|[]]]; discriminate.
Defined.

(** ** The gallery of the public page *)

(** X12.  The lightbox.  On a list that is not empty, from an index of
    the list, [next] and [prev] give an index of the list, so that there
    is always an image to show; they undo each other; [next] goes one
    image forward, and from the last to the first, [prev] one image back,
    and from the first to the last; and as many steps as there are images
    come back to the image they started from.  On the empty list both
    give 0. *)
Theorem lightbox_cycle (lightboxItems : list string) (i : Z) :
  let length := Z.of_nat (List.length lightboxItems) in
  (0 ≤ i < length →
   0 ≤ lightbox_next lightboxItems i < length
   ∧ 0 ≤ lightbox_prev lightboxItems i < length
   ∧ is_Some (lightboxItems !! Z.to_nat (lightbox_next lightboxItems i))
   ∧ is_Some (lightboxItems !! Z.to_nat (lightbox_prev lightboxItems i))
   ∧ lightbox_next lightboxItems i = (if i =? length - 1 then 0 else i + 1)
   ∧ lightbox_prev lightboxItems i = (if i =? 0 then length - 1 else i - 1)
   ∧ lightbox_prev lightboxItems (lightbox_next lightboxItems i) = i
   ∧ lightbox_next lightboxItems (lightbox_prev lightboxItems i) = i
   ∧ Nat.iter (List.length lightboxItems) (lightbox_next lightboxItems) i = i
   ∧ Nat.iter (List.length lightboxItems) (lightbox_prev lightboxItems) i = i)
  ∧ (length = 0 →
     lightbox_next lightboxItems i = 0 ∧ lightbox_prev lightboxItems i = 0).
Proof.
  intros len. split.
  - intros Hi.
    assert (∀ j, 0 ≤ j < len →
            lightbox_next lightboxItems j
            = if j =? len - 1 then 0 else j + 1) as Hnext.
    { intros j Hj. unfold lightbox_next. fold len.
      replace (len =? 0) with false by lia.
      destruct (Z.eqb_spec j (len - 1)) as [->|Hne].
      - replace (len - 1 + 1) with len by lia. apply Z.rem_same. lia.
      - apply Z.rem_small. lia. }
    assert (∀ j, 0 ≤ j < len →
            lightbox_prev lightboxItems j
            = if j =? 0 then len - 1 else j - 1) as Hprev.
    { intros j Hj. unfold lightbox_prev. fold len.
      replace (len =? 0) with false by lia.
      destruct (Z.eqb_spec j 0) as [->|Hne].
      - replace (0 - 1 + len) with (len - 1) by lia. apply Z.rem_small. lia.
      - rewrite Z.rem_mod_nonneg by lia.
        replace (j - 1 + len) with (j - 1 + 1 * len) by lia.
        rewrite Z.mod_add by lia. apply Z.mod_small. lia. }
    assert (∀ j, 0 ≤ j < len → 0 ≤ lightbox_next lightboxItems j < len)
      as Hnext_in.
    { intros j Hj. rewrite Hnext by done.
      destruct (Z.eqb_spec j (len - 1)); lia. }
    assert (∀ j, 0 ≤ j < len → 0 ≤ lightbox_prev lightboxItems j < len)
      as Hprev_in.
    { intros j Hj. rewrite Hprev by done. destruct (Z.eqb_spec j 0); lia. }
    assert (∀ (k : nat) j, 0 ≤ j < len →
            Nat.iter k (lightbox_next lightboxItems) j
            = (j + Z.of_nat k) `mod` len) as Hiter_next.
    { induction k as [|k IH]; intros j Hj.
      - simpl. rewrite Z.add_0_r. symmetry. apply Z.mod_small. lia.
      - rewrite Nat.iter_succ_r, IH by auto. rewrite Hnext by done.
        destruct (Z.eqb_spec j (len - 1)) as [->|Hne].
        + replace (len - 1 + Z.of_nat (S k)) with (0 + Z.of_nat k + 1 * len)
            by lia.
          by rewrite Z.mod_add by lia.
        + f_equal. lia. }
    assert (∀ (k : nat) j, 0 ≤ j < len →
            Nat.iter k (lightbox_prev lightboxItems) j
            = (j - Z.of_nat k) `mod` len) as Hiter_prev.
    { induction k as [|k IH]; intros j Hj.
      - simpl. rewrite Z.sub_0_r. symmetry. apply Z.mod_small. lia.
      - rewrite Nat.iter_succ_r, IH by auto. rewrite Hprev by done.
        destruct (Z.eqb_spec j 0) as [->|Hne].
        + replace (len - 1 - Z.of_nat k) with (0 - Z.of_nat (S k) + 1 * len)
            by lia.
          by rewrite Z.mod_add by lia.
        + f_equal. lia. }
    split; [auto|]. split; [auto|].
    split; [apply lookup_lt_is_Some_2; specialize (Hnext_in i Hi); lia|].
    split; [apply lookup_lt_is_Some_2; specialize (Hprev_in i Hi); lia|].
    split; [auto|]. split; [auto|].
    split; [|split; [|split]].
    + rewrite Hprev, Hnext by auto.
      destruct (Z.eqb_spec i (len - 1)); [simpl; lia|].
      destruct (Z.eqb_spec (i + 1) 0); lia.
    + rewrite Hnext, Hprev by auto.
      destruct (Z.eqb_spec i 0) as [->|].
      * rewrite Z.eqb_refl. done.
      * destruct (Z.eqb_spec (i - 1) (len - 1)); lia.
    + rewrite Hiter_next by done. fold len.
      replace (i + len) with (i + 1 * len) by lia.
      rewrite Z.mod_add by lia. apply Z.mod_small. lia.
    + rewrite Hiter_prev by done. fold len.
      replace (i - len) with (i + (-1) * len) by lia.
      rewrite Z.mod_add by lia. apply Z.mod_small. lia.
  - intros Hlen. unfold lightbox_next, lightbox_prev. fold len.
    by rewrite Hlen.
Qed.

(** Three images open at the last one. *)
Lemma lightbox_cycle_sample :
  lightbox_next ["a"; "b"; "c"] 2 = 0
  ∧ lightbox_prev ["a"; "b"; "c"] 0 = 2
  ∧ lightbox_next [] 5 = 0.
Proof.
  destruct (lightbox_cycle ["a"; "b"; "c"] 2) as [Hin _].
  destruct (lightbox_cycle ["a"; "b"; "c"] 0) as [Hin0 _].
  destruct (lightbox_cycle [] 5) as [_ Hempty].
  destruct Hin as (_ & _ & _ & _ & Hnext & _); [simpl; lia|].
  destruct Hin0 as (_ & _ & _ & _ & _ & Hprev & _); [simpl; lia|].
  destruct Hempty as [Hnext0 _]; [reflexivity|].
  split; [exact Hnext|]. split; [exact Hprev|exact Hnext0].
Defined.



Section load_more.

Context (allImages : list string) (ic ps : Z).







End load_more.


(** The same gallery with a page size of -1: three clicks of "Load More"
    take the count from 2 to -1, and four images are visible, the list
    without its last. *)
Example gallery_negative_page_size :
  let v := Nat.iter 3 (Gallery_click 5 (Int 2) (Int (-1))) (Int 2) in
  v = Int (-1)
  ∧ Gallery_images ["a"; "b"; "c"; "d"; "e"] (Int 2) [] = ["a"; "b"]
  ∧ Gallery_images ["a"; "b"; "c"; "d"; "e"] v [] = ["a"; "b"; "c"; "d"].
Proof. by vm_compute. Qed.

(** ** Featured images *)

Section featured_nonempty.

Implicit Types (url folder ext v : string).

Lemma string_app_nonempty_l s t : s ≠ "" → s +:+ t ≠ "".
Proof. by destruct s. Qed.

Lemma string_app_nonempty_r s t : t ≠ "" → s +:+ t ≠ "".
Proof. destruct s; [done|]. by rewrite string_app_cons. Qed.

Lemma step_shorthand_nonempty folder ext url :
  url ≠ "" → step_shorthand folder ext url ≠ "".
Proof.
  intros Hurl. unfold step_shorthand. case_match; [|done].
  by apply string_app_nonempty_r, string_app_nonempty_l.
Qed.

Lemma step_path_nonempty ext url : url ≠ "" → step_path ext url ≠ "".
Proof.
  intros Hurl. unfold step_path.
  destruct (negb (test_http_url url)); [|done].
  set (url1 := if startsWith url "gallery/" then "/" +:+ url else url).
  assert (url1 ≠ "") as Hurl1.
  { unfold url1. case_match; [|done]. by apply string_app_nonempty_r. }
  set (url2 := if negb (startsWith url1 "/") then _ else url1).
  assert (url2 ≠ "") as Hurl2.
  { unfold url2. repeat case_match; try done;
      by apply string_app_nonempty_r. }
  case_match; [|done].
  by apply string_app_nonempty_r, string_app_nonempty_l.
Qed.

Lemma replace_version_nonempty url v : url ≠ "" → replace_version url v ≠ "".
Proof. destruct url as [|c r]; [done|]. simpl. by case_match. Qed.

Lemma step_version_nonempty folder v url :
  url ≠ "" → step_version folder v url ≠ "".
Proof.
  intros Hurl. unfold step_version. repeat case_match; try done.
  - by apply replace_version_nonempty.
  - by apply string_app_nonempty_l.
  - by apply string_app_nonempty_l.
Qed.

End featured_nonempty.

(** An entry is normalized to nothing when it is blank, and only then. *)
Lemma normalizeFeaturedUrl_empty (settings : SiteSettings) (input : string) :
  normalizeFeaturedUrl settings input = "" ↔ trim input = "".
Proof.
  rewrite normalizeFeaturedUrl_steps. cbv zeta.
  destruct (trim input) as [|c r] eqn:Htrim; [done|]. simpl str_truthy.
  cbv iota. split; [|done]. intros H. exfalso. revert H.
  by apply step_version_nonempty, step_path_nonempty, step_shorthand_nonempty.
Qed.

(** X14.  The featured images.  The list on display holds the normalized
    entries of [imageUrls] that are not blank, and nothing else; it holds
    none of them twice, however many entries are normalized to it, and
    never the empty address.  Of that list, the images that failed to load
    are left out and the others stay in their order. *)
Theorem featured_nails_listed (settings : SiteSettings) :
  let imageUrls :=
    FeaturedNails.imageUrls (Gallery.featuredNails (gallery settings)) in
  NoDup (nailsAll settings)
  ∧ ("" ∉ nailsAll settings)
  ∧ (∀ url : string,
       url ∈ nailsAll settings
       ↔ ∃ entry : string,
           entry ∈ imageUrls ∧ trim entry ≠ ""
           ∧ url = normalizeFeaturedUrl settings entry)
  ∧ ∀ nailsFailed : list string,
      NoDup (nailsImages settings nailsFailed)
      ∧ nailsImages settings nailsFailed `sublist_of` nailsAll settings
      ∧ ∀ url : string,
          url ∈ nailsImages settings nailsFailed
          ↔ (url ∈ nailsAll settings ∧ url ∉ nailsFailed).
Proof.
  intros imageUrls.
  assert (∀ url : string,
            url ∈ nailsAll settings
            ↔ ∃ entry : string,
                entry ∈ imageUrls ∧ trim entry ≠ ""
                ∧ url = normalizeFeaturedUrl settings entry) as Hin.
  { intros url. unfold nailsAll. fold imageUrls.
    rewrite elem_of_Set_from, list_elem_of_In, List.filter_In, List.in_map_iff.
    split.
    - intros [(entry & <- & Hentry) Hurl]. exists entry.
      split; [by apply list_elem_of_In|]. split; [|done].
      intros Hblank. apply (normalizeFeaturedUrl_empty settings) in Hblank.
      by rewrite Hblank in Hurl.
    - intros (entry & Hentry & Hblank & ->). split.
      + exists entry. split; [done|]. by apply list_elem_of_In.
      + destruct (normalizeFeaturedUrl settings entry) eqn:Hurl; [|done].
        by apply normalizeFeaturedUrl_empty in Hurl. }
  split; [apply NoDup_Set_from|]. split; [|split; [done|]].
  - intros (entry & _ & Hblank & Hurl)%Hin.
    symmetry in Hurl. by apply normalizeFeaturedUrl_empty in Hurl.
  - intros nailsFailed. unfold nailsImages. split; [|split].
    + apply NoDup_ListNoDup, List.NoDup_filter, NoDup_ListNoDup, NoDup_Set_from.
    + apply sublist_List_filter.
    + intros url. rewrite list_elem_of_In, List.filter_In, <- list_elem_of_In.
      unfold Set_has.
      by rewrite negb_true_iff, bool_decide_eq_false, elem_of_Set_from.
Qed.

(** ** Numbers typed in the panel *)

Section clamped_numbers.

Variable to_number : string → number.

(** X15.  [clampInt] between two integers [lo ≤ hi]: whatever the text,
    and whatever number the engine reads in it, the result is an integer
    from [lo] to [hi].  It is the number read, rounded down, when that is
    within the bounds, the nearer bound when it is beyond, infinite or
    not, and [lo] when no number is read. *)
Theorem clampInt_within (value : string) (lo hi : Z) :
  lo ≤ hi →
  ∃ k : Z,
    clampInt to_number value (Int lo) (Int hi) = Int k
    ∧ lo ≤ k ≤ hi
    ∧ k = match Math_floor (to_number value) with
          | Int z => Z.max lo (Z.min hi z)
          | PosInf => hi
          | NegInf | NaN => lo
          end.
Proof.
  intros Hbounds. unfold clampInt.
  destruct (Math_floor (to_number value)) as [| | |z]; simpl;
    eexists; (split; [reflexivity|]); split; lia.
Qed.

Lemma clampInt_Int (value : string) (lo hi : Z) :
  lo ≤ hi →
  ∃ k : Z, clampInt to_number value (Int lo) (Int hi) = Int k ∧ lo ≤ k ≤ hi.
Proof.
  intros Hbounds. unfold clampInt.
  destruct (Math_floor (to_number value)) as [| | |z]; simpl;
    eexists; (split; [reflexivity|]); lia.
Qed.

(** The gallery of integer bounds from 1 on, without a manual order, for
    a range that an array may hold. *)
Lemma buildGalleryImageList_natural (p : SiteSettings) (s e : Z) :
  let nb := Gallery.numbered (gallery p) in
  Gallery.mode (gallery p) = numbered →
  Numbered.start nb = Int s →
  Numbered.end_ nb = Int e →
  Numbered.order nb = [] →
  1 ≤ s →
  Z.max s e - s + 1 ≤ MAX_ARRAY_LENGTH →
  buildGalleryImageList p
  = Some ((λ z, numbered_url (Numbered.folder nb)
                  (effective_extension (Numbered.extension nb))
                  (Gallery.assetVersion (gallery p)) (Int z))
          <$> seqZ s (Z.max s e - s + 1)).
Proof.
  intros nb Hmode Hstart Hend Horder Hs Hlength.
  rewrite buildGalleryImageList_numbered by done. fold nb.
  unfold orderedNumbers, manual. rewrite Horder.
  rewrite range_clamped.
  - rewrite Hstart, Hend. unfold clamped_start, clamped_end. simpl.
    rewrite (Z.max_r 1 s) by lia. by rewrite <- list_fmap_compose.
  - by rewrite Hstart.
  - by rewrite Hend.
  - rewrite Hstart, Hend. unfold clamped_start, clamped_end. simpl.
    by rewrite (Z.max_r 1 s) by lia.
Qed.

(** X16.  Bounds typed in the panel.  Once a start and an end have been
    typed, in either order and whatever the texts, both are integers from
    1 to 999 and the manual order is empty; so the numbered gallery is
    returned, in natural order from the start, with one image at least
    and 999 at most. *)
Theorem typed_bounds_are_safe (value1 value2 : string) (p : SiteSettings) :
  let typed p' :=
    ∃ s e : Z,
      let nb := Gallery.numbered (gallery p') in
      Numbered.start nb = Int s ∧ 1 ≤ s ≤ 999
      ∧ Numbered.end_ nb = Int e ∧ 1 ≤ e ≤ 999
      ∧ Numbered.order nb = []
      ∧ (Gallery.mode (gallery p) = numbered →
         ∃ urls : list string,
           buildGalleryImageList p' = Some urls
           ∧ urls = (λ z, numbered_url (Numbered.folder nb)
                            (effective_extension (Numbered.extension nb))
                            (Gallery.assetVersion (gallery p')) (Int z))
                    <$> seqZ s (Z.max s e - s + 1)
           ∧ 1 ≤ Z.of_nat (List.length urls) ≤ 999) in
  typed (onChange_end to_number value2 (onChange_start to_number value1 p))
  ∧ typed (onChange_start to_number value1 (onChange_end to_number value2 p)).
Proof.
  intros typed.
  destruct (clampInt_Int value1 1 999) as (s & Hs & Hs_in); [lia|].
  destruct (clampInt_Int value2 1 999) as (e & He & He_in); [lia|].
  assert (∀ p' : SiteSettings,
            Gallery.mode (gallery p') = Gallery.mode (gallery p) →
            Numbered.start (Gallery.numbered (gallery p')) = Int s →
            Numbered.end_ (Gallery.numbered (gallery p')) = Int e →
            Numbered.order (Gallery.numbered (gallery p')) = [] →
            typed p') as Htyped.
  { intros p' Hmode Hstart Hend Horder. exists s, e.
    split; [done|]. split; [done|]. split; [done|]. split; [done|].
    split; [done|]. intros Hnumbered. eexists.
    split; [apply (buildGalleryImageList_natural p' s e);
            (congruence || (unfold MAX_ARRAY_LENGTH; lia))|].
    split; [done|]. rewrite length_fmap, length_seqZ. lia. }
  split; apply Htyped; simpl; by rewrite ?Hs, ?He.
Qed.

End clamped_numbers.

(** The count 9 typed between 4 and 60 stays, and no number gives 4. *)
Lemma clampInt_within_sample :
  clampInt read_sample "9" (Int 4) (Int 60) = Int 9
  ∧ clampInt read_sample "many" (Int 4) (Int 60) = Int 4.
Proof.
  destruct (clampInt_within read_sample "9" 4 60) as (k & Hk & _ & Hvalue);
    [lia|].
  destruct (clampInt_within read_sample "many" 4 60) as (k' & Hk' & _ & Hvalue');
    [lia|].
  split; [rewrite Hk, Hvalue|rewrite Hk', Hvalue']; reflexivity.
Defined.

(** No number typed as the start, and 3 as the end: images 1 to 3. *)
Lemma typed_bounds_are_safe_sample :
  buildGalleryImageList
    (onChange_end read_sample "3"
       (onChange_start read_sample "x" DEFAULT_SITE_SETTINGS))
  = Some [ "/gallery/1.jpeg?v=1"; "/gallery/2.jpeg?v=1";
           "/gallery/3.jpeg?v=1" ].
Proof.
  destruct (typed_bounds_are_safe read_sample "x" "3" DEFAULT_SITE_SETTINGS)
    as [(s & e & Hs & _ & He & _ & _ & Hsite) _].
  destruct (Hsite eq_refl) as (urls & -> & -> & _).
  injection Hs as <-. injection He as <-. reflexivity.
Defined.

(** ** The time of an appointment *)

Section time_format.

Implicit Types (s t ds rest : string) (c : ascii).

Lemma split_char_first c s t :
  includes s (String c "") = false →
  ∃ piece pieces,
    split_char t c = piece :: pieces
    ∧ split_char (s +:+ t) c = (s +:+ piece) :: pieces.
Proof.
  intros Hs. induction s as [|a s IH].
  - destruct t as [|b t]; simpl; [by eauto|].
    destruct (Ascii.eqb b c); [by eauto|].
    destruct (split_char t c); by eauto.
  - rewrite includes_char_cons, orb_false_iff in Hs. destruct Hs as [Ha Hs].
    destruct (IH Hs) as (piece & pieces & Ht & Hst).
    exists piece, pieces. split; [done|].
    rewrite string_app_cons. simpl. rewrite Ascii.eqb_sym, Ha, Hst.
    by rewrite string_app_cons.
Qed.

Lemma split_char_cons c t : split_char (String c t) c = "" :: split_char t c.
Proof. simpl. by rewrite Ascii.eqb_refl. Qed.

Lemma digits_value_from_app acc ds rest :
  all_digits ds = true → starts_with_digit rest = false →
  digits_value_from acc (ds +:+ rest) = digits_value_from acc ds.
Proof.
  revert acc. induction ds as [|c ds IH]; intros acc Hds Hrest.
  - destruct rest as [|c rest]; [done|]. simpl in *. by rewrite Hrest.
  - simpl in Hds. apply andb_true_iff in Hds as [Hc Hds].
    rewrite string_app_cons. simpl. rewrite Hc. by apply IH.
Qed.

Lemma digits_value_from_nonneg acc ds :
  0 ≤ acc → 0 ≤ digits_value_from acc ds.
Proof.
  revert acc. induction ds as [|c ds IH]; intros acc Hacc; [done|]. simpl.
  destruct (is_digit c) eqn:Hc; [|done]. apply IH.
  unfold is_digit in Hc. apply andb_true_iff in Hc as [Hc _].
  apply Nat.leb_le in Hc. lia.
Qed.

(** A numeral followed by what is no digit is read as its number. *)
Lemma parseInt10_digits ds rest :
  ds ≠ "" → all_digits ds = true → starts_with_digit rest = false →
  parseInt10 (ds +:+ rest) = Int (digits_value ds).
Proof.
  intros Hne Hds Hrest. destruct ds as [|c ds]; [done|].
  pose proof Hds as Hall. simpl in Hds.
  apply andb_true_iff in Hds as [Hc Hds].
  unfold parseInt10. rewrite string_app_cons. simpl trimStart.
  rewrite (is_digit_not_whitespace c) by done.
  assert (Ascii.eqb c "-" = false ∧ Ascii.eqb c "+" = false) as [-> ->].
  { split; apply Ascii.eqb_neq; intros ->; done. }
  simpl orb. cbv iota. simpl starts_with_digit. rewrite Hc.
  rewrite <- string_app_cons, digits_value_from_app by done.
  unfold digits_value. f_equal. lia.
Qed.

(** A text without a digit is read as no number. *)
Lemma parseInt10_no_digit s :
  (∀ c, includes s (String c "") = true → is_digit c = false) →
  parseInt10 s = NaN.
Proof.
  intros Hs.
  assert (∀ t, (∀ c, includes t (String c "") = true → is_digit c = false) →
          starts_with_digit t = false) as Hstart.
  { intros [|c t] Ht; [done|]. simpl. apply Ht.
    by rewrite includes_char_cons, Ascii.eqb_refl. }
  assert (∀ c, includes (trimStart s) (String c "") = true →
          is_digit c = false) as Htrim.
  { clear Hstart. induction s as [|a s IH]; [done|]. simpl.
    destruct (is_whitespace a); [|done].
    apply IH. intros c Hc. apply Hs.
    by rewrite includes_char_cons, Hc, orb_true_r. }
  unfold parseInt10. destruct (trimStart s) as [|c t]; [done|].
  assert (starts_with_digit (if Ascii.eqb c "+" || Ascii.eqb c "-"
                             then t else String c t) = false) as ->; [|done].
  apply Hstart. intros b Hb. apply Htrim.
  destruct (Ascii.eqb c "+" || Ascii.eqb c "-"); [|done].
  by rewrite includes_char_cons, Hb, orb_true_r.
Qed.

Lemma all_digits_no_colon ds : all_digits ds = true → includes ds ":" = false.
Proof. by apply all_digits_no_char. Qed.

End time_format.

Lemma split_char_first_digit (c : ascii) (t piece : string)
    (pieces : list string) :
  split_char t c = piece :: pieces →
  starts_with_digit t = false → starts_with_digit piece = false.
Proof.
  destruct t as [|b t]; simpl.
  - by intros [= <- _].
  - destruct (Ascii.eqb b c); [by intros [= <- _]|].
    destruct (split_char t c); by intros [= <- _].
Qed.

Lemma split_char_first_includes (c b : ascii) (t piece : string)
    (pieces : list string) :
  split_char t c = piece :: pieces →
  includes piece (String b "") = true → includes t (String b "") = true.
Proof.
  revert piece pieces.
  induction t as [|a t IH]; intros piece pieces Hsplit Hin;
    cbn [split_char] in Hsplit.
  - by injection Hsplit as <- _.
  - destruct (Ascii.eqb a c); [by injection Hsplit as <- _|].
    destruct (split_char t c) as [|q qs]; injection Hsplit as <- _;
      rewrite includes_char_cons in Hin |- *;
      apply orb_true_iff in Hin as [->|Hin]; try done.
    by rewrite (IH q qs), orb_true_r.
Qed.

Lemma hour_of_clock (h : Z) :
  0 ≤ h →
  num_add (num_rem (num_add (Int h) (Int 11)) (Int 12)) (Int 1)
  = Int ((h + 11) `mod` 12 + 1).
Proof. intros Hh. simpl. by rewrite Z.rem_mod_nonneg by lia. Qed.

(** X17.  The time of an appointment on the twelve-hour clock.  A time
    that begins with a numeral [hs], a colon and a numeral [ms] (of fifteen
    digits at most, which the engine reads exactly), whatever follows
    that is no digit (the seconds, say), is written as the hour
    from 1 to 12, a colon, the minutes on two digits at least, and [AM]
    before noon, [PM] from noon on; the hour is that of [hs] modulo 12,
    with 12 for 0, and neither the hour nor the minutes are checked
    against 23 and 59.  A time with no colon that begins with a numeral
    is written with the minutes [undefined].  A time without any digit is
    returned as it is. *)
Theorem formatTime24To12_clock :
  (∀ hs ms tail : string,
     let h := digits_value hs in
     let m := digits_value ms in
     hs ≠ "" → all_digits hs = true → (String.length hs ≤ 15)%nat →
     ms ≠ "" → all_digits ms = true → (String.length ms ≤ 15)%nat →
     starts_with_digit tail = false →
     formatTime24To12 (hs +:+ ":" +:+ ms +:+ tail)
     = pretty ((h + 11) `mod` 12 + 1) +:+ ":" +:+ padStart (pretty m) 2 "0"
         +:+ " " +:+ (if 12 <=? h then "PM" else "AM")
     ∧ 1 ≤ (h + 11) `mod` 12 + 1 ≤ 12)
  ∧ (∀ hs tail : string,
       let h := digits_value hs in
       hs ≠ "" → all_digits hs = true → (String.length hs ≤ 15)%nat →
       starts_with_digit tail = false → includes tail ":" = false →
       formatTime24To12 (hs +:+ tail)
       = pretty ((h + 11) `mod` 12 + 1) +:+ ":undefined "
           +:+ (if 12 <=? h then "PM" else "AM"))
  ∧ (∀ time : string,
       (∀ c, includes time (String c "") = true → is_digit c = false) →
       formatTime24To12 time = time).
Proof.
  split; [|split].
  - intros hs ms tail h m Hhs Hhs_digits _ Hms Hms_digits _ Htail.
    split; [|pose proof (Z.mod_pos_bound (h + 11) 12); lia].
    assert (0 ≤ h) as Hh by (by apply digits_value_from_nonneg).
    destruct (split_char_first ":" ms tail) as (p & ps & Hp & Hsplit_ms);
      [by apply all_digits_no_colon|].
    destruct (split_char_first ":" hs (":" +:+ ms +:+ tail))
      as (p0 & ps0 & Hp0 & Hsplit); [by apply all_digits_no_colon|].
    rewrite string_app_cons, split_char_cons in Hp0.
    change ("" +:+ ?x) with x in Hp0. rewrite Hsplit_ms in Hp0.
    injection Hp0 as <- <-.
    unfold formatTime24To12. rewrite Hsplit. cbn [List.map head lookup].
    cbn [list_lookup default from_option id].
    rewrite !parseInt10_digits;
      [|done|done|by apply (split_char_first_digit ":" tail p ps)
       |done|done|done].
    fold h m. cbn [Number_isNaN orb String_of_element].
    cbv iota. rewrite hour_of_clock by done.
    unfold num_geb. cbn [num_leb Number_toString]. done.
  - intros hs tail h Hhs Hhs_digits _ Htail Hcolon.
    assert (0 ≤ h) as Hh by (by apply digits_value_from_nonneg).
    assert (split_char (hs +:+ tail) ":" = [hs +:+ tail]) as Hsplit.
    { assert (includes (hs +:+ tail) ":" = false) as Hnone
        by (by rewrite includes_char_app, all_digits_no_colon).
      clear -Hnone. induction (hs +:+ tail) as [|a s IH]; [done|].
      rewrite includes_char_cons, orb_false_iff in Hnone.
      destruct Hnone as [Ha Hs]. simpl.
      by rewrite Ascii.eqb_sym, Ha, IH. }
    unfold formatTime24To12. rewrite Hsplit.
    cbn [List.map head lookup list_lookup default from_option id].
    rewrite parseInt10_digits by done.
    fold h. cbn [Number_isNaN orb String_of_element]. cbv iota.
    rewrite hour_of_clock by done.
    unfold num_geb. cbn [num_leb Number_toString]. done.
  - intros time Htime. unfold formatTime24To12.
    destruct (split_char_first ":" "" time) as (p & ps & Hp & _); [done|].
    rewrite Hp. cbn [List.map head default from_option id].
    assert (parseInt10 p = NaN) as ->; [|done].
    apply parseInt10_no_digit. intros c Hc. apply Htime.
    by apply (split_char_first_includes ":" c time p ps).
Qed.

(** Five past midnight, half past noon, a minute to midnight with its
    seconds, and an hour alone. *)
Lemma formatTime24To12_clock_sample :
  formatTime24To12 "00:05" = "12:05 AM"
  ∧ formatTime24To12 "12:30" = "12:30 PM"
  ∧ formatTime24To12 "23:59:07" = "11:59 PM"
  ∧ formatTime24To12 "14" = "2:undefined PM"
  ∧ formatTime24To12 "noon" = "noon".
Proof.
  destruct formatTime24To12_clock as (Hclock & Hhour & Hother).
  split; [|split; [|split; [|split]]].
  - destruct (Hclock "00" "05" "") as [H _]; [done|done|simpl; lia|done|done|simpl; lia|done|exact H].
  - destruct (Hclock "12" "30" "") as [H _]; [done|done|simpl; lia|done|done|simpl; lia|done|exact H].
  - destruct (Hclock "23" "59" ":07") as [H _]; [done|done|simpl; lia|done|done|simpl; lia|done|exact H].
  - apply (Hhour "14" ""); [done|done|simpl; lia|done|done].
  - apply Hother. intros c Hc.
    rewrite !includes_char_cons in Hc. simpl in Hc.
    repeat (apply orb_true_iff in Hc as [Hc|Hc];
            [apply Ascii.eqb_eq in Hc as ->; reflexivity|]).
    done.
Defined.

(** ** The review form *)

Lemma String_take_length (n : nat) (s : string) :
  String.length (String_take n s) = Nat.min n (String.length s).
Proof.
  revert s. induction n as [|n IH]; intros [|c s]; simpl; try done.
  by rewrite IH.
Qed.

Section review_form.

#[local] Arguments String_take : simpl never.

Variable addReview : Review.t → option string.
Variable now : string.

(** X18.  Sending a review.  A review goes to the store exactly when the
    hidden field is blank, the name has two characters or more, a service
    is chosen and the text has ten characters or more, all without the
    white space around them; what is sent is the name, the service and the
    text so trimmed, the text cut after 500 characters, with the rating
    of the form and the date of the moment.  When nothing is sent the
    form keeps what was typed, with a message, but for a filled hidden
    field, which gets none.  When the store accepts the review the form
    is emptied and the notice of success is up; when it does not, the
    form keeps what was typed, with a message. *)
Theorem review_sent_is_valid (st : ReviewState) :
  let form := formData st in
  let st' := fst (handleSubmit addReview now st) in
  let sent := snd (handleSubmit addReview now st) in
  let valid :=
    trim (ReviewForm.website form) = ""
    ∧ (2 ≤ String.length (trim (ReviewForm.name form)))%nat
    ∧ trim (ReviewForm.service form) ≠ ""
    ∧ (10 ≤ String.length (trim (ReviewForm.text form)))%nat in
  let review := {|
    Review.name := trim (ReviewForm.name form);
    Review.service := trim (ReviewForm.service form);
    Review.rating := ReviewForm.rating form;
    Review.text := String_take 500 (trim (ReviewForm.text form));
    Review.date := now;
  |} in
  let accepted := ∃ id : string, addReview review = Some id ∧ id ≠ "" in
  (valid →
   sent = [review]
   ∧ (10 ≤ String.length (Review.text review) ≤ 500)%nat
   ∧ (accepted →
      st' = {| formData := empty_form; formError := ""; submitted := true;
               isSubmitting := false |})
   ∧ (¬ accepted →
      formData st' = form ∧ formError st' ≠ ""
      ∧ submitted st' = submitted st))
  ∧ (¬ valid →
     sent = [] ∧ formData st' = form ∧ submitted st' = submitted st
     ∧ (formError st' = "" ↔ trim (ReviewForm.website form) ≠ "")).
Proof.
  intros form st' sent valid review accepted.
  unfold st', sent, handleSubmit, MAX_REVIEW_LEN. simpl formData. fold form.
  destruct (trim (ReviewForm.website form)) as [|c w] eqn:Hwebsite;
    simpl str_truthy; cbv iota.
  2:{ split; [by intros [? _]|]. intros _. simpl. by repeat split. }
  destruct (Nat.ltb_spec (String.length (trim (ReviewForm.name form))) 2)
    as [Hname|Hname].
  { split; [intros (_ & ? & _); lia|]. intros _. simpl.
    split; [done|]. split; [done|]. split; [done|]. by split. }
  destruct (trim (ReviewForm.service form)) as [|c s] eqn:Hservice;
    simpl str_truthy; simpl negb; cbv iota.
  { split; [by intros (_ & _ & ? & _)|]. intros _. simpl.
    split; [done|]. split; [done|]. split; [done|]. by split. }
  destruct (Nat.ltb_spec (String.length (trim (ReviewForm.text form))) 10)
    as [Htext|Htext].
  { split; [intros (_ & _ & _ & ?); lia|]. intros _. simpl.
    split; [done|]. split; [done|]. split; [done|]. by split. }
  split; [|intros Hno; destruct Hno; unfold valid;
           repeat split; (done || lia)].
  intros _. fold review.
  assert (from_option str_truthy false (addReview review) = true ↔ accepted)
    as Haccepted.
  { unfold accepted. destruct (addReview review) as [[|a id]|]; simpl.
    - split; [done|]. by intros (id & [= <-] & ?).
    - split; [|done]. intros _. by exists (String a id).
    - split; [done|]. by intros (id & ? & _). }
  destruct (from_option str_truthy false (addReview review)); simpl.
  - split; [done|]. split.
    { unfold review. simpl. rewrite String_take_length. lia. }
    split; [done|]. intros Hno. destruct Hno. by apply Haccepted.
  - split; [done|]. split.
    { unfold review. simpl. rewrite String_take_length. lia. }
    split; [|done]. intros Hyes. by apply Haccepted in Hyes.
Qed.

End review_form.

(** A review that is sent and accepted, and the attempt of a robot. *)
Lemma review_sent_is_valid_sample :
  snd (handleSubmit (λ _, Some "r1") "2026-01-01" filled_form)
  = [ {| Review.name := "Thandi"; Review.service := "Braids";
         Review.rating := Int 5; Review.text := "Lovely braids, thank you!";
         Review.date := "2026-01-01" |} ]
  ∧ formData (fst (handleSubmit (λ _, Some "r1") "2026-01-01" filled_form))
    = empty_form
  ∧ snd (handleSubmit (λ _, Some "r1") "2026-01-01" robot_form) = [].
Proof.
  destruct (review_sent_is_valid (λ _, Some "r1") "2026-01-01" filled_form)
    as [Hvalid _].
  destruct (review_sent_is_valid (λ _, Some "r1") "2026-01-01" robot_form)
    as [_ Hrobot].
  destruct Hvalid as (Hsent & _ & Haccepted & _).
  { split; [reflexivity|]. split; [simpl; lia|].
    split; [discriminate|simpl; lia]. }
  destruct Hrobot as (Hnone & _); [intros [Hblank _]; discriminate Hblank|].
  split; [rewrite Hsent; reflexivity|]. split; [|exact Hnone].
  rewrite Haccepted; [reflexivity|]. exists "r1". split; [reflexivity|discriminate].
Defined.

(** ** The administrator's session *)

Lemma toLowerCase_ADMIN_EMAIL : toLowerCase ADMIN_EMAIL = ADMIN_EMAIL.
Proof. reflexivity. Qed.

(** X19.  Who gets a session.  [adminLogin] answers [ok] only when the
    address typed is the administrator's, but for its case and the white
    space around it, and the account the service signed in has that
    address, but for its case; it then names the address of the account
    and has made one call, the sign-in.  With another address typed the
    service is not called at all.  When the service signs in an account
    with another address, or with none, [signOut] is called right after
    and the answer is a failure.  [adminMe] holds exactly for a user
    whose address is the administrator's, but for its case, and calls
    [signOut] for any other user. *)
Theorem session_for_admin_only (signIn : string → string → SignIn)
    (signOut : SignOut) (email password : string) :
  let result := fst (adminLogin signIn signOut email password) in
  let calls := snd (adminLogin signIn signOut email password) in
  (toLowerCase (trim email) ≠ ADMIN_EMAIL →
   result = AuthFailed "Unauthorized admin email" ∧ calls = [])
  ∧ (∀ address : string,
       result = AuthOk address →
       toLowerCase (trim email) = ADMIN_EMAIL
       ∧ signIn email password
         = Credential {| User_email := Some address |}
       ∧ toLowerCase address = ADMIN_EMAIL
       ∧ calls = [Call_signIn email password])
  ∧ (∀ user : User,
       toLowerCase (trim email) = ADMIN_EMAIL →
       signIn email password = Credential user →
       toLowerCase (default "" (User_email user)) ≠ ADMIN_EMAIL →
       (∃ message, result = AuthFailed message)
       ∧ calls = [Call_signIn email password; Call_signOut])
  ∧ (∀ user : option User,
       (fst (adminMe user) = true
        ↔ ∃ address : string,
            user = Some {| User_email := Some address |}
            ∧ toLowerCase address = ADMIN_EMAIL)
       ∧ (snd (adminMe user) = [Call_signOut]
          ↔ ∃ u : User,
              user = Some u
              ∧ toLowerCase (default "" (User_email u)) ≠ ADMIN_EMAIL)
       ∧ (snd (adminMe user) = [] ∨ snd (adminMe user) = [Call_signOut])).
Proof.
  intros result calls. unfold result, calls, adminLogin.
  rewrite toLowerCase_ADMIN_EMAIL.
  split; [|split; [|split]].
  - intros Hemail. by rewrite (proj2 (String.eqb_neq _ _) Hemail).
  - intros address.
    destruct (String.eqb_spec (toLowerCase (trim email)) ADMIN_EMAIL)
      as [Hemail|Hemail]; [|done]. simpl negb. cbv iota.
    destruct (signIn email password) as [[[userEmail|]]|code]; simpl;
      [| |done].
    + rewrite str_or_empty.
      destruct (String.eqb_spec (toLowerCase userEmail) ADMIN_EMAIL)
        as [Huser|Huser]; simpl.
      * destruct userEmail as [|c r]; [done|]. by intros [= <-].
      * by destruct signOut.
    + by destruct signOut.
  - intros user Hemail Hsign Huser. rewrite Hemail, Hsign.
    rewrite String.eqb_refl. simpl negb. cbv iota.
    rewrite str_or_empty.
    rewrite (proj2 (String.eqb_neq _ _) Huser). simpl.
    destruct signOut; by eauto.
  - intros user. unfold adminMe. rewrite toLowerCase_ADMIN_EMAIL.
    destruct user as [[[address|]]|]; simpl.
    + rewrite str_or_empty.
      destruct (String.eqb_spec (toLowerCase address) ADMIN_EMAIL)
        as [Haddress|Haddress]; simpl.
      * split; [|split; [|by left]].
        -- split; [by eauto|done].
        -- split; [done|]. by intros (u & [= <-] & ?).
      * split; [|split; [|by right]].
        -- split; [done|]. by intros (a & [= <-] & ?).
        -- split; [|done]. intros _. by eauto.
    + split; [|split; [|by right]].
      * split; [done|]. by intros (a & [= ] & _).
      * split; [|done]. intros _. by eauto.
    + split; [|split; [|by left]].
      * split; [done|]. by intros (a & [= ] & _).
      * split; [done|]. by intros (u & [= ] & _).
Qed.

(** The administrator's address in capitals with the right password; a
    visitor's address; the administrator's address with the password of
    another account. *)
Lemma session_for_admin_only_sample :
  fst (adminLogin sample_signIn SignedOut "visitor@example.com" "guest")
  = AuthFailed "Unauthorized admin email"
  ∧ snd (adminLogin sample_signIn SignedOut "visitor@example.com" "guest") = []
  ∧ snd (adminLogin sample_signIn SignedOut " JayTeca15@Gmail.com" "guest")
    = [Call_signIn " JayTeca15@Gmail.com" "guest"; Call_signOut].
Proof.
  destruct (session_for_admin_only sample_signIn SignedOut
              "visitor@example.com" "guest") as (Hother & _).
  destruct (session_for_admin_only sample_signIn SignedOut
              " JayTeca15@Gmail.com" "guest") as (_ & _ & Haccount & _).
  destruct Hother as [Hresult Hcalls]; [discriminate|].
  destruct (Haccount {| User_email := Some "visitor@example.com" |})
    as [_ Hcalls']; [reflexivity | reflexivity | discriminate |].
  split; [exact Hresult|]. split; [exact Hcalls|exact Hcalls'].
Defined.

(** ** The server that keeps the session *)

(** X20.  The origins the server accepts.  A request that names no origin
    is accepted.  An origin is accepted exactly when it is one of the five
    local addresses, the one with the port of the server among them, or
    stands between two commas of [FRONTEND_ORIGINS], with or without white
    space around it. *)
Theorem allowed_origins (FRONTEND_ORIGINS : option string) (PORT : number) :
  isAllowedOrigin FRONTEND_ORIGINS PORT None = true
  ∧ isAllowedOrigin FRONTEND_ORIGINS PORT (Some "") = true
  ∧ ∀ origin : string,
      origin ≠ "" →
      (isAllowedOrigin FRONTEND_ORIGINS PORT (Some origin) = true
       ↔ origin ∈ [ "http://localhost:5173"; "http://localhost:4173";
                    "http://localhost:" +:+ Number_toString PORT;
                    "http://127.0.0.1:5173"; "http://127.0.0.1:4173" ]
         ∨ ∃ piece : string,
             piece ∈ split_char (default "" FRONTEND_ORIGINS) ","
             ∧ trim piece = origin).
Proof.
  split; [done|]. split; [done|]. intros origin Horigin.
  unfold isAllowedOrigin, Set_has. rewrite str_or_empty.
  assert (from_option str_truthy false (Some origin) = true) as ->
    by by destruct origin.
  simpl negb. cbv iota. simpl default at 1.
  rewrite bool_decide_eq_true, elem_of_Set_from, elem_of_app.
  rewrite (list_elem_of_In (List.filter _ _)), List.filter_In,
    List.in_map_iff.
  split.
  - intros [[(piece & <- & Hpiece) _]|Hlocal]; [right|by left].
    exists piece. split; [by apply list_elem_of_In|done].
  - intros [Hlocal|(piece & Hpiece & <-)]; [by right|left].
    split; [|by destruct (trim piece)].
    exists piece. split; [done|]. by apply list_elem_of_In.
Qed.

(** Two origins listed with a space after the comma, on port 8787. *)
Lemma allowed_origins_sample :
  isAllowedOrigin (Some "https://berly.example, https://www.berly.example")
    (Int 8787) (Some "https://www.berly.example") = true
  ∧ isAllowedOrigin (Some "https://berly.example") (Int 8787)
      (Some "http://localhost:8787") = true.
Proof.
  destruct (allowed_origins
              (Some "https://berly.example, https://www.berly.example")
              (Int 8787)) as (_ & _ & Hlisted).
  destruct (allowed_origins (Some "https://berly.example") (Int 8787))
    as (_ & _ & Hlocal).
  split.
  - apply Hlisted; [discriminate|]. right.
    exists " https://www.berly.example". split; [|reflexivity].
    apply list_elem_of_In. vm_compute. tauto.
  - apply Hlocal; [discriminate|]. left.
    apply list_elem_of_In. vm_compute. tauto.
Defined.

Lemma split_char_nonempty (c : ascii) (s : string) : split_char s c ≠ [].
Proof.
  destruct s as [|a s]; [done|]. simpl.
  destruct (Ascii.eqb a c); [done|]. by destruct (split_char s c).
Qed.

Lemma split_char_shape (c : ascii) (s piece : string) (pieces : list string) :
  split_char s c = piece :: pieces →
  (s = piece ∧ pieces = [])
  ∨ ∃ r, s = piece +:+ String c r ∧ split_char r c = pieces.
Proof.
  revert piece pieces. induction s as [|a s IH]; intros piece pieces Hsplit;
    cbn [split_char] in Hsplit.
  - left. by injection Hsplit as <- <-.
  - destruct (Ascii.eqb_spec a c) as [->|Hne].
    + right. injection Hsplit as <- <-. by exists s.
    + destruct (split_char s c) as [|q qs] eqn:Hq.
      * by destruct (split_char_nonempty c s).
      * injection Hsplit as <- <-.
        destruct (IH q qs eq_refl) as [[-> ->]|(r & -> & Hr)].
        -- by left.
        -- right. exists r. by rewrite string_app_cons.
Qed.

Lemma startsWith_app_inv (s p : string) :
  startsWith s p = true → ∃ r, s = p +:+ r.
Proof.
  revert s. induction p as [|a p IH]; intros s; [by exists s|].
  destruct s as [|b s]; [done|]. rewrite startsWith_cons.
  intros [->%Ascii.eqb_eq (r & ->)%IH]%andb_true_iff.
  exists r. by rewrite string_app_cons.
Qed.

Lemma split_char_space_token (token rest : string) :
  includes token " " = false →
  rest = "" ∨ startsWith rest " " = true →
  ∃ pieces, split_char (token +:+ rest) " " = token :: pieces.
Proof.
  intros Htoken Hrest.
  destruct (split_char_first " " token rest) as (p & ps & Hp & ->); [done|].
  assert (p = "") as ->.
  { destruct Hrest as [->|Hrest]; [simpl in Hp; congruence|].
    destruct rest as [|c rest]; [done|].
    rewrite startsWith_cons, andb_true_r in Hrest.
    apply Ascii.eqb_eq in Hrest as <-. rewrite split_char_cons in Hp.
    congruence. }
  rewrite string_app_empty_r. by eauto.
Qed.

(** X21.  The token of a request.  A header [authorization] that reads
    [Bearer], one space, and a token without a space, with nothing after
    it or another space first, gives that token, whatever the cookie.
    Any other header, one that does not begin with [Bearer] and a space,
    or has a second space right after, gives what no header gives: the
    cookie of the session when it is there and not empty, and nothing
    otherwise. *)
Theorem token_of_request (req : Request) :
  (∀ token rest : string,
     authorization req = Some ("Bearer " +:+ token +:+ rest) →
     token ≠ "" → includes token " " = false →
     rest = "" ∨ startsWith rest " " = true →
     getTokenFromRequest req = Some token)
  ∧ (∀ header : string,
       authorization req = Some header →
       startsWith header "Bearer " = false
       ∨ startsWith header "Bearer  " = true ∨ header = "Bearer " →
       getTokenFromRequest req = getTokenFromCookie req)
  ∧ (authorization req = None →
     getTokenFromRequest req = getTokenFromCookie req)
  ∧ (getTokenFromCookie req = None
     ↔ cookie req = None ∨ cookie req = Some "")
  ∧ (∀ token : string,
       getTokenFromCookie req = Some token
       ↔ cookie req = Some token ∧ token ≠ "").
Proof.
  split; [|split; [|split; [|split]]].
  - intros token rest Hauth Htoken Hspace Hrest.
    unfold getTokenFromRequest. rewrite Hauth.
    destruct (split_char_space_token token rest) as (pieces & Hpieces);
      [done..|].
    destruct (split_char_first " " "Bearer" (" " +:+ token +:+ rest))
      as (p & ps & Hp & Hsplit); [done|].
    rewrite string_app_cons, split_char_cons in Hp.
    change ("" +:+ ?x) with x in Hp. rewrite Hpieces in Hp.
    injection Hp as <- <-.
    change ("Bearer " +:+ token +:+ rest)
      with ("Bearer" +:+ " " +:+ token +:+ rest).
    rewrite Hsplit. simpl. by destruct token.
  - intros header Hauth Hheader. unfold getTokenFromRequest. rewrite Hauth.
    destruct (str_truthy header) eqn:Htruthy; [|done].
    destruct Hheader as [Hheader|[Hheader|Hheader]];
      [| |by rewrite Hheader].
    + destruct (split_char header " ") as [|type pieces] eqn:Hsplit; [done|].
      simpl. destruct (String.eqb_spec type "Bearer") as [->|Htype].
      * apply split_char_shape in Hsplit as [[-> ->]|(r & -> & _)]; [done|].
        change ("Bearer" +:+ String " " r) with ("Bearer " +:+ r) in Hheader.
        by rewrite startsWith_app in Hheader.
      * by destruct pieces.
    + apply startsWith_app_inv in Hheader as (r & ->).
      destruct (split_char_first " " "Bearer" ("  " +:+ r))
        as (p & ps & Hp & Hsplit); [done|].
      rewrite string_app_cons, split_char_cons in Hp.
      rewrite string_app_cons, split_char_cons in Hp.
      injection Hp as <- <-.
      change ("Bearer  " +:+ r) with ("Bearer" +:+ "  " +:+ r).
      by rewrite Hsplit.
  - intros Hauth. unfold getTokenFromRequest. by rewrite Hauth.
  - unfold getTokenFromCookie. destruct (cookie req) as [[|c t]|]; naive_solver.
  - intros token. unfold getTokenFromCookie.
    destruct (cookie req) as [[|c t]|]; naive_solver.
Qed.

(** The bearer token goes before the cookie; credentials of another scheme
    leave the cookie; an empty cookie is no token. *)
Lemma token_of_request_sample :
  getTokenFromRequest bearer_request = Some "abc.def"
  ∧ getTokenFromRequest basic_request = Some "xyz"
  ∧ getTokenFromRequest blank_request = None.
Proof.
  split; [|split].
  - apply (proj1 (token_of_request bearer_request) "abc.def" "");
      [reflexivity|discriminate|reflexivity|by left].
  - destruct (token_of_request basic_request) as (_ & Hother & _ & _ & Hcookie).
    rewrite (Hother "Basic dXNlcg==" eq_refl (or_introl eq_refl)).
    apply Hcookie. split; [reflexivity|discriminate].
  - destruct (token_of_request blank_request) as (_ & _ & Hnone & Hblank & _).
    rewrite (Hnone eq_refl). apply Hblank. by right.
Defined.

(** ** Copies and the local cache *)

(** X22.  [deepClone] of a value that [JSON.stringify] writes (any value but
    [undefined]; its objects list no key twice) returns a value with the
    same data, made of objects and arrays that are all new: none of them is
    reachable from the original, so no write to the copy is seen through
    the original.  [deepClone(undefined)] raises.  ([n] is the next free
    address, above the objects of the original.) *)
Theorem deepClone_copy (v : value) (n : addr) :
  distinct_keys v = true →
  (∀ a, a ∈ addrs v → (a < n)%nat) →
  (v = VUndefined → deepClone v n = (None, n))
  ∧ (v ≠ VUndefined →
     ∃ r n',
       deepClone v n = (Some r, n')
       ∧ JSON_data r = JSON_data v
       ∧ (∀ a, a ∈ addrs r → (n ≤ a < n')%nat ∧ a ∉ addrs v)
       ∧ (∀ a fo fa, a ∈ addrs r → update a fo fa v = v)).
Proof.
  intros Hkeys Hold. split; [by intros ->|]. intros Hdefined.
  destruct (JSON_data v) as [j|] eqn:Hj; [|by destruct v].
  unfold deepClone. rewrite Hj.
  pose proof (JSON_build_fresh j n) as [_ Hnew].
  pose proof (JSON_round_trip j n (JSON_data_finite v j Hj)
                (JSON_data_distinct v j Hkeys Hj)) as Hdata.
  destruct (JSON_build j n) as [r n']. simpl in *.
  exists r, n'. split; [done|]. split; [done|].
  assert (∀ a, a ∈ addrs r → (n ≤ a < n')%nat ∧ a ∉ addrs v) as Hfresh.
  { intros a Ha. split; [by apply Hnew|]. intros Hin%Hold.
    apply Hnew in Ha. lia. }
  split; [exact Hfresh|]. intros a fo fa Ha.
  apply update_unreached. by apply Hfresh.
Qed.

(** A deep copy of the defaults, where the site starts. *)
Lemma deepClone_copy_defaults :
  ∃ r n',
    deepClone DEFAULTS first_free = (Some r, n')
    ∧ JSON_data r = JSON_data DEFAULTS
    ∧ (∀ a, a ∈ addrs r → (first_free ≤ a < n')%nat ∧ a ∉ addrs DEFAULTS)
    ∧ (∀ a fo fa, a ∈ addrs r → update a fo fa DEFAULTS = DEFAULTS).
Proof.
  apply (deepClone_copy DEFAULTS first_free).
  - reflexivity.
  - apply addrs_DEFAULTS.
  - discriminate.
Defined.

(** *** Saving and loading *)

(** X23.  Settings saved to the local cache are the settings loaded from
    it.  [settings] is a complete settings object (its data is the document
    of some typed settings [s]), [write] the text [JSON.stringify] writes
    and [parse] what [JSON.parse] reads: when the text written for the
    document is read back as the document, loading after saving returns
    settings with the data that was saved, whatever the cache held
    before. *)
Theorem saved_settings_are_loaded (parse : string → option json)
    (write : json → string) (s : SiteSettings) (settings : value)
    (localStorage : gmap string string) (n : addr) :
  JSON_data settings = Some (json_of_settings s) →
  write (json_of_settings s) ≠ "" →
  parse (write (json_of_settings s)) = Some (json_of_settings s) →
  ∃ r n',
    loadFromLocalStorage parse
      (saveToLocalStorage write settings localStorage) n
    = (Some r, n')
    ∧ JSON_data r = JSON_data settings.
Proof.
  intros Hdata Hfilled Hparse.
  unfold loadFromLocalStorage, saveToLocalStorage.
  rewrite lookup_insert_eq, Hdata.
  assert (str_truthy (write (json_of_settings s)) = true) as ->
    by (by destruct (write (json_of_settings s))).
  cbn [negb]. unfold try_catch, bind, JSON_parse. rewrite Hparse.
  destruct (mergeSettings_complete_document s n
              (JSON_build (json_of_settings s) n).2
              (JSON_data_finite _ _ Hdata)) as (r & n' & Hmerge & Hr).
  destruct (JSON_build (json_of_settings s) n) as [parsed n1].
  simpl in Hmerge. rewrite Hmerge. by exists r, n'.
Qed.

(** Saving the defaults over a cache that held something else. *)
Lemma saved_settings_are_loaded_defaults :
  ∃ r n',
    loadFromLocalStorage parse_defaults
      (saveToLocalStorage write_defaults DEFAULTS {[ STORAGE_KEY := "{oops" ]})
      first_free
    = (Some r, n')
    ∧ JSON_data r = JSON_data DEFAULTS.
Proof.
  apply (saved_settings_are_loaded parse_defaults write_defaults
           DEFAULT_SITE_SETTINGS DEFAULTS).
  - reflexivity.
  - discriminate.
  - reflexivity.
Defined.
